(** * Placement Driver core: timestamp oracle, client RPC worker, cluster worker

    A shallow embedding of [server/tso.go], the client's [rpcWorker],
    [server/cluster_worker.go] and the server's cache of connections to the
    storage nodes, with the properties the specification states about them
    and further properties read off the code.

    Conventions of the embedding.
    - Go's [int64] is a [Z] together with its two's-complement wrap-around
      ([Int64.wrap]); [/] on integers truncates towards zero ([Z.quot]).
    - A [time.Time] is its wall-clock reading, the number of nanoseconds
      since the Unix epoch; differences of instants are differences of
      these readings.
    - A Go pointer is an [option]: [None] is [nil].  Objects that are shared
      and mutated through pointers live in an explicit heap.
    - Everything the environment decides (wall-clock readings, network and
      consensus-store failures, the scheduler, the random generator) is an
      explicit argument of the function that consumes it. *)

From Stdlib Require Import ZArith List Lia Bool.
From stdpp Require Import base option list strings gmap.

Open Scope Z_scope.

(** ** Machine integers *)

Module Int64.

Definition min_int : Z := - 2 ^ 63.
Definition max_int : Z := 2 ^ 63 - 1.

Definition in_range (z : Z) : Prop := min_int <= z <= max_int.

(** Two's-complement reduction of an integer to 64 bits. *)
Definition wrap (z : Z) : Z := (z + 2 ^ 63) mod 2 ^ 64 - 2 ^ 63.

Definition add (a b : Z) : Z := wrap (a + b).
Definition sub (a b : Z) : Z := wrap (a - b).
Definition mul (a b : Z) : Z := wrap (a * b).
(** Go's integer division truncates towards zero. *)
Definition div (a b : Z) : Z := wrap (Z.quot a b).

(** [uint64(x)] for an [int64] [x]. *)
Definition to_uint64 (z : Z) : Z := z mod 2 ^ 64.

(** Saturation, as [time.Time.Sub] does for a [time.Duration]. *)
Definition saturate (z : Z) : Z :=
  if z <? min_int then min_int else if max_int <? z then max_int else z.

Lemma wrap_id (z : Z) : in_range z -> wrap z = z.
Proof.
  unfold in_range, min_int, max_int, wrap. intros H.
  rewrite Z.mod_small; lia.
Qed.

Lemma wrap_in_range (z : Z) : in_range (wrap z).
Proof.
  unfold in_range, min_int, max_int, wrap.
  pose proof (Z.mod_pos_bound (z + 2 ^ 63) (2 ^ 64)). lia.
Qed.

Lemma wrap_to_uint64 (z : Z) : wrap (to_uint64 z) = wrap z.
Proof.
  unfold wrap, to_uint64.
  rewrite Zplus_mod_idemp_l. reflexivity.
Qed.

Lemma saturate_id (z : Z) : in_range z -> saturate z = z.
Proof.
  unfold in_range, saturate. intros H.
  destruct (Z.ltb_spec z min_int); [lia|].
  destruct (Z.ltb_spec max_int z); [lia|]. reflexivity.
Qed.

End Int64.

(** ** The slice of Go's runtime the server uses *)

Module Go.

(** [time.Time]: nanoseconds since the Unix epoch.  The zero [Time] is
    January 1, year 1, which lies outside the range of [UnixNano]. *)
Definition zeroTime : Z := -62135596800 * 10 ^ 9.

Definition UnixNano (t : Z) : Z := Int64.wrap t.

(** [t.Sub(u).Nanoseconds()] *)
Definition Sub (t u : Z) : Z := Int64.saturate (t - u).

(** [binary.BigEndian.PutUint64] into a fresh 8-byte slice. *)
Definition PutUint64 (v : Z) : list Z := reverse (Z_to_little_endian 8 8 v).

(** [binary.BigEndian.Uint64] *)
Definition Uint64 (data : list Z) : Z := little_endian_to_Z 8 (reverse data).

Lemma Uint64_PutUint64 (v : Z) : Uint64 (PutUint64 v) = v mod 2 ^ 64.
Proof.
  unfold Uint64, PutUint64. rewrite reverse_involutive.
  rewrite little_endian_to_Z_to_little_endian by lia. reflexivity.
Qed.

Lemma length_PutUint64 (v : Z) : length (PutUint64 v) = 8%nat.
Proof.
  unfold PutUint64. rewrite length_reverse.
  pose proof (length_Z_to_little_endian 8 8 v). lia.
Qed.

End Go.

(** ** The consensus store's conditional transaction *)

Module Etcd.

Inductive txn_response : Type :=
| TxnErr                       (* Commit returned an error *)
| TxnResp (succeeded : bool).  (* the response and its Succeeded flag *)

(** [client.Txn(ctx).If(cmp).Then(ops).Commit()] over a store of type [S].
    [commit_err] is the environment: the call itself fails and nothing is
    applied. *)
Definition Txn {S : Type} (commit_err : bool) (cmp : S -> bool) (ops : S -> S)
    (st : S) : txn_response * S :=
  if commit_err then (TxnErr, st)
  else if cmp st then (TxnResp true, ops st)
  else (TxnResp false, st).

(** Modelled from the spec: [leaderCmp] (server/leader.go is not among the
    sources).  Section 4.7: a comparison asserting that the create revision
    of the leader key equals the revision this server obtained when it won
    the election. *)
Definition leaderCmp (leader_create_revision own_revision : Z) : bool :=
  leader_create_revision =? own_revision.

End Etcd.

(** ** server/tso.go *)

Module Tso.

Definition updateTimestampStep : Z := 10.
Definition maxLogical : Z := Z.shiftl 1 18.
Definition maxRetryNum : nat := 100.

Record atomicObject : Type := mkObject { physical : Z; logical : Z }.

(** [protopb.Timestamp] as [getRespTS] fills it. *)
Record Timestamp : Type := mkTimestamp { Physical : Z; Logical : Z }.

(** The part of the consensus store the oracle touches. *)
Record Store : Type := mkStore {
  leader_create_revision : Z;        (* of <root>/leader; 0 when absent *)
  timestamp_value : option (list Z)  (* the bytes at <root>/timestamp *)
}.

(** The fields of [Server] the oracle uses.  [heap] holds every
    [atomicObject] allocated so far; a pointer is an index into it and
    [ts] is the [atomic.Value]. *)
Record Server : Type := mkServer {
  LeaderLease : Z;      (* s.cfg.LeaderLease, in seconds *)
  leaderRevision : Z;   (* what leaderCmp compares the leader key with *)
  lastSavedTime : Z;
  heap : list atomicObject;
  ts : option nat
}.

Inductive error : Type :=
| ErrGet               (* kv.Get failed *)
| ErrInvalidData       (* "invalid timestamp data, must 8 bytes" *)
| ErrClockBehind       (* "%s <= last saved time %s" *)
| ErrCommit            (* Txn(...).Commit() failed *)
| ErrSaveFailed.       (* "save timestamp failed, maybe we lost leader" *)

Inductive result (A : Type) : Type :=
| Ok (a : A)
| Err (e : error)
| Panic      (* a run-time panic of the goroutine *)
| Waiting.   (* still sleeping: the clock readings supplied ran out *)
Arguments Ok {A} a.
Arguments Err {A} e.
Arguments Panic {A}.
Arguments Waiting {A}.

Definition set_lastSavedTime (now : Z) (s : Server) : Server :=
  mkServer (LeaderLease s) (leaderRevision s) now (heap s) (ts s).

(** [current := &atomicObject{physical: now}; s.ts.Store(current)] *)
Definition store_current (now : Z) (s : Server) : Server :=
  mkServer (LeaderLease s) (leaderRevision s) (lastSavedTime s)
    (heap s ++ [mkObject now 0]) (Some (length (heap s))).

Definition put_timestamp (data : list Z) (kv : Store) : Store :=
  mkStore (leader_create_revision kv) (Some data).

(** A [Get] of a single key returns at most one pair, so the [n > 1] branch
    of the source cannot be taken and is left out. *)
Definition loadTimestamp (get_err : bool) (kv : Store) : result Z :=
  if get_err then Err ErrGet
  else match timestamp_value kv with
       | None => Ok 0
       | Some data =>
           if Nat.eqb (length data) 8 then Ok (Int64.wrap (Go.Uint64 data))
           else Err ErrInvalidData
       end.

Definition saveTimestamp (commit_err : bool) (now : Z) (kv : Store) (s : Server)
    : result unit * Store * Server :=
  let data := Go.PutUint64 (Int64.to_uint64 (Go.UnixNano now)) in
  match Etcd.Txn commit_err
          (fun kv => Etcd.leaderCmp (leader_create_revision kv) (leaderRevision s))
          (put_timestamp data) kv with
  | (Etcd.TxnErr, kv') => (Err ErrCommit, kv', s)
  | (Etcd.TxnResp false, kv') => (Err ErrSaveFailed, kv', s)
  | (Etcd.TxnResp true, kv') => (Ok tt, kv', set_lastSavedTime now s)
  end.

(** The [for] loop of [syncTimestamp].  Each iteration reads the wall clock
    once; [clock] lists the successive readings. *)
Fixpoint sync_loop (last lease : Z) (clock : list Z) : result Z :=
  match clock with
  | [] => Waiting
  | now :: later =>
      let since := Int64.div (Int64.sub (Go.UnixNano now) last) 1000000 in
      if since <=? 0 then Err ErrClockBehind
      else
        let wait := Int64.sub (Int64.mul (Int64.mul 2 lease) 1000) since in
        if 0 <? wait then sync_loop last lease later
        else Ok now
  end.

Definition syncTimestamp (get_err : bool) (clock : list Z) (commit_err : bool)
    (kv : Store) (s : Server) : result unit * Store * Server :=
  match loadTimestamp get_err kv with
  | Ok last =>
      match sync_loop last (LeaderLease s) clock with
      | Ok now =>
          match saveTimestamp commit_err now kv s with
          | (Ok _, kv', s') => (Ok tt, kv', store_current now s')
          | other => other
          end
      | Err e => (Err e, kv, s)
      | Panic => (Panic, kv, s)
      | Waiting => (Waiting, kv, s)
      end
  | Err e => (Err e, kv, s)
  | Panic => (Panic, kv, s)
  | Waiting => (Waiting, kv, s)
  end.

(** The type assertion on [s.ts.Load()] is not in comma-ok form: it panics on an
    empty [atomic.Value].  The test [since > 2*updateTimestampStep] only logs
    a warning and is left out. *)
Definition updateTimestamp (now : Z) (commit_err : bool) (kv : Store) (s : Server)
    : result unit * Store * Server :=
  match ts s with
  | None => (Panic, kv, s)
  | Some p =>
      match heap s !! p with
      | None => (Panic, kv, s)
      | Some prev =>
          let since := Z.quot (Go.Sub now (physical prev)) 1000000 in
          if since <=? 0 then (Ok tt, kv, s)
          else if Int64.mul (LeaderLease s) 1000
                    <? Z.quot (Go.Sub now (lastSavedTime s)) 1000000
          then
            match saveTimestamp commit_err now kv s with
            | (Ok _, kv', s') => (Ok tt, kv', store_current now s')
            | other => other
            end
          else (Ok tt, kv, store_current now s)
      end
  end.

(** *** [getRespTS], one shared-memory access at a time

    A caller is a goroutine inside [getRespTS]: [i] is the loop counter and
    [current] the pointer it loaded in this iteration, if it already did. *)
Inductive caller : Type :=
| Idle
| Running (i : nat) (current : option nat).

(** The loop test followed by [s.ts.Load()]. *)
Definition getRespTS_load (i : nat) (s : Server) : caller * option (option Timestamp) :=
  if Nat.ltb i maxRetryNum then
    match ts s with
    | None => (Running (S i) None, None)       (* not synced yet: sleep, continue *)
    | Some p => (Running i (Some p), None)
    end
  else (Idle, Some None).                      (* return nil *)

Definition add_logical (p : nat) (s : Server) : Server :=
  mkServer (LeaderLease s) (leaderRevision s) (lastSavedTime s)
    (alter (fun o => mkObject (physical o) (Int64.add (logical o) 1)) p (heap s))
    (ts s).

(** [atomic.AddInt64(&current.logical, 1)] and what follows it. *)
Definition getRespTS_add (i p : nat) (s : Server)
    : option (Server * caller * option (option Timestamp)) :=
  match heap s !! p with
  | None => None
  | Some current =>
      let resp := mkTimestamp (Z.quot (Go.UnixNano (physical current)) 1000000)
                              (Int64.add (logical current) 1) in
      let s' := add_logical p s in
      if maxLogical <=? Logical resp
      then Some (s', Running (S i) None, None)  (* sleep 50ms, continue *)
      else Some (s', Idle, Some (Some resp))
  end.

(** *** The server process as a transition system

    [syncTimestamp] and [updateTimestamp] are run one at a time by the
    leader's goroutine; they do not read the logical counters, so each of
    them is one step.  The callers of [getRespTS] run concurrently with it
    and with each other. *)

Record System : Type := mkSystem {
  etcd : Store;
  srv : Server;
  callers : nat -> caller
}.

Inductive event : Type :=
| EvLeaderKey (rev : Z) (mine : bool)
    (* the leader key is (re)created at revision [rev]; [mine]: by this server *)
| EvSync (get_err : bool) (clock : list Z) (commit_err : bool)
| EvTick (now : Z) (commit_err : bool)
| EvCall (g : nat)     (* goroutine [g] enters getRespTS *)
| EvLoad (g : nat)     (* ... evaluates the loop test and loads s.ts *)
| EvAdd (g : nat).     (* ... increments the logical counter *)

Definition set_caller (g : nat) (c : caller) (f : nat -> caller) : nat -> caller :=
  fun h => if Nat.eqb h g then c else f h.

(** What a step hands to a client: the goroutine and the value [getRespTS]
    returned to it ([None] is the [nil] response). *)
Definition output : Type := nat * option Timestamp.

Definition leader_step (r : result unit * Store * Server) (sys : System)
    : option (System * option output) :=
  match r with
  | (Panic, _, _) => None
  | (Waiting, _, _) => Some (sys, None)
  | (_, kv', s') => Some (mkSystem kv' s' (callers sys), None)
  end.

(** [None]: the process panicked. *)
Definition step (e : event) (sys : System) : option (System * option output) :=
  match e with
  | EvLeaderKey rev mine =>
      let s := srv sys in
      Some (mkSystem (mkStore rev (timestamp_value (etcd sys)))
              (if mine then mkServer (LeaderLease s) rev (lastSavedTime s) (heap s) (ts s)
               else s)
              (callers sys), None)
  | EvSync get_err clock commit_err =>
      leader_step (syncTimestamp get_err clock commit_err (etcd sys) (srv sys)) sys
  | EvTick now commit_err =>
      leader_step (updateTimestamp now commit_err (etcd sys) (srv sys)) sys
  | EvCall g =>
      match callers sys g with
      | Idle => Some (mkSystem (etcd sys) (srv sys)
                        (set_caller g (Running 0 None) (callers sys)), None)
      | Running _ _ => Some (sys, None)
      end
  | EvLoad g =>
      match callers sys g with
      | Running i None =>
          let '(c, out) := getRespTS_load i (srv sys) in
          Some (mkSystem (etcd sys) (srv sys) (set_caller g c (callers sys)),
                option_map (fun r => (g, r)) out)
      | _ => Some (sys, None)
      end
  | EvAdd g =>
      match callers sys g with
      | Running i (Some p) =>
          match getRespTS_add i p (srv sys) with
          | None => None
          | Some (s', c, out) =>
              Some (mkSystem (etcd sys) s' (set_caller g c (callers sys)),
                    option_map (fun r => (g, r)) out)
          end
      | _ => Some (sys, None)
      end
  end.

(** Runs a schedule and collects what was returned to clients, in order. *)
Fixpoint run (evs : list event) (sys : System) : option (System * list output) :=
  match evs with
  | [] => Some (sys, [])
  | e :: evs' =>
      match step e sys with
      | None => None
      | Some (sys', out) =>
          match run evs' sys' with
          | None => None
          | Some (sys'', outs) =>
              Some (sys'', match out with Some o => o :: outs | None => outs end)
          end
      end
  end.

(** A freshly started server: nothing synced, nobody inside [getRespTS]. *)
Definition boot (lease : Z) (kv : Store) : System :=
  mkSystem kv (mkServer lease 0 Go.zeroTime [] None) (fun _ => Idle).

(** Wall-clock readings lie after the epoch and within [UnixNano]'s range. *)
Definition clock_ok (now : Z) : Prop := 0 <= now <= Int64.max_int.

Definition event_ok (e : event) : Prop :=
  match e with
  | EvSync _ clock _ => Forall clock_ok clock
  | EvTick now _ => clock_ok now
  | _ => True
  end.

(** The checkpoint as [loadTimestamp] would decode it. *)
Definition checkpoint (kv : Store) : Z :=
  match timestamp_value kv with
  | Some data => Int64.wrap (Go.Uint64 data)
  | None => 0
  end.

Definition ts_lt (a b : Timestamp) : Prop :=
  Physical a < Physical b \/ (Physical a = Physical b /\ Logical a < Logical b).

(** Milliseconds of an instant, as [getRespTS] computes them. *)
Definition ms (t : Z) : Z := Z.quot t 1000000.

(** The configured lease is a non-negative number of seconds whose double,
    in milliseconds, fits an [int64]. *)
Definition lease_ok (lease : Z) : Prop :=
  0 <= lease /\ 2 * lease * 1000 <= Int64.max_int.

(** The bytes [saveTimestamp] writes for [now]. *)
Definition encode (now : Z) : list Z :=
  Go.PutUint64 (Int64.to_uint64 (Go.UnixNano now)).

(** *** Arithmetic of the clock comparisons *)

Ltac range :=
  unfold clock_ok, lease_ok, Int64.in_range, Int64.max_int, Int64.min_int in *.

Lemma UnixNano_clock (t : Z) : clock_ok t -> Go.UnixNano t = t.
Proof. intros H. apply Int64.wrap_id. range. lia. Qed.

Lemma Sub_clock (t u : Z) : clock_ok t -> clock_ok u -> Go.Sub t u = t - u.
Proof. intros Ht Hu. apply Int64.saturate_id. range. lia. Qed.

Lemma checkpoint_encode (kv : Store) (now : Z) :
  clock_ok now -> checkpoint (put_timestamp (encode now) kv) = now.
Proof.
  intros H. unfold checkpoint, put_timestamp, encode. simpl.
  rewrite Go.Uint64_PutUint64, (UnixNano_clock now) by assumption.
  unfold Int64.to_uint64.
  assert (now mod 2 ^ 64 = now) as -> by (apply Z.mod_small; range; lia).
  assert (now mod 2 ^ 64 = now) as -> by (apply Z.mod_small; range; lia).
  apply Int64.wrap_id. range. lia.
Qed.

Lemma loadTimestamp_encode (kv : Store) (now : Z) :
  clock_ok now -> timestamp_value kv = Some (encode now) ->
  loadTimestamp false kv = Ok now.
Proof.
  intros H E. unfold loadTimestamp. rewrite E. unfold encode.
  rewrite Go.length_PutUint64. simpl.
  pose proof (checkpoint_encode kv now H) as C.
  unfold checkpoint, put_timestamp, encode in C. simpl in C. rewrite C.
  reflexivity.
Qed.

Lemma loadTimestamp_checkpoint (get_err : bool) (kv : Store) (last : Z) :
  loadTimestamp get_err kv = Ok last -> last = checkpoint kv.
Proof.
  unfold loadTimestamp, checkpoint. destruct get_err; [discriminate|].
  destruct (timestamp_value kv) as [data|]; [|congruence].
  destruct (Nat.eqb (length data) 8); congruence.
Qed.

Lemma since_clock (now last : Z) :
  clock_ok now -> clock_ok last ->
  Int64.div (Int64.sub (Go.UnixNano now) last) 1000000 = ms (now - last).
Proof.
  intros Hn Hl. rewrite UnixNano_clock by assumption.
  unfold Int64.div, Int64.sub, ms.
  rewrite (Int64.wrap_id (now - last)) by (range; lia).
  apply Int64.wrap_id. range.
  Z.to_euclidean_division_equations. lia.
Qed.

Lemma wait_clock (lease since : Z) :
  lease_ok lease -> 0 < since <= Int64.max_int ->
  Int64.sub (Int64.mul (Int64.mul 2 lease) 1000) since = 2 * lease * 1000 - since.
Proof.
  intros Hl Hs. unfold Int64.sub, Int64.mul.
  rewrite (Int64.wrap_id (2 * lease)) by (range; lia).
  rewrite (Int64.wrap_id (2 * lease * 1000)) by (range; lia).
  apply Int64.wrap_id. range. lia.
Qed.

Lemma lease_ms (lease : Z) : lease_ok lease -> Int64.mul lease 1000 = 1000 * lease.
Proof.
  intros H. unfold Int64.mul. rewrite Int64.wrap_id by (range; lia). lia.
Qed.

(** One iteration of the loop of [syncTimestamp], in plain arithmetic. *)
Lemma sync_loop_unfold (last lease now : Z) (later : list Z) :
  lease_ok lease -> clock_ok last -> clock_ok now ->
  sync_loop last lease (now :: later) =
    if ms (now - last) <=? 0 then Err ErrClockBehind
    else if 0 <? 2 * lease * 1000 - ms (now - last) then sync_loop last lease later
    else Ok now.
Proof.
  intros Hl Hlast Hnow. simpl. rewrite since_clock by assumption.
  destruct (Z.leb_spec (ms (now - last)) 0) as [|Hpos]; [reflexivity|].
  rewrite wait_clock; [reflexivity|assumption|].
  split; [assumption|]. unfold ms. range.
  Z.to_euclidean_division_equations. lia.
Qed.

(** When the loop ends normally, the reading it returns is at least a
    millisecond and at least twice the lease past the loaded checkpoint. *)
Lemma sync_loop_Ok (last lease now : Z) (clock : list Z) :
  lease_ok lease -> clock_ok last -> Forall clock_ok clock ->
  sync_loop last lease clock = Ok now ->
  clock_ok now /\ last + 1000000 <= now /\ last + 2 * lease * 1000 * 1000000 <= now.
Proof.
  intros Hl Hlast Hc. induction Hc as [|t later Ht Hlater IH]; [discriminate|].
  rewrite sync_loop_unfold by assumption.
  destruct (Z.leb_spec (ms (t - last)) 0) as [|Hpos]; [discriminate|].
  destruct (Z.ltb_spec 0 (2 * lease * 1000 - ms (t - last))) as [|Hdone];
    [exact IH|].
  intros E. injection E as <-. split; [assumption|].
  unfold ms in *. Z.to_euclidean_division_equations. lia.
Qed.

(** Readings inside the waiting window are slept through. *)
Lemma sync_loop_wait (last lease : Z) (waiting clock : list Z) :
  lease_ok lease -> clock_ok last ->
  Forall (fun w => clock_ok w /\ last + 1000000 <= w
                   /\ w < last + 2 * lease * 1000 * 1000000) waiting ->
  sync_loop last lease (waiting ++ clock) = sync_loop last lease clock.
Proof.
  intros Hl Hlast Hw. induction Hw as [|w waiting (Hw & Hlo & Hhi) _ IH];
    [reflexivity|].
  rewrite <- app_comm_cons, sync_loop_unfold by assumption.
  destruct (Z.leb_spec (ms (w - last)) 0) as [Hneg|Hpos].
  { unfold ms in Hneg. Z.to_euclidean_division_equations. lia. }
  destruct (Z.ltb_spec 0 (2 * lease * 1000 - ms (w - last))) as [|Hdone];
    [exact IH|].
  unfold ms in *. Z.to_euclidean_division_equations. lia.
Qed.

(** *** What the leader's operations can do to the state *)

Lemma saveTimestamp_cases (commit_err : bool) (now : Z) (kv : Store) (s : Server) :
  saveTimestamp commit_err now kv s
    = (Ok tt, put_timestamp (encode now) kv, set_lastSavedTime now s)
  \/ exists e, saveTimestamp commit_err now kv s = (Err e, kv, s).
Proof.
  unfold saveTimestamp, Etcd.Txn, encode.
  destruct commit_err; [right; eauto|].
  destruct (Etcd.leaderCmp _ _); [left|right]; eauto.
Qed.

Lemma syncTimestamp_cases (get_err : bool) (clock : list Z) (commit_err : bool)
    (kv kv' : Store) (s s' : Server) (r : result unit) :
  syncTimestamp get_err clock commit_err kv s = (r, kv', s') ->
  (kv' = kv /\ s' = s /\ r <> Ok tt)
  \/ exists last now,
       loadTimestamp get_err kv = Ok last
       /\ sync_loop last (LeaderLease s) clock = Ok now
       /\ r = Ok tt
       /\ kv' = put_timestamp (encode now) kv
       /\ s' = store_current now (set_lastSavedTime now s).
Proof.
  unfold syncTimestamp.
  destruct (loadTimestamp get_err kv) as [last|e| |] eqn:El;
    try (intros [= <- <- <-]; left; repeat split; discriminate).
  destruct (sync_loop last (LeaderLease s) clock) as [now|e| |] eqn:Ew;
    try (intros [= <- <- <-]; left; repeat split; discriminate).
  destruct (saveTimestamp_cases commit_err now kv s) as [E|[e E]]; rewrite E.
  - intros [= <- <- <-]. right. exists last, now. repeat split; assumption.
  - intros [= <- <- <-]. left. repeat split; discriminate.
Qed.

Lemma updateTimestamp_cases (now : Z) (commit_err : bool)
    (kv kv' : Store) (s s' : Server) (r : result unit) :
  updateTimestamp now commit_err kv s = (r, kv', s') ->
  r = Panic
  \/ (kv' = kv /\ s' = s)
  \/ exists p prev,
       ts s = Some p /\ heap s !! p = Some prev
       /\ 0 < Z.quot (Go.Sub now (physical prev)) 1000000
       /\ r = Ok tt
       /\ ((kv' = put_timestamp (encode now) kv
            /\ s' = store_current now (set_lastSavedTime now s))
           \/ (Z.quot (Go.Sub now (lastSavedTime s)) 1000000
                 <= Int64.mul (LeaderLease s) 1000
               /\ kv' = kv /\ s' = store_current now s)).
Proof.
  unfold updateTimestamp.
  destruct (ts s) as [p|] eqn:Ets; [|intros [= <- <- <-]; auto].
  destruct (heap s !! p) as [prev|] eqn:Ep; [|intros [= <- <- <-]; auto].
  destruct (Z.leb_spec (Z.quot (Go.Sub now (physical prev)) 1000000) 0)
    as [|Hpos]; [intros [= <- <- <-]; auto|].
  destruct (Z.ltb_spec (Int64.mul (LeaderLease s) 1000)
              (Z.quot (Go.Sub now (lastSavedTime s)) 1000000)) as [Hsave|Hkeep].
  - destruct (saveTimestamp_cases commit_err now kv s) as [E|[e E]]; rewrite E;
      intros [= <- <- <-]; [|auto].
    right; right. exists p, prev. auto 10.
  - intros [= <- <- <-]. right; right. exists p, prev. auto 10.
Qed.

(** *** Objects are allocated in increasing order of their milliseconds *)

Definition sorted_ms (h : list atomicObject) : Prop :=
  forall (i j : nat) (oi oj : atomicObject),
    (i < j)%nat -> h !! i = Some oi -> h !! j = Some oj ->
    ms (physical oi) < ms (physical oj).

Lemma sorted_ms_snoc (h : list atomicObject) (now : Z) :
  sorted_ms h ->
  (forall o, h !! length h = None -> o ∈ h -> ms (physical o) < ms now) ->
  sorted_ms (h ++ [mkObject now 0]).
Proof.
  intros Hs Hnew i j oi oj Hij Hi Hj.
  apply lookup_snoc_Some in Hj as [[Hlt Hj]|[-> <-]].
  - rewrite lookup_app_l in Hi by lia. eapply (Hs i j); eassumption.
  - rewrite lookup_app_l in Hi by lia. simpl.
    apply Hnew; [apply lookup_ge_None_2; lia|].
    eapply list_elem_of_lookup_2; eassumption.
Qed.

Lemma sorted_ms_alter (h : list atomicObject) (p : nat)
    (f : atomicObject -> atomicObject) :
  (forall o, physical (f o) = physical o) -> sorted_ms h -> sorted_ms (alter f p h).
Proof.
  intros Hf Hs i j oi oj Hij Hi Hj.
  assert (exists oi', h !! i = Some oi' /\ physical oi' = physical oi) as (oi' & Hi' & <-).
  { rewrite list_lookup_alter in Hi. destruct (decide (p = i)) as [->|]; [|eauto].
    destruct (h !! i) as [o|]; [|discriminate].
    injection Hi as <-. eauto. }
  assert (exists oj', h !! j = Some oj' /\ physical oj' = physical oj) as (oj' & Hj' & <-).
  { rewrite list_lookup_alter in Hj. destruct (decide (p = j)) as [->|]; [|eauto].
    destruct (h !! j) as [o|]; [|discriminate].
    injection Hj as <-. eauto. }
  eapply (Hs i j); eassumption.
Qed.

Lemma sorted_ms_top (h : list atomicObject) (p : nat) (top o : atomicObject) :
  sorted_ms h -> S p = length h -> h !! p = Some top -> o ∈ h ->
  ms (physical o) <= ms (physical top).
Proof.
  intros Hs Hp Htop Ho. apply list_elem_of_lookup_1 in Ho as [i Hi].
  assert (i < length h)%nat by (eapply lookup_lt_Some; eassumption).
  destruct (decide (i = p)) as [->|Hne].
  - replace o with top by congruence. lia.
  - apply Z.lt_le_incl. eapply (Hs i p); [lia|eassumption..].
Qed.

Lemma checkpoint_of_encode (kv : Store) (t : Z) :
  clock_ok t -> timestamp_value kv = Some (encode t) -> checkpoint kv = t.
Proof.
  intros Ht E. pose proof (checkpoint_encode kv t Ht) as C.
  unfold checkpoint in *. simpl in C. rewrite E. exact C.
Qed.

Lemma set_lastSavedTime_id (s : Server) : set_lastSavedTime (lastSavedTime s) s = s.
Proof. destruct s. reflexivity. Qed.

Lemma ms_lt (a b : Z) : 0 <= a -> a + 1000000 <= b -> ms a < ms b.
Proof. unfold ms. intros. Z.to_euclidean_division_equations. lia. Qed.

Lemma ms_0 : ms 0 = 0.
Proof. reflexivity. Qed.

(** *** The invariant of a server process *)

Section Invariant.

Variables (lease S0 : Z).
Hypothesis Hlease : lease_ok lease.
Hypothesis HS0 : clock_ok S0.

(** Twice the lease past the checkpoint found at boot, in nanoseconds. *)
Definition floor : Z := S0 + 2 * lease * 1000 * 1000000.

(** [n] bounds the number of steps taken so far, hence every counter. *)
Record inv (n : Z) (sys : System) : Prop := mkInv {
  inv_lease : LeaderLease (srv sys) = lease;
  inv_ts :
    match ts (srv sys) with
    | None => heap (srv sys) = [] /\ checkpoint (etcd sys) = S0
    | Some p => S p = length (heap (srv sys))
    end;
  inv_phys :
    Forall (fun o => clock_ok (physical o) /\ floor <= physical o) (heap (srv sys));
  inv_sorted : sorted_ms (heap (srv sys));
  inv_logical : Forall (fun o => 0 <= logical o <= n) (heap (srv sys));
  inv_callers :
    forall g i p, callers sys g = Running i (Some p) ->
                  (p < length (heap (srv sys)))%nat;
  inv_saved :
    forall p top, ts (srv sys) = Some p -> heap (srv sys) !! p = Some top ->
      timestamp_value (etcd sys) = Some (encode (lastSavedTime (srv sys)))
      /\ clock_ok (lastSavedTime (srv sys))
      /\ floor <= lastSavedTime (srv sys)
      /\ (physical top = lastSavedTime (srv sys)
          \/ lastSavedTime (srv sys) + 1000000 <= physical top)
      /\ ms (physical top - lastSavedTime (srv sys)) <= 1000 * lease
}.

Lemma inv_boot (kv : Store) : checkpoint kv = S0 -> inv 0 (boot lease kv).
Proof.
  intros E. constructor; simpl; auto.
  - intros i j oi oj _ Hi. discriminate.
  - discriminate.
  - discriminate.
Qed.

Lemma inv_weaken (n m : Z) (sys : System) : n <= m -> inv n sys -> inv m sys.
Proof.
  intros Hnm [H1 H2 H3 H4 H5 H6 H7]. constructor; auto.
  eapply Forall_impl; [exact H5|]. simpl. intros o Ho. lia.
Qed.

Lemma inv_eta (n : Z) (sys : System) :
  inv n sys -> inv n (mkSystem (etcd sys) (srv sys) (callers sys)).
Proof. destruct sys. auto. Qed.

(** The top object exists whenever [ts] is set. *)
Lemma inv_top (n : Z) (sys : System) (p : nat) :
  inv n sys -> ts (srv sys) = Some p ->
  exists top, heap (srv sys) !! p = Some top.
Proof.
  intros I E. pose proof (inv_ts _ _ I) as Hts. rewrite E in Hts.
  apply lookup_lt_is_Some_2. lia.
Qed.

(** Storing a new current object, possibly after saving the checkpoint. *)
Lemma inv_push (n : Z) (sys : System) (now saved : Z) (kv' : Store) :
  inv n sys -> 0 <= n -> clock_ok now -> floor <= now ->
  (forall p top, ts (srv sys) = Some p -> heap (srv sys) !! p = Some top ->
                 physical top + 1000000 <= now) ->
  timestamp_value kv' = Some (encode saved) ->
  clock_ok saved -> floor <= saved ->
  (now = saved \/ saved + 1000000 <= now) ->
  ms (now - saved) <= 1000 * lease ->
  inv n (mkSystem kv' (store_current now (set_lastSavedTime saved (srv sys)))
           (callers sys)).
Proof.
  intros I Hn Hnow Hfloor Htop Hkv Hsaved Hfs Hgap Hms.
  destruct I as [I1 I2 I3 I4 I5 I6 I7]. constructor; simpl.
  - assumption.
  - rewrite length_app. simpl. lia.
  - apply Forall_app. split; [assumption|]. apply Forall_singleton. auto.
  - apply sorted_ms_snoc; [assumption|]. intros o _ Ho.
    destruct (ts (srv sys)) as [p|] eqn:Ets.
    + assert (exists top, heap (srv sys) !! p = Some top) as [top Et]
        by (apply lookup_lt_is_Some_2; lia).
      pose proof (sorted_ms_top _ _ _ _ I4 I2 Et Ho) as Hle.
      assert (clock_ok (physical top)) as Hc.
      { apply list_elem_of_lookup_2 in Et.
        rewrite Forall_forall in I3. apply I3 in Et. tauto. }
      pose proof (ms_lt (physical top) now) as Hlt.
      specialize (Htop p top eq_refl Et). range. lia.
    + destruct I2 as [E _]. rewrite E in Ho. inversion Ho.
  - apply Forall_app. split; [assumption|]. apply Forall_singleton. simpl. lia.
  - intros g i p Hg. rewrite length_app. apply I6 in Hg. lia.
  - intros p top [= <-] Et.
    apply lookup_snoc_Some in Et as [[Hlt _]|[_ <-]]; [lia|]. simpl.
    repeat (split; [assumption|]). assumption.
Qed.

Ltac push_side :=
  first [ assumption | reflexivity | left; reflexivity
        | unfold floor in *; lia
        | rewrite Z.sub_diag, ms_0; range; lia ].

Lemma inv_sync (n : Z) (sys : System) (get_err commit_err : bool)
    (clock : list Z) (r : result unit) (kv' : Store) (s' : Server) :
  inv n sys -> 0 <= n -> Forall clock_ok clock ->
  syncTimestamp get_err clock commit_err (etcd sys) (srv sys) = (r, kv', s') ->
  inv n (mkSystem kv' s' (callers sys)).
Proof.
  intros I Hn Hc E.
  apply syncTimestamp_cases in E as [(-> & -> & _)|(last & now & El & Ew & _ & -> & ->)];
    [apply inv_eta; assumption|].
  apply loadTimestamp_checkpoint in El. rewrite (inv_lease _ _ I) in Ew.
  destruct (ts (srv sys)) as [p|] eqn:Ets.
  - destruct (inv_top _ _ _ I Ets) as [top Et].
    destruct (inv_saved _ _ I p top Ets Et) as (Hkv & Hcs & Hfs & Hgap & Hms).
    rewrite (checkpoint_of_encode _ _ Hcs Hkv) in El. subst last.
    apply sync_loop_Ok in Ew as (Hnow & H1 & H2); try assumption.
    apply inv_push; try push_side.
    intros p' top' Ep' Et'. rewrite Ets in Ep'. injection Ep' as <-.
    rewrite Et in Et'. injection Et' as <-.
    unfold ms in Hms. range. Z.to_euclidean_division_equations. lia.
  - pose proof (inv_ts _ _ I) as Hts. rewrite Ets in Hts. destruct Hts as [_ ES0].
    rewrite ES0 in El. subst last.
    apply sync_loop_Ok in Ew as (Hnow & H1 & H2); try assumption.
    apply inv_push; try push_side.
    intros p' top' Ep'. rewrite Ets in Ep'. discriminate.
Qed.

Lemma inv_tick (n : Z) (sys : System) (now : Z) (commit_err : bool)
    (r : result unit) (kv' : Store) (s' : Server) :
  inv n sys -> 0 <= n -> clock_ok now ->
  updateTimestamp now commit_err (etcd sys) (srv sys) = (r, kv', s') ->
  r <> Panic ->
  inv n (mkSystem kv' s' (callers sys)).
Proof.
  intros I Hn Hnow E Hr.
  apply updateTimestamp_cases in E
    as [->|[(-> & ->)|(p & prev & Ets & Ep & Hsince & _ & Hcase)]];
    [congruence|apply inv_eta; assumption|].
  destruct (inv_saved _ _ I p prev Ets Ep) as (Hkv & Hcs & Hfs & Hgap & Hms).
  assert (clock_ok (physical prev) /\ floor <= physical prev) as [Hcp Hfp].
  { apply list_elem_of_lookup_2 in Ep.
    pose proof (inv_phys _ _ I) as HF. rewrite Forall_forall in HF. auto. }
  rewrite Sub_clock in Hsince by assumption.
  assert (physical prev + 1000000 <= now) as Hstep
    by (Z.to_euclidean_division_equations; lia).
  assert (forall p' top', ts (srv sys) = Some p' -> heap (srv sys) !! p' = Some top' ->
                          physical top' + 1000000 <= now) as Htop.
  { intros p' top' Ep' Et'. rewrite Ets in Ep'. injection Ep' as <-.
    rewrite Ep in Et'. injection Et' as <-. assumption. }
  destruct Hcase as [(-> & ->)|(Hkeep & -> & ->)].
  - apply inv_push; try push_side.
  - rewrite <- (set_lastSavedTime_id (srv sys)).
    rewrite Sub_clock in Hkeep by assumption.
    rewrite (inv_lease _ _ I), lease_ms in Hkeep by assumption.
    apply inv_push; push_side.
Qed.

Lemma inv_set_caller (n : Z) (sys : System) (g : nat) (c : caller) :
  inv n sys ->
  (forall i p, c = Running i (Some p) -> (p < length (heap (srv sys)))%nat) ->
  inv n (mkSystem (etcd sys) (srv sys) (set_caller g c (callers sys))).
Proof.
  intros [I1 I2 I3 I4 I5 I6 I7] Hc. constructor; simpl; try assumption.
  intros h i p. unfold set_caller. destruct (Nat.eqb h g); [apply Hc|apply I6].
Qed.

Lemma inv_add (n : Z) (sys : System) (g p : nat) (c : caller) :
  inv n sys -> 0 <= n -> n + 1 <= Int64.max_int ->
  (forall i q, c <> Running i (Some q)) ->
  inv (n + 1)
    (mkSystem (etcd sys) (add_logical p (srv sys)) (set_caller g c (callers sys))).
Proof.
  intros [I1 I2 I3 I4 I5 I6 I7] Hn Hmax Hc. constructor; simpl.
  - assumption.
  - destruct (ts (srv sys)); [rewrite length_alter; exact I2|].
    destruct I2 as [E ?]. rewrite E. auto.
  - apply Forall_alter; [assumption|]. simpl. auto.
  - apply sorted_ms_alter; [reflexivity|assumption].
  - apply Forall_alter.
    + eapply Forall_impl; [exact I5|]. simpl. intros o Ho. lia.
    + simpl. intros o Eo _. apply list_elem_of_lookup_2 in Eo.
      rewrite Forall_forall in I5. apply I5 in Eo.
      unfold Int64.add. rewrite Int64.wrap_id; range; lia.
  - intros h i q. unfold set_caller. rewrite length_alter.
    destruct (Nat.eqb h g); [intros E; apply Hc in E; contradiction|apply I6].
  - intros q top Eq Et. rewrite list_lookup_alter in Et.
    destruct (decide (p = q)) as [->|_]; [|eauto].
    destruct (heap (srv sys) !! q) as [o|] eqn:Eo; [|discriminate].
    injection Et as <-. simpl. eauto.
Qed.

(** Every step of a well-formed schedule preserves the invariant. *)
Lemma step_inv (n : Z) (e : event) (sys sys' : System) (out : option output) :
  inv n sys -> 0 <= n -> n + 1 <= Int64.max_int -> event_ok e ->
  step e sys = Some (sys', out) -> inv (n + 1) sys'.
Proof.
  intros I Hn Hmax He Hstep. destruct e as [rev mine|ge clock ce|now ce|g|g|g];
    simpl in Hstep.
  - injection Hstep as <- <-. apply (inv_weaken n); [lia|].
    destruct I as [I1 I2 I3 I4 I5 I6 I7].
    constructor; simpl; destruct mine; simpl; assumption.
  - destruct (syncTimestamp ge clock ce (etcd sys) (srv sys)) as [[r kv'] s'] eqn:E.
    apply (inv_weaken n); [lia|].
    pose proof (inv_sync n sys _ _ _ _ _ _ I Hn He E) as I'.
    unfold leader_step in Hstep.
    destruct r; try discriminate; injection Hstep as <- <-; assumption.
  - destruct (updateTimestamp now ce (etcd sys) (srv sys)) as [[r kv'] s'] eqn:E.
    apply (inv_weaken n); [lia|].
    unfold leader_step in Hstep.
    destruct r; try discriminate; injection Hstep as <- <-;
      first [exact I | apply (inv_tick n sys _ _ _ _ _ I Hn He E); discriminate].
  - apply (inv_weaken n); [lia|].
    destruct (callers sys g); injection Hstep as <- <-; [|assumption].
    apply inv_set_caller; [assumption|discriminate].
  - apply (inv_weaken n); [lia|].
    destruct (callers sys g) as [|i [p|]]; try (injection Hstep as <- <-; assumption).
    destruct (getRespTS_load i (srv sys)) as [c o] eqn:El.
    injection Hstep as <- <-. apply inv_set_caller; [assumption|].
    intros j q ->. unfold getRespTS_load in El.
    destruct (Nat.ltb i maxRetryNum); [|discriminate].
    destruct (ts (srv sys)) as [p|] eqn:Ets; [|discriminate].
    injection El as <- <- _. pose proof (inv_ts _ _ I) as Hts.
    rewrite Ets in Hts. lia.
  - destruct (callers sys g) as [|i [p|]];
      try (injection Hstep as <- <-; apply (inv_weaken n); [lia|assumption]).
    destruct (getRespTS_add i p (srv sys)) as [[[s' c] o]|] eqn:Ea; [|discriminate].
    injection Hstep as <- <-. unfold getRespTS_add in Ea.
    destruct (heap (srv sys) !! p) as [current|]; [|discriminate].
    destruct (maxLogical <=? _); injection Ea as <- <- <-;
      apply inv_add; try assumption; discriminate.
Qed.

Lemma run_inv (evs : list event) (n : Z) (sys sys' : System) (out : list output) :
  inv n sys -> 0 <= n -> n + Z.of_nat (length evs) <= Int64.max_int ->
  Forall event_ok evs -> run evs sys = Some (sys', out) ->
  inv (n + Z.of_nat (length evs)) sys'.
Proof.
  revert n sys out. induction evs as [|e evs IH]; intros n sys out I Hn Hmax Hok Hrun.
  - simpl in *. injection Hrun as <- <-. rewrite Z.add_0_r. assumption.
  - simpl in Hrun. inversion Hok as [|? ? He Hevs]; subst.
    destruct (step e sys) as [[sys1 o1]|] eqn:Es; [|discriminate].
    destruct (run evs sys1) as [[sys2 outs]|] eqn:Er; [|discriminate].
    injection Hrun as <- <-.
    change (length (e :: evs)) with (S (length evs)) in *.
    replace (n + Z.of_nat (S (length evs))) with (n + 1 + Z.of_nat (length evs)) by lia.
    apply (IH (n + 1) sys1 outs); try assumption; try lia.
    eapply step_inv; try eassumption. lia.
Qed.

(** *** Objects only grow: a pointer keeps its physical time, and its
    counter never decreases *)

Definition heap_le (h h' : list atomicObject) : Prop :=
  forall p o, h !! p = Some o ->
    exists o', h' !! p = Some o' /\ physical o' = physical o /\ logical o <= logical o'.

Lemma heap_le_refl (h : list atomicObject) : heap_le h h.
Proof. intros p o E. exists o. split; [assumption|]. lia. Qed.

Lemma heap_le_trans (h1 h2 h3 : list atomicObject) :
  heap_le h1 h2 -> heap_le h2 h3 -> heap_le h1 h3.
Proof.
  intros H12 H23 p o E. destruct (H12 p o E) as (o2 & E2 & P2 & L2).
  destruct (H23 p o2 E2) as (o3 & E3 & P3 & L3).
  exists o3. split; [assumption|]. lia.
Qed.

Lemma heap_le_snoc (h : list atomicObject) (x : atomicObject) : heap_le h (h ++ [x]).
Proof.
  intros p o E. exists o. split; [|lia].
  rewrite lookup_app_l; [assumption|]. eapply lookup_lt_Some; eassumption.
Qed.

(** A step that hands a timestamp to a client is the increment of the
    caller's loaded object. *)
Lemma step_issued (e : event) (sys sys' : System) (g : nat) (T : Timestamp) :
  step e sys = Some (sys', Some (g, Some T)) ->
  exists i p current,
    callers sys g = Running i (Some p)
    /\ heap (srv sys) !! p = Some current
    /\ T = mkTimestamp (Z.quot (Go.UnixNano (physical current)) 1000000)
                       (Int64.add (logical current) 1)
    /\ Logical T < maxLogical
    /\ srv sys' = add_logical p (srv sys).
Proof.
  destruct e as [rev mine|ge clock ce|now ce|h|h|h]; simpl.
  - discriminate.
  - unfold leader_step. destruct (syncTimestamp _ _ _ _ _) as [[[]]]; discriminate.
  - unfold leader_step. destruct (updateTimestamp _ _ _ _) as [[[]]]; discriminate.
  - destruct (callers sys h); discriminate.
  - destruct (callers sys h) as [|i [p|]]; try discriminate.
    unfold getRespTS_load. destruct (Nat.ltb i maxRetryNum); [|discriminate].
    destruct (ts (srv sys)); discriminate.
  - destruct (callers sys h) as [|i [p|]] eqn:Eh; try discriminate.
    unfold getRespTS_add.
    destruct (heap (srv sys) !! p) as [current|] eqn:Ep; [|discriminate].
    destruct (Z.leb_spec maxLogical
                (Logical (mkTimestamp (Z.quot (Go.UnixNano (physical current)) 1000000)
                                      (Int64.add (logical current) 1)))) as [|Hlt];
      [discriminate|].
    simpl. intros [= <- <- <-]. exists i, p, current. auto.
Qed.

Lemma step_heap_le (n : Z) (e : event) (sys sys' : System) (out : option output) :
  inv n sys -> n + 1 <= Int64.max_int ->
  step e sys = Some (sys', out) ->
  heap_le (heap (srv sys)) (heap (srv sys')).
Proof.
  intros I Hmax. destruct e as [rev mine|ge clock ce|now ce|g|g|g]; simpl.
  - intros [= <- <-]. simpl. destruct mine; apply heap_le_refl.
  - destruct (syncTimestamp ge clock ce (etcd sys) (srv sys)) as [[r kv'] s'] eqn:E.
    apply syncTimestamp_cases in E as [(-> & -> & _)|(last & now & _ & _ & -> & -> & ->)];
      unfold leader_step.
    + destruct r; intros [= <- <-]; apply heap_le_refl.
    + intros [= <- <-]. apply heap_le_snoc.
  - destruct (updateTimestamp now ce (etcd sys) (srv sys)) as [[r kv'] s'] eqn:E.
    apply updateTimestamp_cases in E
      as [->|[(-> & ->)|(p & prev & _ & _ & _ & -> & [(-> & ->)|(_ & -> & ->)])]];
      unfold leader_step.
    + discriminate.
    + destruct r; intros [= <- <-]; apply heap_le_refl.
    + intros [= <- <-]. apply heap_le_snoc.
    + intros [= <- <-]. apply heap_le_snoc.
  - destruct (callers sys g); intros [= <- <-]; apply heap_le_refl.
  - destruct (callers sys g) as [|i [p|]]; try (intros [= <- <-]; apply heap_le_refl).
    destruct (getRespTS_load i (srv sys)). intros [= <- <-]. apply heap_le_refl.
  - destruct (callers sys g) as [|i [p|]]; try (intros [= <- <-]; apply heap_le_refl).
    unfold getRespTS_add.
    destruct (heap (srv sys) !! p) as [current|]; [|discriminate].
    assert (heap_le (heap (srv sys)) (heap (add_logical p (srv sys)))) as Hle.
    { intros q o Eo. simpl. rewrite list_lookup_alter.
      destruct (decide (p = q)) as [->|_].
      - rewrite Eo. simpl. eexists. split; [reflexivity|]. simpl. split; [reflexivity|].
        apply list_elem_of_lookup_2 in Eo.
        pose proof (inv_logical _ _ I) as HF. rewrite Forall_forall in HF.
        apply HF in Eo. unfold Int64.add. rewrite Int64.wrap_id; range; lia.
      - exists o. split; [assumption|]. lia. }
    destruct (maxLogical <=? _); intros [= <- <-]; exact Hle.
Qed.

Lemma run_heap_le (evs : list event) (n : Z) (sys sys' : System) (out : list output) :
  inv n sys -> 0 <= n -> n + Z.of_nat (length evs) <= Int64.max_int ->
  Forall event_ok evs -> run evs sys = Some (sys', out) ->
  heap_le (heap (srv sys)) (heap (srv sys')).
Proof.
  revert n sys out. induction evs as [|e evs IH]; intros n sys out I Hn Hmax Hok Hrun.
  - simpl in *. injection Hrun as <- <-. apply heap_le_refl.
  - simpl in Hrun. inversion Hok as [|? ? He Hevs]; subst.
    destruct (step e sys) as [[sys1 o1]|] eqn:Es; [|discriminate].
    destruct (run evs sys1) as [[sys2 outs]|] eqn:Er; [|discriminate].
    injection Hrun as <- <-.
    change (length (e :: evs)) with (S (length evs)) in *.
    eapply heap_le_trans.
    + eapply step_heap_le; try eassumption. lia.
    + apply (IH (n + 1) sys1 outs); try assumption; try lia.
      eapply step_inv; try eassumption. lia.
Qed.

(** *** Issued timestamps are backed by an object of the heap *)

Definition backed (h : list atomicObject) (T : Timestamp) : Prop :=
  exists p o, h !! p = Some o /\ Physical T = ms (physical o) /\ Logical T <= logical o.

Lemma backed_le (h h' : list atomicObject) (T : Timestamp) :
  heap_le h h' -> backed h T -> backed h' T.
Proof.
  intros Hle (p & o & E & HP & HL). destruct (Hle p o E) as (o' & E' & P' & L').
  exists p, o'. split; [assumption|]. rewrite P'. split; [assumption|lia].
Qed.

Lemma step_backed (n : Z) (e : event) (sys sys' : System) (g : nat) (T : Timestamp) :
  inv n sys -> step e sys = Some (sys', Some (g, Some T)) ->
  backed (heap (srv sys')) T.
Proof.
  intros I Hstep.
  apply step_issued in Hstep as (i & p & current & Eg & Ep & -> & _ & ->).
  exists p, (mkObject (physical current) (Int64.add (logical current) 1)).
  simpl. rewrite list_lookup_alter_eq, Ep. simpl. split; [reflexivity|].
  split; [|lia]. unfold ms. rewrite UnixNano_clock; [reflexivity|].
  apply list_elem_of_lookup_2 in Ep.
  pose proof (inv_phys _ _ I) as HF. rewrite Forall_forall in HF.
  apply HF in Ep. tauto.
Qed.

Lemma run_backed (evs : list event) (n : Z) (sys sys' : System)
    (out : list output) (g : nat) (T : Timestamp) :
  inv n sys -> 0 <= n -> n + Z.of_nat (length evs) <= Int64.max_int ->
  Forall event_ok evs -> run evs sys = Some (sys', out) ->
  In (g, Some T) out -> backed (heap (srv sys')) T.
Proof.
  revert n sys out.
  induction evs as [|e evs IH]; intros n sys out I Hn Hmax Hok Hrun Hin.
  - simpl in Hrun. injection Hrun as <- <-. destruct Hin.
  - simpl in Hrun. inversion Hok as [|? ? He Hevs]; subst.
    destruct (step e sys) as [[sys1 o1]|] eqn:Es; [|discriminate].
    destruct (run evs sys1) as [[sys2 outs]|] eqn:Er; [|discriminate].
    injection Hrun as <- <-.
    change (length (e :: evs)) with (S (length evs)) in *.
    assert (inv (n + 1) sys1) as I1 by (eapply step_inv; try eassumption; lia).
    assert (In (g, Some T) outs -> backed (heap (srv sys2)) T) as Hrest.
    { apply (IH (n + 1) sys1 outs); try assumption; lia. }
    destruct o1 as [o|]; [|auto]. destruct Hin as [->|Hin]; [|auto].
    eapply backed_le.
    + apply (run_heap_le evs (n + 1) sys1 sys2 outs); try assumption; lia.
    + exact (step_backed n e sys sys1 g T I Es).
Qed.

(** A pointer held after a step was held before it or is the current one. *)
Lemma step_pointer (n : Z) (e : event) (sys sys' : System) (out : option output)
    (b i q : nat) :
  inv n sys -> step e sys = Some (sys', out) ->
  callers sys' b = Running i (Some q) ->
  callers sys b = Running i (Some q) \/ S q = length (heap (srv sys)).
Proof.
  intros I. destruct e as [rev mine|ge clock ce|now ce|g|g|g]; simpl.
  - intros [= <- <-]. auto.
  - unfold leader_step. destruct (syncTimestamp _ _ _ _ _) as [[[]]];
      try discriminate; intros [= <- <-]; auto.
  - unfold leader_step. destruct (updateTimestamp _ _ _ _) as [[[]]];
      try discriminate; intros [= <- <-]; auto.
  - destruct (callers sys g); intros [= <- <-]; [|auto].
    simpl. unfold set_caller. destruct (Nat.eqb b g); [discriminate|auto].
  - destruct (callers sys g) as [|j [p|]]; try (intros [= <- <-]; auto).
    unfold getRespTS_load. pose proof (inv_ts _ _ I) as Hts.
    destruct (Nat.ltb j maxRetryNum); destruct (ts (srv sys)) as [p|];
      intros [= <- <-]; simpl; unfold set_caller;
      destruct (Nat.eqb b g); auto; try discriminate.
    intros [= <- <-]. auto.
  - destruct (callers sys g) as [|j [p|]]; try (intros [= <- <-]; auto).
    unfold getRespTS_add.
    destruct (heap (srv sys) !! p) as [current|]; [|discriminate].
    destruct (maxLogical <=? _); intros [= <- <-]; simpl; unfold set_caller;
      destruct (Nat.eqb b g); auto; discriminate.
Qed.

(** Whatever caller [b] obtains from an object loaded after [T1] was backed
    by the heap is greater than [T1]. *)
Lemma later_greater (b p : nat) (T1 T2 : Timestamp) (evs : list event) :
  forall (n : Z) (sys sys' : System) (out : list output),
    inv n sys -> 0 <= n -> n + Z.of_nat (length evs) <= Int64.max_int ->
    Forall event_ok evs ->
    (exists o, heap (srv sys) !! p = Some o
               /\ Physical T1 = ms (physical o) /\ Logical T1 <= logical o) ->
    (forall i q, callers sys b = Running i (Some q) -> (p <= q)%nat) ->
    run evs sys = Some (sys', out) -> In (b, Some T2) out -> ts_lt T1 T2.
Proof.
  induction evs as [|e evs IH]; intros n sys sys' out I Hn Hmax Hok Hback Hptr Hrun Hin.
  - simpl in Hrun. injection Hrun as <- <-. destruct Hin.
  - simpl in Hrun. inversion Hok as [|? ? He Hevs]; subst.
    destruct (step e sys) as [[sys1 o1]|] eqn:Es; [|discriminate].
    destruct (run evs sys1) as [[sys2 outs]|] eqn:Er; [|discriminate].
    injection Hrun as <- <-.
    change (length (e :: evs)) with (S (length evs)) in *.
    destruct Hback as (o & Eo & HP & HL).
    assert (In (b, Some T2) outs -> ts_lt T1 T2) as Hrest.
    { apply (IH (n + 1) sys1 sys2 outs); try assumption; try lia.
      - eapply step_inv; try eassumption. lia.
      - assert (heap_le (heap (srv sys)) (heap (srv sys1))) as Hle
          by (eapply step_heap_le; try eassumption; lia).
        destruct (Hle p o Eo) as (o' & E' & P' & L').
        exists o'. rewrite P'. split; [assumption|]. split; [assumption|lia].
      - intros i q Hq.
        destruct (step_pointer n e sys sys1 o1 b i q I Es Hq) as [Hold|Hnew];
          [eauto|].
        apply lookup_lt_Some in Eo. lia. }
    destruct o1 as [x|]; [|auto]. destruct Hin as [->|Hin]; [|auto].
    apply step_issued in Es as (i & q & current & Eb & Eq & -> & _ & _).
    specialize (Hptr i q Eb).
    assert (clock_ok (physical current) /\ 0 <= logical current <= n) as [Hc Hl].
    { apply list_elem_of_lookup_2 in Eq.
      pose proof (inv_phys _ _ I) as HF. rewrite Forall_forall in HF.
      pose proof (inv_logical _ _ I) as HG. rewrite Forall_forall in HG.
      split; [apply HF in Eq; tauto|apply HG in Eq; assumption]. }
    unfold ts_lt. simpl. rewrite UnixNano_clock by assumption. fold (ms (physical current)).
    unfold Int64.add. rewrite Int64.wrap_id by (range; lia).
    destruct (decide (p = q)) as [->|Hne].
    + right. replace current with o by congruence. lia.
    + left. rewrite HP. apply (inv_sorted _ _ I p q); [lia|assumption..].
Qed.

End Invariant.

(** *** Theorems about the timestamp oracle *)

(** A run of the server in which a timestamp is handed out whose physical
    time lies after the persisted checkpoint: the leader syncs at 6000 ms,
    ticks at 6010 ms without saving (the lease of 3 s has not elapsed since
    the last save) and then serves a request. *)
Definition unsaved_tick_run : list event :=
  [EvLeaderKey 1 true; EvSync false [6000000000] false;
   EvTick 6010000000 false; EvCall 0; EvLoad 0; EvAdd 0].

(** C1, as stated, fails: after [unsaved_tick_run] the process has issued
    physical 6010 (ms) while the checkpoint at <root>/timestamp still holds
    6000000000 ns, that is 6000 ms. *)
Lemma issued_physical_exceeds_checkpoint :
  option_map (fun r => (snd r, checkpoint (etcd (fst r))))
    (run unsaved_tick_run (boot 3 (mkStore 0 None)))
  = Some ([(0%nat, Some (mkTimestamp 6010 1))], 6000000000)
  /\ ms 6000000000 < 6010
  /\ 6000000000 < 6010 * 1000000.
Proof. split; [vm_compute; reflexivity|]. split; [vm_compute; reflexivity|lia]. Qed.

(** C1, amended: every timestamp issued by [getRespTS] has a physical time
    that is less than the checkpoint persisted at <root>/timestamp plus the
    leader lease plus one millisecond; [updateTimestamp] lets the in-memory
    physical run ahead of the checkpoint by up to [LeaderLease] seconds
    before it saves again. *)
Theorem issued_physical_within_lease_of_checkpoint
    (lease : Z) (kv : Store) (evs : list event) (sys : System)
    (out : list output) (g : nat) (T : Timestamp) :
  lease_ok lease -> clock_ok (checkpoint kv) ->
  Forall event_ok evs -> Z.of_nat (length evs) <= Int64.max_int ->
  run evs (boot lease kv) = Some (sys, out) ->
  In (g, Some T) out ->
  Physical T * 1000000 < checkpoint (etcd sys) + (lease * 1000 + 1) * 1000000
  /\ Physical T <= ms (checkpoint (etcd sys)) + lease * 1000 + 1.
Proof.
  intros Hlease HS0 Hok Hlen Hrun Hin.
  pose proof (inv_boot lease _ kv eq_refl) as I0.
  pose proof (run_inv lease _ Hlease HS0 evs 0 _ _ _ I0 (Z.le_refl 0) Hlen Hok Hrun) as I.
  pose proof (run_backed lease _ Hlease HS0 evs 0 _ _ _ g T I0 (Z.le_refl 0) Hlen Hok Hrun Hin)
    as (p & o & Eo & HP & _).
  simpl in I.
  destruct (ts (srv sys)) as [q|] eqn:Ets.
  - destruct (inv_top _ _ _ _ _ I Ets) as [top Et].
    destruct (inv_saved _ _ _ _ I q top Ets Et) as (Hkv & Hcs & _ & Hgap & Hms).
    rewrite (checkpoint_of_encode _ _ Hcs Hkv).
    pose proof (inv_ts _ _ _ _ I) as Hts. rewrite Ets in Hts.
    pose proof (sorted_ms_top _ _ _ o (inv_sorted _ _ _ _ I) Hts Et
                  (list_elem_of_lookup_2 _ _ _ Eo)) as Hle.
    assert (clock_ok (physical top)) as Hct.
    { pose proof (inv_phys _ _ _ _ I) as HF. rewrite Forall_forall in HF.
      apply (HF top). eapply list_elem_of_lookup_2; eassumption. }
    rewrite HP. unfold ms in *. range.
    Z.to_euclidean_division_equations. lia.
  - pose proof (inv_ts _ _ _ _ I) as Hts. rewrite Ets in Hts.
    destruct Hts as [E _]. rewrite E in Eo. discriminate.
Qed.

Lemma issued_physical_within_lease_of_checkpoint_witness :
  6010 * 1000000 < 6000000000 + (3 * 1000 + 1) * 1000000
  /\ 6010 <= ms 6000000000 + 3 * 1000 + 1.
Proof.
  apply (issued_physical_within_lease_of_checkpoint 3 (mkStore 0 None)
           unsaved_tick_run
           (mkSystem (mkStore 1 (Some (encode 6000000000)))
              (mkServer 3 1 6000000000
                 [mkObject 6000000000 0; mkObject 6010000000 1] (Some 1%nat))
              (set_caller 0 Idle (set_caller 0 (Running 0 (Some 1%nat))
                 (set_caller 0 (Running 0 None) (fun _ => Idle)))))
           [(0%nat, Some (mkTimestamp 6010 1))] 0%nat (mkTimestamp 6010 1)).
  - unfold lease_ok, Int64.max_int. lia.
  - unfold clock_ok, checkpoint, Int64.max_int. cbn [timestamp_value]. lia.
  - repeat constructor; unfold clock_ok, Int64.max_int; lia.
  - unfold Int64.max_int, unsaved_tick_run. cbn [length]. lia.
  - vm_compute. reflexivity.
  - left. reflexivity.
Defined.

(** C2: within one server process, a timestamp returned by [getRespTS]
    is smaller, in the lexicographic order on (physical, logical), than any
    timestamp whose generation starts afterwards.  [T1] is returned to
    caller [a] during [evs1]; when [evs1] ends caller [b] has not yet
    loaded the object from which it obtains [T2] during [evs2].  The bound
    on the schedule's length keeps the 64-bit counters from wrapping. *)
Theorem getRespTS_strictly_increasing
    (lease : Z) (kv : Store) (evs1 evs2 : list event) (sys1 sys2 : System)
    (out1 out2 : list output) (a b : nat) (T1 T2 : Timestamp) :
  lease_ok lease -> clock_ok (checkpoint kv) ->
  Forall event_ok (evs1 ++ evs2) ->
  Z.of_nat (length (evs1 ++ evs2)) <= Int64.max_int ->
  run evs1 (boot lease kv) = Some (sys1, out1) ->
  In (a, Some T1) out1 ->
  (forall i q, callers sys1 b <> Running i (Some q)) ->
  run evs2 sys1 = Some (sys2, out2) ->
  In (b, Some T2) out2 ->
  ts_lt T1 T2.
Proof.
  intros Hlease HS0 Hok Hlen Hrun1 Hin1 Hb Hrun2 Hin2.
  apply Forall_app in Hok as [Hok1 Hok2].
  rewrite length_app, Nat2Z.inj_add in Hlen.
  pose proof (inv_boot lease _ kv eq_refl) as I0.
  assert (Z.of_nat (length evs1) <= Int64.max_int) as Hlen1 by lia.
  pose proof (run_inv lease _ Hlease HS0 evs1 0 _ _ _ I0 (Z.le_refl 0) Hlen1 Hok1 Hrun1)
    as I1.
  pose proof (run_backed lease _ Hlease HS0 evs1 0 _ _ _ a T1 I0 (Z.le_refl 0)
                Hlen1 Hok1 Hrun1 Hin1) as (p & o & Eo & HP & HL).
  simpl in I1.
  apply (later_greater lease _ Hlease HS0 b p T1 T2 evs2
           (Z.of_nat (length evs1)) sys1 sys2 out2); try assumption.
  - lia.
  - eauto.
  - intros i q Hq. destruct (Hb i q Hq).
Qed.

(** The lease is 3 s: the leader syncs at 6000 ms, caller 0 is served, the
    leader ticks at 6010 ms and caller 1 is served. *)
Lemma getRespTS_strictly_increasing_witness :
  ts_lt (mkTimestamp 6000 1) (mkTimestamp 6010 1).
Proof.
  apply (getRespTS_strictly_increasing 3 (mkStore 0 None)
           [EvLeaderKey 1 true; EvSync false [6000000000] false;
            EvCall 0; EvLoad 0; EvAdd 0]
           [EvTick 6010000000 false; EvCall 1; EvLoad 1; EvAdd 1]
           (mkSystem (mkStore 1 (Some (encode 6000000000)))
              (mkServer 3 1 6000000000 [mkObject 6000000000 1] (Some 0%nat))
              (set_caller 0 Idle (set_caller 0 (Running 0 (Some 0%nat))
                 (set_caller 0 (Running 0 None) (fun _ => Idle)))))
           (mkSystem (mkStore 1 (Some (encode 6000000000)))
              (mkServer 3 1 6000000000
                 [mkObject 6000000000 1; mkObject 6010000000 1] (Some 1%nat))
              (set_caller 1 Idle (set_caller 1 (Running 0 (Some 1%nat))
                 (set_caller 1 (Running 0 None)
                    (set_caller 0 Idle (set_caller 0 (Running 0 (Some 0%nat))
                       (set_caller 0 (Running 0 None) (fun _ => Idle))))))))
           [(0%nat, Some (mkTimestamp 6000 1))]
           [(1%nat, Some (mkTimestamp 6010 1))] 0%nat 1%nat).
  - unfold lease_ok, Int64.max_int. lia.
  - unfold clock_ok, checkpoint, Int64.max_int. cbn [timestamp_value]. lia.
  - repeat constructor; unfold clock_ok, Int64.max_int; lia.
  - unfold Int64.max_int. cbn [length app]. lia.
  - vm_compute. reflexivity.
  - left. reflexivity.
  - intros i q. vm_compute. discriminate.
  - vm_compute. reflexivity.
  - left. reflexivity.
Defined.

(** C3, as stated, fails: with the checkpoint at 5 s and a lease of 3 s,
    a first clock reading of 4 s makes [syncTimestamp] return an error at
    once; it does not wait for the later reading of 20 s, and neither the
    store nor the server changes. *)
Lemma syncTimestamp_fails_when_clock_behind :
  syncTimestamp false [4000000000; 20000000000] false
    (mkStore 1 (Some (encode 5000000000))) (mkServer 3 1 Go.zeroTime [] None)
  = (Err ErrClockBehind,
     mkStore 1 (Some (encode 5000000000)), mkServer 3 1 Go.zeroTime [] None).
Proof. vm_compute. reflexivity. Qed.

(** C3, amended: at leader start [syncTimestamp] loads the saved checkpoint
    [S] (0 if the key is absent) and reads the clock.  A reading less than
    one millisecond past [S], in particular one with [now <= S], makes it
    fail with an error and change nothing.  Readings at least a millisecond
    but less than twice the lease past [S] are slept through.  A reading
    that is at least a millisecond and at least twice the lease past [S] is
    persisted as the new checkpoint by a write conditional on the leader
    comparison, and on success seeds the in-memory pair (physical = now,
    logical = 0); when the write fails nothing changes.  Consequently a
    server started on checkpoint [S] never issues a physical below
    [S] + 2 * LeaderLease * 1000 milliseconds. *)
Theorem syncTimestamp_leader_start
    (lease S : Z) (kv : Store) (s : Server) (waiting later : list Z) (now : Z)
    (commit_err : bool) :
  lease_ok lease -> LeaderLease s = lease ->
  loadTimestamp false kv = Ok S -> clock_ok S ->
  Forall (fun w => clock_ok w /\ S + 1000000 <= w
                   /\ w < S + 2 * lease * 1000 * 1000000) waiting ->
  clock_ok now ->
  (S = checkpoint kv /\ (timestamp_value kv = None -> S = 0))
  /\ (now < S + 1000000 ->
      syncTimestamp false (waiting ++ now :: later) commit_err kv s
      = (Err ErrClockBehind, kv, s))
  /\ (S + 1000000 <= now -> S + 2 * lease * 1000 * 1000000 <= now ->
      syncTimestamp false (waiting ++ now :: later) commit_err kv s
      = if commit_err then (Err ErrCommit, kv, s)
        else if Etcd.leaderCmp (leader_create_revision kv) (leaderRevision s)
        then (Ok tt, put_timestamp (encode now) kv,
              store_current now (set_lastSavedTime now s))
        else (Err ErrSaveFailed, kv, s))
  /\ (forall evs sys out g T,
        Forall event_ok evs -> Z.of_nat (length evs) <= Int64.max_int ->
        run evs (boot lease kv) = Some (sys, out) -> In (g, Some T) out ->
        ms S + 2 * lease * 1000 <= Physical T).
Proof.
  intros Hlease El Hload HS Hwait Hnow.
  pose proof (loadTimestamp_checkpoint _ _ _ Hload) as ES.
  assert (sync_loop S lease (waiting ++ now :: later)
          = if ms (now - S) <=? 0 then Err ErrClockBehind
            else if 0 <? 2 * lease * 1000 - ms (now - S)
                 then sync_loop S lease later else Ok now) as Eloop.
  { rewrite sync_loop_wait, sync_loop_unfold by assumption. reflexivity. }
  split; [|split; [|split]].
  - split; [assumption|]. intros E. rewrite ES. unfold checkpoint. rewrite E.
    reflexivity.
  - intros Hearly. unfold syncTimestamp. rewrite Hload, El, Eloop.
    destruct (Z.leb_spec (ms (now - S)) 0) as [|Hpos]; [reflexivity|].
    unfold ms in Hpos. Z.to_euclidean_division_equations. lia.
  - intros H1 H2. unfold syncTimestamp. rewrite Hload, El, Eloop.
    destruct (Z.leb_spec (ms (now - S)) 0) as [Hneg|Hpos].
    { unfold ms in Hneg. Z.to_euclidean_division_equations. lia. }
    destruct (Z.ltb_spec 0 (2 * lease * 1000 - ms (now - S))) as [Hw|_].
    { unfold ms in Hw. Z.to_euclidean_division_equations. lia. }
    unfold saveTimestamp, Etcd.Txn. fold (encode now).
    destruct commit_err; [reflexivity|].
    destruct (Etcd.leaderCmp _ _); reflexivity.
  - intros evs sys out g T Hok Hlen Hrun Hin. subst S.
    pose proof (inv_boot lease _ kv eq_refl) as I0.
    pose proof (run_inv lease _ Hlease HS evs 0 _ _ _ I0 (Z.le_refl 0) Hlen Hok Hrun) as I.
    pose proof (run_backed lease _ Hlease HS evs 0 _ _ _ g T I0 (Z.le_refl 0)
                  Hlen Hok Hrun Hin) as (p & o & Eo & HP & _).
    pose proof (inv_phys _ _ _ _ I) as HF. rewrite Forall_forall in HF.
    destruct (HF o (list_elem_of_lookup_2 _ _ _ Eo)) as [Hc Hfl].
    rewrite HP. unfold floor, ms in *. range.
    Z.to_euclidean_division_equations. lia.
Qed.

(** Checkpoint at 5 s, lease 3 s: the reading at 7 s is slept through and
    the reading at 12 s is saved and seeds the first object. *)
Lemma syncTimestamp_leader_start_witness :
  syncTimestamp false [7000000000; 12000000000] false
    (mkStore 1 (Some (encode 5000000000))) (mkServer 3 1 Go.zeroTime [] None)
  = (Ok tt, mkStore 1 (Some (encode 12000000000)),
     mkServer 3 1 12000000000 [mkObject 12000000000 0] (Some 0%nat)).
Proof.
  refine (proj1 (proj2 (proj2
    (syncTimestamp_leader_start 3 5000000000
       (mkStore 1 (Some (encode 5000000000))) (mkServer 3 1 Go.zeroTime [] None)
       [7000000000] [] 12000000000 false _ _ _ _ _ _))) _ _).
  - unfold lease_ok, Int64.max_int. lia.
  - reflexivity.
  - vm_compute. reflexivity.
  - unfold clock_ok, Int64.max_int. lia.
  - repeat constructor; unfold clock_ok, Int64.max_int; lia.
  - unfold clock_ok, Int64.max_int. lia.
  - lia.
  - lia.
Defined.

(** *** Further properties of the timestamp oracle *)

Lemma wrap_wrap (z : Z) : Int64.wrap (Int64.wrap z) = Int64.wrap z.
Proof. apply Int64.wrap_id, Int64.wrap_in_range. Qed.

(** X1: what [saveTimestamp] has written, [loadTimestamp] reads back: after
    a successful save of [now] the checkpoint decodes to [now.UnixNano()],
    [lastSavedTime] is [now] and the leader key is as it was. *)
Theorem saveTimestamp_then_loadTimestamp
    (commit_err : bool) (now : Z) (kv kv' : Store) (s s' : Server) :
  saveTimestamp commit_err now kv s = (Ok tt, kv', s') ->
  loadTimestamp false kv' = Ok (Go.UnixNano now)
  /\ lastSavedTime s' = now
  /\ leader_create_revision kv' = leader_create_revision kv.
Proof.
  intros H. destruct (saveTimestamp_cases commit_err now kv s) as [E|[e E]];
    rewrite E in H; [|discriminate].
  injection H as <- <-. split; [|split; reflexivity].
  unfold loadTimestamp, put_timestamp. cbn [timestamp_value]. unfold encode.
  rewrite Go.length_PutUint64. cbn [Nat.eqb]. rewrite Go.Uint64_PutUint64.
  change (Int64.to_uint64 (Go.UnixNano now) mod 2 ^ 64)
    with (Int64.to_uint64 (Int64.to_uint64 (Go.UnixNano now))).
  rewrite !Int64.wrap_to_uint64. unfold Go.UnixNano. rewrite wrap_wrap. reflexivity.
Qed.

Lemma saveTimestamp_then_loadTimestamp_witness :
  loadTimestamp false (mkStore 1 (Some (encode 6000000000))) = Ok (Go.UnixNano 6000000000)
  /\ lastSavedTime (mkServer 3 1 6000000000 [] None) = 6000000000
  /\ leader_create_revision (mkStore 1 (Some (encode 6000000000)))
     = leader_create_revision (mkStore 1 None).
Proof.
  apply (saveTimestamp_then_loadTimestamp false 6000000000 (mkStore 1 None) _
           (mkServer 3 1 Go.zeroTime [] None)).
  reflexivity.
Defined.

(** X2: whenever [syncTimestamp] or [updateTimestamp] returns an error,
    neither the store nor the server has changed: no checkpoint is written
    and the in-memory timestamp does not advance. *)
Theorem tso_errors_change_nothing
    (get_err commit_err : bool) (clock : list Z) (now : Z) (kv kv' : Store)
    (s s' : Server) (e : error) :
  syncTimestamp get_err clock commit_err kv s = (Err e, kv', s')
  \/ updateTimestamp now commit_err kv s = (Err e, kv', s') ->
  kv' = kv /\ s' = s.
Proof.
  intros [H|H].
  - apply syncTimestamp_cases in H as [(-> & -> & _)|(last & t & _ & _ & Hr & _)];
      [auto|discriminate].
  - apply updateTimestamp_cases in H
      as [Hr|[(-> & ->)|(p & prev & _ & _ & _ & Hr & _)]];
      [discriminate|auto|discriminate].
Qed.

(** The leader key was re-created by another server: the save that is due
    at 9100 ms fails and nothing changes. *)
Lemma tso_errors_change_nothing_witness :
  mkStore 2 (Some (encode 6000000000)) = mkStore 2 (Some (encode 6000000000))
  /\ mkServer 3 1 6000000000 [mkObject 6000000000 0] (Some 0%nat)
     = mkServer 3 1 6000000000 [mkObject 6000000000 0] (Some 0%nat).
Proof.
  apply (tso_errors_change_nothing false false [] 9100000000
           (mkStore 2 (Some (encode 6000000000))) _
           (mkServer 3 1 6000000000 [mkObject 6000000000 0] (Some 0%nat)) _
           ErrSaveFailed).
  right. vm_compute. reflexivity.
Defined.

(** X3: a clock reading that is not a full millisecond past the current
    physical time, in particular one that went backward, makes
    [updateTimestamp] return without touching the store or the server,
    whatever the state of the lease. *)
Theorem updateTimestamp_skips_backward_clock
    (now : Z) (commit_err : bool) (kv : Store) (s : Server) (p : nat)
    (prev : atomicObject) :
  ts s = Some p -> heap s !! p = Some prev ->
  clock_ok now -> clock_ok (physical prev) ->
  now < physical prev + 1000000 ->
  updateTimestamp now commit_err kv s = (Ok tt, kv, s).
Proof.
  intros Ets Ep Hnow Hprev Hlt. unfold updateTimestamp. rewrite Ets, Ep.
  rewrite Sub_clock by assumption.
  destruct (Z.leb_spec (Z.quot (now - physical prev) 1000000) 0) as [|Hpos];
    [reflexivity|].
  exfalso. Z.to_euclidean_division_equations. lia.
Qed.

Lemma updateTimestamp_skips_backward_clock_witness :
  updateTimestamp 5999000000 false (mkStore 1 (Some (encode 6000000000)))
    (mkServer 0 1 6000000000 [mkObject 6000000000 7] (Some 0%nat))
  = (Ok tt, mkStore 1 (Some (encode 6000000000)),
     mkServer 0 1 6000000000 [mkObject 6000000000 7] (Some 0%nat)).
Proof.
  apply (updateTimestamp_skips_backward_clock 5999000000 false _ _ 0%nat
           (mkObject 6000000000 7)).
  - reflexivity.
  - reflexivity.
  - unfold clock_ok, Int64.max_int. lia.
  - unfold clock_ok, Int64.max_int. simpl. lia.
  - simpl. lia.
Defined.

(** *** Whole runs *)

Lemma step_logical_range (lease S0 n : Z) (e : event) (sys sys' : System)
    (g : nat) (T : Timestamp) :
  inv lease S0 n sys -> n + 1 <= Int64.max_int ->
  step e sys = Some (sys', Some (g, Some T)) ->
  1 <= Logical T < maxLogical.
Proof.
  intros I Hn Hstep.
  apply step_issued in Hstep as (i & p & current & _ & Ep & -> & Hlt & _).
  split; [|exact Hlt]. simpl.
  pose proof (inv_logical _ _ _ _ I) as HF. rewrite Forall_forall in HF.
  pose proof (HF current (list_elem_of_lookup_2 _ _ _ Ep)) as Hc.
  unfold Int64.add. rewrite Int64.wrap_id; [lia|]. range. lia.
Qed.

Lemma step_checkpoint_le (lease S0 n : Z) (e : event) (sys sys' : System)
    (out : option output) :
  lease_ok lease -> clock_ok S0 ->
  inv lease S0 n sys -> event_ok e -> step e sys = Some (sys', out) ->
  checkpoint (etcd sys) <= checkpoint (etcd sys').
Proof.
  intros Hlease HS0 I He Hstep.
  destruct e as [rev mine|ge clock ce|now ce|g|g|g]; simpl in Hstep.
  - injection Hstep as <- <-. unfold checkpoint. simpl. lia.
  - destruct (syncTimestamp ge clock ce (etcd sys) (srv sys)) as [[r kv'] s'] eqn:E.
    assert (checkpoint (etcd sys) <= checkpoint kv') as Hle.
    { apply syncTimestamp_cases in E
        as [(-> & _)|(last & t & El & Ew & _ & -> & _)]; [lia|].
      apply loadTimestamp_checkpoint in El. rewrite (inv_lease _ _ _ _ I) in Ew.
      assert (clock_ok last) as Hlast.
      { subst last. destruct (ts (srv sys)) as [p|] eqn:Ets.
        - destruct (inv_top _ _ _ _ _ I Ets) as [top Et].
          destruct (inv_saved _ _ _ _ I p top Ets Et) as (Hkv & Hcs & _).
          rewrite (checkpoint_of_encode _ _ Hcs Hkv). exact Hcs.
        - pose proof (inv_ts _ _ _ _ I) as Hts. rewrite Ets in Hts.
          destruct Hts as [_ ->]. exact HS0. }
      apply sync_loop_Ok in Ew as (Hnow & H1 & _); try assumption.
      rewrite checkpoint_encode by assumption. lia. }
    unfold leader_step in Hstep.
    destruct r; try discriminate; injection Hstep as <- <-; simpl; lia.
  - destruct (updateTimestamp now ce (etcd sys) (srv sys)) as [[r kv'] s'] eqn:E.
    assert (r <> Panic -> checkpoint (etcd sys) <= checkpoint kv') as Hle.
    { intros Hr. apply updateTimestamp_cases in E
        as [->|[(-> & _)|(p & prev & Ets & Ep & Hgt & _ & [(-> & _)|(_ & -> & _)])]];
        [congruence|lia| |lia].
      destruct (inv_saved _ _ _ _ I p prev Ets Ep) as (Hkv & Hcs & _ & Hgap & _).
      rewrite (checkpoint_of_encode _ _ Hcs Hkv).
      rewrite checkpoint_encode by exact He.
      assert (clock_ok (physical prev)) as Hcp.
      { pose proof (inv_phys _ _ _ _ I) as HF. rewrite Forall_forall in HF.
        apply (HF prev), (list_elem_of_lookup_2 _ _ _ Ep). }
      rewrite Sub_clock in Hgt by assumption.
      simpl in He. Z.to_euclidean_division_equations. lia. }
    unfold leader_step in Hstep.
    destruct r; try discriminate; injection Hstep as <- <-; simpl;
      first [lia | apply Hle; discriminate].
  - destruct (callers sys g); injection Hstep as <- <-; simpl; lia.
  - destruct (callers sys g) as [|i [p|]]; try (injection Hstep as <- <-; simpl; lia).
    destruct (getRespTS_load i (srv sys)). injection Hstep as <- <-. simpl. lia.
  - destruct (callers sys g) as [|i [p|]]; try (injection Hstep as <- <-; simpl; lia).
    destruct (getRespTS_add i p (srv sys)) as [[[s' c] o]|]; [|discriminate].
    injection Hstep as <- <-. simpl. lia.
Qed.

Lemma run_checkpoint_le (lease S0 : Z) (evs : list event) (n : Z)
    (sys sys' : System) (out : list output) :
  lease_ok lease -> clock_ok S0 ->
  inv lease S0 n sys -> 0 <= n -> n + Z.of_nat (length evs) <= Int64.max_int ->
  Forall event_ok evs -> run evs sys = Some (sys', out) ->
  checkpoint (etcd sys) <= checkpoint (etcd sys').
Proof.
  intros Hlease HS0. revert n sys out.
  induction evs as [|e evs IH]; intros n sys out I Hn Hmax Hok Hrun.
  - simpl in Hrun. injection Hrun as <- <-. lia.
  - simpl in Hrun. inversion Hok as [|? ? He Hevs]; subst.
    destruct (step e sys) as [[sys1 o1]|] eqn:Es; [|discriminate].
    destruct (run evs sys1) as [[sys2 outs]|] eqn:Er; [|discriminate].
    injection Hrun as <- <-.
    change (length (e :: evs)) with (S (length evs)) in Hmax.
    pose proof (step_checkpoint_le lease S0 n e sys sys1 o1 Hlease HS0 I He Es).
    assert (inv lease S0 (n + 1) sys1) as I1
      by (apply (step_inv lease S0 Hlease HS0 n e sys sys1 o1); try assumption; lia).
    pose proof (IH (n + 1) sys1 outs I1 ltac:(lia) ltac:(lia) Hevs Er). lia.
Qed.

Lemma run_logical_range (lease S0 : Z) (evs : list event) (n : Z)
    (sys sys' : System) (out : list output) (g : nat) (T : Timestamp) :
  lease_ok lease -> clock_ok S0 ->
  inv lease S0 n sys -> 0 <= n -> n + Z.of_nat (length evs) <= Int64.max_int ->
  Forall event_ok evs -> run evs sys = Some (sys', out) ->
  In (g, Some T) out -> 1 <= Logical T < maxLogical.
Proof.
  intros Hlease HS0. revert n sys out.
  induction evs as [|e evs IH]; intros n sys out I Hn Hmax Hok Hrun Hin.
  - simpl in Hrun. injection Hrun as <- <-. destruct Hin.
  - simpl in Hrun. inversion Hok as [|? ? He Hevs]; subst.
    destruct (step e sys) as [[sys1 o1]|] eqn:Es; [|discriminate].
    destruct (run evs sys1) as [[sys2 outs]|] eqn:Er; [|discriminate].
    injection Hrun as <- <-.
    change (length (e :: evs)) with (S (length evs)) in Hmax.
    assert (inv lease S0 (n + 1) sys1) as I1
      by (apply (step_inv lease S0 Hlease HS0 n e sys sys1 o1); try assumption; lia).
    assert (In (g, Some T) outs -> 1 <= Logical T < maxLogical) as Hrest
      by (apply (IH (n + 1) sys1 outs I1); try assumption; lia).
    destruct o1 as [o|]; [|auto]. destruct Hin as [->|Hin]; [|auto].
    apply (step_logical_range lease S0 n e sys sys1 g T I); [lia|exact Es].
Qed.

(** X4: the logical part of every timestamp [getRespTS] hands out lies
    between 1 and [maxLogical - 1]: the counter is incremented before it is
    read, and a value that reached [maxLogical] is not returned. *)
Theorem getRespTS_logical_range
    (lease : Z) (kv : Store) (evs : list event) (sys : System)
    (out : list output) (g : nat) (T : Timestamp) :
  lease_ok lease -> clock_ok (checkpoint kv) ->
  Forall event_ok evs -> Z.of_nat (length evs) <= Int64.max_int ->
  run evs (boot lease kv) = Some (sys, out) ->
  In (g, Some T) out ->
  1 <= Logical T < maxLogical.
Proof.
  intros Hlease HS0 Hok Hlen Hrun Hin.
  pose proof (inv_boot lease _ kv eq_refl) as I0.
  exact (run_logical_range lease _ evs 0 _ _ _ g T Hlease HS0 I0 (Z.le_refl 0)
           Hlen Hok Hrun Hin).
Qed.

Lemma getRespTS_logical_range_witness :
  1 <= Logical (mkTimestamp 6000 2) < maxLogical.
Proof.
  eapply (getRespTS_logical_range 3 (mkStore 0 None)
            [EvLeaderKey 1 true; EvSync false [6000000000] false;
             EvCall 0; EvLoad 0; EvAdd 0; EvCall 1; EvLoad 1; EvAdd 1]
            _ _ 1%nat (mkTimestamp 6000 2)).
  - unfold lease_ok, Int64.max_int. lia.
  - unfold clock_ok, checkpoint, Int64.max_int. cbn [timestamp_value]. lia.
  - repeat constructor; unfold clock_ok, Int64.max_int; lia.
  - unfold Int64.max_int. cbn [length]. lia.
  - vm_compute. reflexivity.
  - right. left. reflexivity.
Defined.

(** X5: the checkpoint persisted at <root>/timestamp never moves backward
    while the server runs: whatever [syncTimestamp] and [updateTimestamp]
    write is at least what the store held before. *)
Theorem checkpoint_never_decreases
    (lease : Z) (kv : Store) (evs1 evs2 : list event) (sys1 sys2 : System)
    (out1 out2 : list output) :
  lease_ok lease -> clock_ok (checkpoint kv) ->
  Forall event_ok (evs1 ++ evs2) ->
  Z.of_nat (length (evs1 ++ evs2)) <= Int64.max_int ->
  run evs1 (boot lease kv) = Some (sys1, out1) ->
  run evs2 sys1 = Some (sys2, out2) ->
  checkpoint kv <= checkpoint (etcd sys1)
  /\ checkpoint (etcd sys1) <= checkpoint (etcd sys2).
Proof.
  intros Hlease HS0 Hok Hlen Hrun1 Hrun2.
  apply Forall_app in Hok as [Hok1 Hok2]. rewrite length_app, Nat2Z.inj_add in Hlen.
  pose proof (inv_boot lease _ kv eq_refl) as I0.
  assert (0 + Z.of_nat (length evs1) <= Int64.max_int) as Hlen1 by lia.
  pose proof (run_inv lease _ Hlease HS0 evs1 0 _ _ _ I0 (Z.le_refl 0) Hlen1 Hok1 Hrun1)
    as I1.
  split.
  - exact (run_checkpoint_le lease _ evs1 0 _ _ _ Hlease HS0 I0 (Z.le_refl 0)
             Hlen1 Hok1 Hrun1).
  - apply (run_checkpoint_le lease _ evs2 _ _ _ out2 Hlease HS0 I1);
      try assumption; lia.
Qed.

Lemma checkpoint_never_decreases_witness :
  checkpoint (mkStore 0 None)
  <= checkpoint (etcd (mkSystem (mkStore 1 (Some (encode 6000000000)))
                         (mkServer 3 1 6000000000 [mkObject 6000000000 0] (Some 0%nat))
                         (fun _ => Idle)))
  /\ checkpoint (etcd (mkSystem (mkStore 1 (Some (encode 6000000000)))
                         (mkServer 3 1 6000000000 [mkObject 6000000000 0] (Some 0%nat))
                         (fun _ => Idle)))
     <= checkpoint (etcd (mkSystem (mkStore 1 (Some (encode 9100000000)))
                            (mkServer 3 1 9100000000
                               [mkObject 6000000000 0; mkObject 9100000000 0]
                               (Some 1%nat))
                            (fun _ => Idle))).
Proof.
  apply (checkpoint_never_decreases 3 (mkStore 0 None)
           [EvLeaderKey 1 true; EvSync false [6000000000] false]
           [EvTick 9100000000 false] _ _ [] []).
  - unfold lease_ok, Int64.max_int. lia.
  - unfold clock_ok, checkpoint, Int64.max_int. cbn [timestamp_value]. lia.
  - repeat constructor; unfold clock_ok, Int64.max_int; lia.
  - unfold Int64.max_int. cbn [length app]. lia.
  - vm_compute. reflexivity.
  - vm_compute. reflexivity.
Defined.

Lemma loads_when_idle (g : nat) (k : nat) (sys : System) :
  callers sys g = Idle -> run (repeat (EvLoad g) k) sys = Some (sys, []).
Proof.
  intros E. induction k as [|k IH]; [reflexivity|].
  simpl. rewrite E, IH. reflexivity.
Qed.

Lemma set_caller_same (g : nat) (c : caller) (f : nat -> caller) :
  set_caller g c f g = c.
Proof. unfold set_caller. rewrite Nat.eqb_refl. reflexivity. Qed.

Lemma loads_when_unsynced (g : nat) (k i : nat) (sys : System) :
  ts (srv sys) = None -> callers sys g = Running i None -> (i <= 100)%nat ->
  exists sys',
    run (repeat (EvLoad g) k) sys
      = Some (sys', if (i + k <=? 100)%nat then [] else [(g, None)])
    /\ etcd sys' = etcd sys /\ srv sys' = srv sys
    /\ callers sys' g = if (i + k <=? 100)%nat then Running (i + k) None else Idle.
Proof.
  revert i sys. induction k as [|k IH]; intros i sys Ets Eg Hi.
  - exists sys. rewrite Nat.add_0_r. destruct (Nat.leb_spec i 100); [|lia]. auto.
  - cbn [repeat run step]. rewrite Eg. unfold getRespTS_load, maxRetryNum. rewrite Ets.
    destruct (Nat.ltb_spec i 100) as [Hlt|Hge].
    + destruct (IH (S i) (mkSystem (etcd sys) (srv sys)
                            (set_caller g (Running (S i) None) (callers sys))))
        as (sys' & Er & He & Hs & Hc);
        [exact Ets|apply set_caller_same|lia|].
      exists sys'. rewrite Er. cbn [option_map].
      replace (i + S k)%nat with (S i + k)%nat by lia. auto.
    + rewrite loads_when_idle by apply set_caller_same.
      eexists. cbn [option_map]. destruct (Nat.leb_spec (i + S k) 100); [lia|].
      split; [reflexivity|]. simpl. rewrite set_caller_same. auto.
Qed.

(** X6: on a server whose timestamp was never synced, a caller of
    [getRespTS] gets nothing during its first [maxRetryNum] looks at [s.ts]
    and the nil response at the next one; the store and the server are
    left as they were. *)
Theorem getRespTS_unsynced_returns_nil (sys : System) (g k : nat) :
  ts (srv sys) = None -> callers sys g = Idle ->
  exists sys',
    run (EvCall g :: repeat (EvLoad g) k) sys
      = Some (sys', if (k <=? maxRetryNum)%nat then [] else [(g, None)])
    /\ etcd sys' = etcd sys /\ srv sys' = srv sys.
Proof.
  intros Ets Eg. cbn [run step]. rewrite Eg.
  destruct (loads_when_unsynced g k 0
              (mkSystem (etcd sys) (srv sys)
                 (set_caller g (Running 0 None) (callers sys))))
    as (sys' & Er & He & Hs & _); [exact Ets|apply set_caller_same|lia|].
  exists sys'. rewrite Er. auto.
Qed.

Lemma getRespTS_unsynced_returns_nil_witness :
  exists sys',
    run (EvCall 0 :: repeat (EvLoad 0) 101) (boot 3 (mkStore 0 None))
      = Some (sys', if (101 <=? maxRetryNum)%nat then [] else [(0%nat, None)])
    /\ etcd sys' = etcd (boot 3 (mkStore 0 None))
    /\ srv sys' = srv (boot 3 (mkStore 0 None)).
Proof.
  apply (getRespTS_unsynced_returns_nil (boot 3 (mkStore 0 None)) 0 101);
    reflexivity.
Defined.

End Tso.

(** ** The client's RPC worker *)

Module RpcWorker.

Definition maxPipelineRequest : Z := 10000.

(** *** Wire messages, as far as the worker looks into them *)

(** [pdpb.Timestamp]: both fields are optional on the wire. *)
Record Timestamp : Type := mkTimestamp { Physical : option Z; Logical : option Z }.

(** The generated getters are nil-safe and default to zero. *)
Definition GetPhysical (t : option Timestamp) : Z :=
  match t with
  | Some (mkTimestamp (Some p) _) => p
  | _ => 0
  end.

Definition GetLogical (t : option Timestamp) : Z :=
  match t with
  | Some (mkTimestamp _ (Some l)) => l
  | _ => 0
  end.

(** An opaque [metapb.Region]. *)
Definition Region : Type := Z.

Inductive command : Type :=
| CmdTso (number : Z)            (* CommandType_Tso with TsoRequest{Number} *)
| CmdGetMeta (key : list Z).     (* CommandType_GetMeta, MetaType_RegionType *)

(** [pdpb.Request]; the header's Uuid is a fresh random value and is not
    modelled. *)
Record Request : Type := mkRequest { ClusterId : Z; Cmd : command }.

(** [pdpb.Response]: [rsp.GetTso()] with its timestamps, [rsp.GetGetMeta()]
    with its region. *)
Record Response : Type := mkResponse {
  Tso : option (list (option Timestamp));
  GetMeta : option (option Region)
}.

Inductive error : Type :=
| ErrRpc (cause : nat)   (* "[pd] rpc failed: %v" *)
| ErrTsoNotSet           (* "[pd] tso filed in rpc response not set" *)
| ErrTsoLength           (* "[pd] tso length in rpc response is incorrect" *)
| ErrGetMetaNotSet       (* "[pd] GetMeta filed in rpc response not set" *)
| ErrRegionNotSet        (* "[pd] Region filed in rpc response not set" *)
| ErrCaller (tag : nat). (* an error value made by the caller of [stop] *)

(** What the network does with one request/response exchange. *)
Inductive rpc_outcome : Type :=
| WriteErr (cause : nat)    (* util.WriteMessage fails *)
| ReadErr (cause : nat)     (* util.ReadMessage fails, the deadline included *)
| Reply (rsp : Response).

(** One call of [util.WriteMessage] with what followed it. *)
Record trip : Type := mkTrip { trip_id : Z; trip_req : Request; trip_outcome : rpc_outcome }.

(** *** Requests *)

(** [done] is the content of the completion channel, oldest first; a [None]
    in it is a [nil] error.  Sends on [done] are taken not to block. *)
Record tsoRequest : Type := mkTsoRequest {
  ts_done : list (option error);
  physical : Z;
  logical : Z
}.

Record regionRequest : Type := mkRegionRequest {
  key : list Z;
  rg_done : list (option error);
  region : option Region
}.

(** A value of the [requests] channel: [interface{}] holding a pointer to
    one of the two request types, or anything else. *)
Inductive request : Type :=
| ReqTso (p : nat)
| ReqRegion (p : nat)
| ReqOther.

Inductive phase : Type :=
| Dialing     (* at RECONNECT *)
| Serving     (* in the for loop, with a connection *)
| Exited.     (* [work] returned and ran wg.Done *)

(** The worker together with the objects it shares with its clients.
    [outcomes] is what the peer of the current connection does, exchange
    by exchange; [trips] logs the exchanges made on all connections. *)
Record state : Type := mkState {
  clusterID : Z;
  requests : list request;
  quit : bool;                  (* closed? *)
  worker : phase;
  outcomes : list rpc_outcome;
  trips : list trip;
  msgID : Z;
  tsoReqs : gmap nat tsoRequest;
  regionReqs : gmap nat regionRequest
}.

Definition set_requests (q : list request) (st : state) : state :=
  mkState (clusterID st) q (quit st) (worker st) (outcomes st) (trips st)
    (msgID st) (tsoReqs st) (regionReqs st).

Definition set_quit (b : bool) (st : state) : state :=
  mkState (clusterID st) (requests st) b (worker st) (outcomes st) (trips st)
    (msgID st) (tsoReqs st) (regionReqs st).

Definition set_worker (ph : phase) (os : list rpc_outcome) (st : state) : state :=
  mkState (clusterID st) (requests st) (quit st) ph os (trips st)
    (msgID st) (tsoReqs st) (regionReqs st).

Definition set_tsoReqs (h : gmap nat tsoRequest) (st : state) : state :=
  mkState (clusterID st) (requests st) (quit st) (worker st) (outcomes st) (trips st)
    (msgID st) h (regionReqs st).

Definition set_regionReqs (h : gmap nat regionRequest) (st : state) : state :=
  mkState (clusterID st) (requests st) (quit st) (worker st) (outcomes st) (trips st)
    (msgID st) (tsoReqs st) h.

(** Computations that may panic or block. *)
Inductive exec (A : Type) : Type :=
| Ret (a : A)
| Panic
| Blocked.
Arguments Ret {A} a.
Arguments Panic {A}.
Arguments Blocked {A}.

Definition bind {A B : Type} (m : exec A) (f : A -> exec B) : exec B :=
  match m with
  | Ret a => f a
  | Panic => Panic
  | Blocked => Blocked
  end.

Notation "'do' x <- m ; k" := (bind m (fun x => k))
  (at level 10, x name, m at level 100, k at level 200).
Notation "'do' ' pat <- m ; k" := (bind m (fun x => match x with pat => k end))
  (at level 10, pat pattern, m at level 100, k at level 200).

(** *** One exchange on the connection *)

(** [newMsgID]: [atomic.AddUint64(&msgID, 1)]. *)
Definition newMsgID (st : state) : Z := (msgID st + 1) mod 2 ^ 64.

(** [util.WriteMessage], [conn.Flush] and [util.ReadMessage] for one request.
    A peer that has nothing more to say lets the read deadline expire. *)
Definition exchange (req : Request) (st : state) : rpc_outcome * state :=
  let id := newMsgID st in
  let '(o, rest) := match outcomes st with
                    | [] => (ReadErr 0, [])
                    | o :: rest => (o, rest)
                    end in
  (o, mkState (clusterID st) (requests st) (quit st) (worker st) rest
        (trips st ++ [mkTrip id req o]) id (tsoReqs st) (regionReqs st)).

Definition getTSFromRemote (n : nat) (st : state)
    : (error + list (option Timestamp)) * state :=
  let req := mkRequest (clusterID st) (CmdTso (Z.of_nat n mod 2 ^ 32)) in
  let '(o, st') := exchange req st in
  match o with
  | WriteErr c => (inl (ErrRpc c), st')
  | ReadErr c => (inl (ErrRpc c), st')
  | Reply rsp =>
      match Tso rsp with
      | None => (inl ErrTsoNotSet, st')
      | Some timestamps =>
          if Nat.eqb (length timestamps) n then (inr timestamps, st')
          else (inl ErrTsoLength, st')
      end
  end.

Definition getRegionFromRemote (k : list Z) (st : state) : (error + Region) * state :=
  let req := mkRequest (clusterID st) (CmdGetMeta k) in
  let '(o, st') := exchange req st in
  match o with
  | WriteErr c => (inl (ErrRpc c), st')
  | ReadErr c => (inl (ErrRpc c), st')
  | Reply rsp =>
      match GetMeta rsp with
      | None => (inl ErrGetMetaNotSet, st')
      | Some None => (inl ErrRegionNotSet, st')
      | Some (Some r) => (inr r, st')
      end
  end.

(** *** [handleRequests] *)

(** [r.done <- err] on a [*tsoRequest]; a nil pointer panics. *)
Definition tso_done (p : nat) (e : option error) (st : state) : exec state :=
  match tsoReqs st !! p with
  | None => Panic
  | Some r =>
      Ret (set_tsoReqs
             (<[p := mkTsoRequest (ts_done r ++ [e]) (physical r) (logical r)]> (tsoReqs st))
             st)
  end.

(** [req.physical = ...; req.logical = ...; req.done <- nil] *)
Definition tso_assign (p : nat) (t : option Timestamp) (st : state) : exec state :=
  match tsoReqs st !! p with
  | None => Panic
  | Some r =>
      Ret (set_tsoReqs
             (<[p := mkTsoRequest (ts_done r ++ [None]) (GetPhysical t) (GetLogical t)]>
                (tsoReqs st))
             st)
  end.

Definition region_done (p : nat) (e : option error) (rg : option Region) (st : state)
    : exec state :=
  match regionReqs st !! p with
  | None => Panic
  | Some r =>
      Ret (set_regionReqs
             (<[p := mkRegionRequest (key r) (rg_done r ++ [e])
                       (match rg with Some _ => rg | None => region r end)]>
                (regionReqs st))
             st)
  end.

(** The first loop: region requests are served one by one, timestamp
    requests are collected. *)
Fixpoint serve_regions (reqs : list request) (tsoRequests : list nat) (ok : bool)
    (st : state) : exec (list nat * bool * state) :=
  match reqs with
  | [] => Ret (tsoRequests, ok, st)
  | ReqTso p :: rest => serve_regions rest (tsoRequests ++ [p]) ok st
  | ReqRegion p :: rest =>
      match regionReqs st !! p with
      | None => Panic
      | Some r =>
          let '(res, st1) := getRegionFromRemote (key r) st in
          match res with
          | inl err =>
              do st2 <- region_done p (Some err) None st1;
              serve_regions rest tsoRequests false st2
          | inr rg =>
              do st2 <- region_done p None (Some rg) st1;
              serve_regions rest tsoRequests ok st2
          end
      end
  | ReqOther :: rest => serve_regions rest tsoRequests ok st
  end.

(** The second loop, from index [i] on; [ts[i]] out of range panics. *)
Fixpoint complete_tso (tsoRequests : list nat)
    (res : error + list (option Timestamp)) (i : nat) (st : state) : exec state :=
  match tsoRequests with
  | [] => Ret st
  | p :: rest =>
      match res with
      | inl err =>
          do st1 <- tso_done p (Some err) st;
          complete_tso rest res (S i) st1
      | inr ts =>
          match ts !! i with
          | None => Panic
          | Some t =>
              do st1 <- tso_assign p t st;
              complete_tso rest res (S i) st1
          end
      end
  end.

Definition handleRequests (reqs : list request) (st : state) : exec (bool * state) :=
  do '(tsoRequests, ok, st1) <- serve_regions reqs [] true st;
  let '(res, st2) := getTSFromRemote (length tsoRequests) st1 in
  let ok := match res with inl _ => false | inr _ => ok end in
  do st3 <- complete_tso tsoRequests res 0 st2;
  Ret (ok, st3).

(** *** The worker's loop and [stop] *)

(** What the scheduler and the network decide next. *)
Inductive event : Type :=
| EvDialOk (peer : list rpc_outcome)
    (* net.DialTimeout succeeds; [peer] is how the new connection behaves *)
| EvDialFail (quit_case : bool)
    (* it fails, and the select then takes time.After or, if [quit_case], quit *)
| EvSelect (quit_case : bool)
    (* the select of the for loop takes a request or, if [quit_case], quit *)
| EvSubmit (r : request).
    (* a client sends [r] on the requests channel *)

(** One step of [work] or of a client.  [Blocked]: the event cannot happen
    in this state.  The greedy POP_ALL loop empties the channel. *)
Definition work_step (e : event) (st : state) : exec state :=
  match e with
  | EvSubmit r =>
      if Z.of_nat (length (requests st)) <? maxPipelineRequest
      then Ret (set_requests (requests st ++ [r]) st)
      else Blocked
  | EvDialOk peer =>
      match worker st with
      | Dialing => Ret (set_worker Serving peer st)
      | _ => Blocked
      end
  | EvDialFail quit_case =>
      match worker st with
      | Dialing =>
          if quit_case
          then (if quit st then Ret (set_worker Exited [] st) else Blocked)
          else Ret st
      | _ => Blocked
      end
  | EvSelect quit_case =>
      match worker st with
      | Serving =>
          if quit_case
          then (if quit st then Ret (set_worker Exited [] st) else Blocked)
          else
            match requests st with
            | [] => Blocked
            | pending =>
                do '(ok, st1) <- handleRequests pending (set_requests [] st);
                if ok : bool then Ret st1
                else Ret (set_worker Dialing [] st1)
            end
      | _ => Blocked
      end
  end.

(** [w.wg.Wait()]: the worker and the clients run, as [sched] says, until
    the worker has exited. *)
Fixpoint wait (sched : list event) (st : state) : exec state :=
  match worker st with
  | Exited => Ret st
  | _ =>
      match sched with
      | [] => Blocked
      | e :: sched' => do st' <- work_step e st; wait sched' st'
      end
  end.

(** The [for] loop of [stop]: [n] receives from the channel. *)
Fixpoint drain (n : nat) (err : error) (st : state) : exec state :=
  match n with
  | O => Ret st
  | S n' =>
      match requests st with
      | [] => Blocked
      | req :: rest =>
          let st1 := set_requests rest st in
          do st2 <- match req with
                    | ReqTso p => tso_done p (Some err) st1
                    | ReqRegion p => region_done p (Some err) None st1
                    | ReqOther => Ret st1
                    end;
          drain n' err st2
      end
  end.

(** [stop].  Closing a closed channel panics.  [late] are the requests that
    clients send while the drain loop runs: the loop receives as many
    values as the channel held when [len] was evaluated, and the channel is
    first-in first-out, so they queue up behind those. *)
Definition stop (err : error) (sched : list event) (late : list request)
    (st : state) : exec state :=
  if quit st then Panic
  else
    do st1 <- wait sched (set_quit true st);
    drain (length (requests st1)) err (set_requests (requests st1 ++ late) st1).

(** *** Reading a batch *)

(** The timestamp requests of a batch, in submission order. *)
Fixpoint tso_ptrs (reqs : list request) : list nat :=
  match reqs with
  | [] => []
  | ReqTso p :: rest => p :: tso_ptrs rest
  | _ :: rest => tso_ptrs rest
  end.

(** The keys of its region requests, in submission order. *)
Fixpoint region_keys (keyof : nat -> option (list Z)) (reqs : list request)
    : list (list Z) :=
  match reqs with
  | [] => []
  | ReqRegion p :: rest =>
      match keyof p with
      | Some k => k :: region_keys keyof rest
      | None => region_keys keyof rest
      end
  | _ :: rest => region_keys keyof rest
  end.

Definition keyof (st : state) (p : nat) : option (list Z) :=
  match regionReqs st !! p with
  | Some r => Some (key r)
  | None => None
  end.

Definition commands (l : list trip) : list command := map (fun t => Cmd (trip_req t)) l.

(** *** Frame conditions *)

(** The fields only [work] and [stop] themselves change. *)
Definition ctl_eq (st st' : state) : Prop :=
  clusterID st' = clusterID st /\ requests st' = requests st
  /\ quit st' = quit st /\ worker st' = worker st.

Lemma ctl_eq_refl (st : state) : ctl_eq st st.
Proof. repeat split. Qed.

Lemma ctl_eq_trans (a b c : state) : ctl_eq a b -> ctl_eq b c -> ctl_eq a c.
Proof. unfold ctl_eq. intros (?&?&?&?) (?&?&?&?). repeat split; congruence. Qed.

Lemma exchange_spec (req : Request) (st st' : state) (o : rpc_outcome) :
  exchange req st = (o, st') ->
  ctl_eq st st' /\ tsoReqs st' = tsoReqs st /\ regionReqs st' = regionReqs st
  /\ trips st' = trips st ++ [mkTrip (newMsgID st) req o].
Proof.
  unfold exchange. destruct (outcomes st) as [|o1 rest]; intros [= <- <-];
    repeat split.
Qed.

(** [getTSFromRemote] makes one exchange, a [TsoRequest] whose number is
    [n] cut to 32 bits, and succeeds exactly when the reply carries [n]
    timestamps. *)
Lemma getTSFromRemote_spec (n : nat) (st st' : state)
    (res : error + list (option Timestamp)) :
  getTSFromRemote n st = (res, st') ->
  ctl_eq st st' /\ tsoReqs st' = tsoReqs st /\ regionReqs st' = regionReqs st
  /\ exists o,
       trips st' = trips st ++
         [mkTrip (newMsgID st)
            (mkRequest (clusterID st) (CmdTso (Z.of_nat n mod 2 ^ 32))) o]
       /\ forall timestamps,
            res = inr timestamps <->
            exists rsp, o = Reply rsp /\ Tso rsp = Some timestamps
                        /\ length timestamps = n.
Proof.
  unfold getTSFromRemote.
  destruct (exchange _ st) as [o st1] eqn:Ex.
  apply exchange_spec in Ex as (Hc & Ht & Hr & Htr).
  destruct o as [c|c|rsp].
  - intros [= <- <-]. repeat (split; [assumption|]). eexists. split; [exact Htr|].
    intros ts. split; [discriminate|]. intros (rsp & E & _). discriminate.
  - intros [= <- <-]. repeat (split; [assumption|]). eexists. split; [exact Htr|].
    intros ts. split; [discriminate|]. intros (rsp & E & _). discriminate.
  - destruct (Tso rsp) as [timestamps|] eqn:Et.
    + destruct (Nat.eqb_spec (length timestamps) n) as [Hlen|Hlen];
        intros [= <- <-]; repeat (split; [assumption|]); eexists;
        (split; [exact Htr|]); intros ts; split.
      * intros [= <-]. eauto.
      * intros (rsp' & [= <-] & E & _). congruence.
      * discriminate.
      * intros (rsp' & [= <-] & E & Hl). congruence.
    + intros [= <- <-]. repeat (split; [assumption|]). eexists. split; [exact Htr|].
      intros ts. split; [discriminate|]. intros (rsp' & [= <-] & E & _). congruence.
Qed.

Lemma getRegionFromRemote_spec (k : list Z) (st st' : state) (res : error + Region) :
  getRegionFromRemote k st = (res, st') ->
  ctl_eq st st' /\ tsoReqs st' = tsoReqs st /\ regionReqs st' = regionReqs st
  /\ commands (trips st') = commands (trips st) ++ [CmdGetMeta k].
Proof.
  unfold getRegionFromRemote.
  destruct (exchange _ st) as [o st1] eqn:Ex.
  apply exchange_spec in Ex as (Hc & Ht & Hr & Htr).
  assert (commands (trips st1) = commands (trips st) ++ [CmdGetMeta k]) as Hcmd.
  { rewrite Htr. unfold commands. rewrite map_app. reflexivity. }
  destruct o as [c|c|rsp]; [| |destruct (GetMeta rsp) as [[r|]|]];
    intros [= <- <-]; auto.
Qed.

Lemma tso_done_spec (p : nat) (e : option error) (st st' : state) :
  tso_done p e st = Ret st' ->
  exists r, tsoReqs st !! p = Some r
    /\ tsoReqs st' = <[p := mkTsoRequest (ts_done r ++ [e]) (physical r) (logical r)]> (tsoReqs st)
    /\ ctl_eq st st' /\ regionReqs st' = regionReqs st /\ trips st' = trips st.
Proof.
  unfold tso_done. destruct (tsoReqs st !! p) as [r|]; [|discriminate].
  intros [= <-]. exists r. repeat split.
Qed.

Lemma tso_assign_spec (p : nat) (t : option Timestamp) (st st' : state) :
  tso_assign p t st = Ret st' ->
  exists r, tsoReqs st !! p = Some r
    /\ tsoReqs st' = <[p := mkTsoRequest (ts_done r ++ [None]) (GetPhysical t) (GetLogical t)]>
                       (tsoReqs st)
    /\ ctl_eq st st' /\ regionReqs st' = regionReqs st /\ trips st' = trips st.
Proof.
  unfold tso_assign. destruct (tsoReqs st !! p) as [r|]; [|discriminate].
  intros [= <-]. exists r. repeat split.
Qed.

Lemma region_done_spec (p : nat) (e : option error) (rg : option Region)
    (st st' : state) :
  region_done p e rg st = Ret st' ->
  exists r, regionReqs st !! p = Some r
    /\ regionReqs st' =
         <[p := mkRegionRequest (key r) (rg_done r ++ [e])
                  (match rg with Some _ => rg | None => region r end)]> (regionReqs st)
    /\ ctl_eq st st' /\ tsoReqs st' = tsoReqs st /\ trips st' = trips st.
Proof.
  unfold region_done. destruct (regionReqs st !! p) as [r|]; [|discriminate].
  intros [= <-]. exists r. repeat split.
Qed.

(** Completing a region request does not change any key. *)
Lemma region_done_keyof (p : nat) (e : option error) (rg : option Region)
    (st st' : state) (q : nat) :
  region_done p e rg st = Ret st' -> keyof st' q = keyof st q.
Proof.
  intros H. unfold keyof. apply region_done_spec in H as (r & Er & -> & _).
  destruct (decide (p = q)) as [->|Hne].
  - rewrite lookup_insert_eq, Er. reflexivity.
  - rewrite lookup_insert_ne by assumption. reflexivity.
Qed.

Lemma region_keys_ext (f g : nat -> option (list Z)) (reqs : list request) :
  (forall p, f p = g p) -> region_keys f reqs = region_keys g reqs.
Proof.
  intros H. induction reqs as [|[p|p|] rest IH]; simpl; auto.
  rewrite H, IH. reflexivity.
Qed.

(** *** The two loops of [handleRequests] *)

Lemma serve_regions_spec (reqs : list request) :
  forall (tsos : list nat) (ok : bool) (st : state)
         (tsos' : list nat) (ok' : bool) (st' : state),
    serve_regions reqs tsos ok st = Ret (tsos', ok', st') ->
    tsos' = tsos ++ tso_ptrs reqs
    /\ ctl_eq st st' /\ tsoReqs st' = tsoReqs st
    /\ (forall q, keyof st' q = keyof st q)
    /\ commands (trips st')
       = commands (trips st) ++ map CmdGetMeta (region_keys (keyof st) reqs).
Proof.
  induction reqs as [|[p|p|] rest IH]; intros tsos ok st tsos' ok' st'; simpl.
  - intros [= <- <- <-]. rewrite !app_nil_r. auto using ctl_eq_refl.
  - intros H. apply IH in H as (-> & Hc & Ht & Hk & Hcmd).
    rewrite <- app_assoc. auto.
  - unfold keyof at 3. destruct (regionReqs st !! p) as [r|] eqn:Er; [|discriminate].
    destruct (getRegionFromRemote (key r) st) as [res st1] eqn:Eg.
    apply getRegionFromRemote_spec in Eg as (Hc1 & Ht1 & Hr1 & Hcmd1).
    assert (forall q, keyof st1 q = keyof st q) as Hk1
      by (intros q; unfold keyof; rewrite Hr1; reflexivity).
    assert (forall e rg ok0,
              (do st2 <- region_done p e rg st1; serve_regions rest tsos ok0 st2)
              = Ret (tsos', ok', st') ->
              tsos' = tsos ++ tso_ptrs rest
              /\ ctl_eq st st' /\ tsoReqs st' = tsoReqs st
              /\ (forall q, keyof st' q = keyof st q)
              /\ commands (trips st')
                 = commands (trips st)
                   ++ map CmdGetMeta (key r :: region_keys (keyof st) rest)) as Hstep.
    { intros e rg ok0. destruct (region_done p e rg st1) as [st2| |] eqn:Ed;
        try discriminate. simpl. intros H.
      pose proof (fun q => region_done_keyof _ _ _ _ _ q Ed) as Hk2.
      apply region_done_spec in Ed as (r2 & _ & _ & Hc2 & Ht2 & Htr2).
      apply IH in H as (-> & Hc3 & Ht3 & Hk3 & Hcmd3).
      split; [reflexivity|]. split; [eauto using ctl_eq_trans|].
      split; [congruence|]. split; [intros q; rewrite Hk3, Hk2; apply Hk1|].
      rewrite Hcmd3, Htr2, Hcmd1, <- app_assoc. simpl.
      rewrite (region_keys_ext (keyof st2) (keyof st)); [reflexivity|].
      intros q. rewrite Hk2. apply Hk1. }
    destruct res as [err|rg]; apply Hstep.
  - apply IH.
Qed.

Lemma complete_tso_frame (res : error + list (option Timestamp)) (tsos : list nat) :
  forall (i : nat) (st st' : state),
    complete_tso tsos res i st = Ret st' ->
    ctl_eq st st' /\ regionReqs st' = regionReqs st /\ trips st' = trips st
    /\ forall q, q ∉ tsos -> tsoReqs st' !! q = tsoReqs st !! q.
Proof.
  induction tsos as [|p rest IH]; intros i st st'; simpl.
  - intros [= <-]. auto using ctl_eq_refl.
  - assert (forall st1 r,
              tsoReqs st1 = <[p := r]> (tsoReqs st) -> ctl_eq st st1 ->
              regionReqs st1 = regionReqs st -> trips st1 = trips st ->
              complete_tso rest res (S i) st1 = Ret st' ->
              ctl_eq st st' /\ regionReqs st' = regionReqs st /\ trips st' = trips st
              /\ forall q, q ∉ p :: rest -> tsoReqs st' !! q = tsoReqs st !! q) as Hstep.
    { intros st1 r Eh Hc Hr Htr H. apply IH in H as (Hc' & Hr' & Htr' & Hfr).
      split; [eauto using ctl_eq_trans|]. split; [congruence|]. split; [congruence|].
      intros q Hq. apply not_elem_of_cons in Hq as [Hne Hq].
      rewrite Hfr, Eh by assumption. apply lookup_insert_ne. congruence. }
    destruct res as [err|ts].
    + destruct (tso_done p (Some err) st) as [st1| |] eqn:Ed; try discriminate.
      apply tso_done_spec in Ed as (r & _ & Eh & Hc & Hr & Htr). simpl. eauto.
    + destruct (ts !! i) as [t|]; [|discriminate].
      destruct (tso_assign p t st) as [st1| |] eqn:Ed; try discriminate.
      apply tso_assign_spec in Ed as (r & _ & Eh & Hc & Hr & Htr). simpl. eauto.
Qed.

(** With pairwise distinct requests, the request at position [j] of the
    batch ends up holding the timestamp at position [i + j] of the reply
    and one [nil] completion more. *)
Lemma complete_tso_assigns (ts : list (option Timestamp)) (tsos : list nat) :
  forall (i : nat) (st st' : state),
    complete_tso tsos (inr ts) i st = Ret st' -> NoDup tsos ->
    forall (j p : nat), tsos !! j = Some p ->
      exists r t,
        tsoReqs st !! p = Some r /\ ts !! (i + j)%nat = Some t
        /\ tsoReqs st' !! p
           = Some (mkTsoRequest (ts_done r ++ [None]) (GetPhysical t) (GetLogical t)).
Proof.
  induction tsos as [|p rest IH]; intros i st st' H Hnd j q Hj; [discriminate|].
  simpl in H. destruct (ts !! i) as [t|] eqn:Et; [|discriminate].
  destruct (tso_assign p t st) as [st1| |] eqn:Ed; try discriminate. simpl in H.
  apply tso_assign_spec in Ed as (r & Er & Eh & _).
  apply NoDup_cons in Hnd as [Hp Hnd].
  destruct j as [|j]; simpl in Hj.
  - injection Hj as <-. exists r, t. split; [assumption|].
    rewrite Nat.add_0_r. split; [assumption|].
    apply complete_tso_frame in H as (_ & _ & _ & Hfr).
    rewrite Hfr, Eh by assumption. apply lookup_insert_eq.
  - destruct (IH (S i) st1 st' H Hnd j q Hj) as (r1 & t1 & Er1 & Et1 & Efin).
    exists r1, t1. rewrite Eh, lookup_insert_ne in Er1.
    + split; [assumption|]. rewrite <- Nat.add_succ_comm. auto.
    + intros ->. apply Hp. eapply list_elem_of_lookup_2; eassumption.
Qed.

(** *** Theorems about [handleRequests] *)

(** A worker holding one region request (at address 5) whose peer answers
    the GetMeta request and then a Tso request. *)
Definition region_only_state : state :=
  mkState 7 [] false Serving
    [Reply (mkResponse None (Some (Some 42))); Reply (mkResponse (Some []) None)]
    [] 0 ∅ {[ 5%nat := mkRegionRequest [1; 2] [] None ]}.

(** C4, as stated, fails: a batch that holds one region request and no
    timestamp request makes two exchanges, and the second one is a
    [TsoRequest] with number 0. *)
Lemma region_only_batch_sends_tso :
  match handleRequests [ReqRegion 5] region_only_state with
  | Ret (ok, st) => Some (ok, trips st)
  | _ => None
  end
  = Some (true,
          [mkTrip 1 (mkRequest 7 (CmdGetMeta [1; 2]))
             (Reply (mkResponse None (Some (Some 42))));
           mkTrip 2 (mkRequest 7 (CmdTso 0)) (Reply (mkResponse (Some []) None))]).
Proof. vm_compute. reflexivity. Qed.

(** C4, amended: for every batch, [handleRequests] makes one GetMeta
    exchange per region request, in order, and then exactly one Tso
    exchange whose number is the count of the batch's timestamp requests
    (cut to 32 bits); a batch of region requests only still sends a
    [TsoRequest], with number 0. *)
Theorem handleRequests_exchanges
    (reqs : list request) (st st' : state) (ok : bool) :
  handleRequests reqs st = Ret (ok, st') ->
  commands (trips st')
  = commands (trips st)
    ++ map CmdGetMeta (region_keys (keyof st) reqs)
    ++ [CmdTso (Z.of_nat (length (tso_ptrs reqs)) mod 2 ^ 32)].
Proof.
  unfold handleRequests.
  destruct (serve_regions reqs [] true st) as [[[tsos ok1] st1]| |] eqn:Es;
    try discriminate. simpl.
  apply serve_regions_spec in Es as (-> & _ & _ & _ & Hcmd). simpl.
  destruct (getTSFromRemote (length (tso_ptrs reqs)) st1) as [res st2] eqn:Eg.
  apply getTSFromRemote_spec in Eg as (_ & _ & _ & o & Htr & _).
  destruct (complete_tso (tso_ptrs reqs) res 0 st2) as [st3| |] eqn:Ec;
    try discriminate. simpl. intros [= _ <-].
  apply complete_tso_frame in Ec as (_ & _ & Htr3 & _).
  rewrite Htr3, Htr. unfold commands in *. rewrite map_app, Hcmd, <- app_assoc.
  reflexivity.
Qed.

Definition region_only_final : state :=
  mkState 7 [] false Serving []
    [mkTrip 1 (mkRequest 7 (CmdGetMeta [1; 2])) (Reply (mkResponse None (Some (Some 42))));
     mkTrip 2 (mkRequest 7 (CmdTso 0)) (Reply (mkResponse (Some []) None))]
    2 ∅ {[ 5%nat := mkRegionRequest [1; 2] [None] (Some 42) ]}.

Lemma handleRequests_exchanges_witness :
  commands (trips region_only_final) = [CmdGetMeta [1; 2]; CmdTso 0].
Proof.
  apply (handleRequests_exchanges [ReqRegion 5] region_only_state region_only_final true).
  vm_compute. reflexivity.
Defined.

(** C5: for a batch with [n] timestamp requests (fewer than 2^32, pairwise
    distinct), [getTSFromRemote] makes a single exchange, a [TsoRequest]
    with number [n]; it returns timestamps exactly when the reply carries
    [n] of them and an error otherwise; and on success the request at
    position [i] of the batch's timestamp requests receives the timestamp
    at position [i] of the reply, followed by a [nil] completion. *)
Theorem tso_batch_paired_in_order
    (reqs : list request) (st st' : state) (ok : bool) :
  Z.of_nat (length (tso_ptrs reqs)) < 2 ^ 32 ->
  NoDup (tso_ptrs reqs) ->
  handleRequests reqs st = Ret (ok, st') ->
  exists ok1 st1 res st2 o,
    serve_regions reqs [] true st = Ret (tso_ptrs reqs, ok1, st1)
    /\ getTSFromRemote (length (tso_ptrs reqs)) st1 = (res, st2)
    /\ trips st2
       = trips st1 ++
         [mkTrip (newMsgID st1)
            (mkRequest (clusterID st) (CmdTso (Z.of_nat (length (tso_ptrs reqs))))) o]
    /\ trips st' = trips st2
    /\ (forall timestamps,
          res = inr timestamps <->
          exists rsp, o = Reply rsp /\ Tso rsp = Some timestamps
                      /\ length timestamps = length (tso_ptrs reqs))
    /\ (forall timestamps, res = inr timestamps ->
          forall i p, tso_ptrs reqs !! i = Some p ->
            exists r t,
              tsoReqs st !! p = Some r /\ timestamps !! i = Some t
              /\ tsoReqs st' !! p
                 = Some (mkTsoRequest (ts_done r ++ [None])
                           (GetPhysical t) (GetLogical t))).
Proof.
  intros Hn Hnd. unfold handleRequests.
  destruct (serve_regions reqs [] true st) as [[[tsos ok1] st1]| |] eqn:Es;
    try discriminate. simpl.
  pose proof Es as Es'.
  apply serve_regions_spec in Es' as (-> & (Hcl & _) & Ht1 & _ & _). simpl in *.
  destruct (getTSFromRemote (length (tso_ptrs reqs)) st1) as [res st2] eqn:Eg.
  pose proof Eg as Eg'.
  apply getTSFromRemote_spec in Eg' as (_ & Ht2 & _ & o & Htr & Hres).
  destruct (complete_tso (tso_ptrs reqs) res 0 st2) as [st3| |] eqn:Ec;
    try discriminate. simpl. intros [= _ <-].
  rewrite Z.mod_small, Hcl in Htr by lia.
  exists ok1, st1, res, st2, o.
  split; [reflexivity|]. split; [exact Eg|]. split; [exact Htr|].
  split; [apply complete_tso_frame in Ec; tauto|]. split; [exact Hres|].
  intros timestamps -> i p Hi.
  destruct (complete_tso_assigns _ _ _ _ _ Ec Hnd i p Hi) as (r & t & Er & Et & Efin).
  exists r, t. rewrite <- Ht1, <- Ht2. auto.
Qed.

(** Two timestamp requests, at addresses 4 and 3, submitted in this order. *)
Definition two_tso_state : state :=
  mkState 7 [] false Serving
    [Reply (mkResponse (Some [Some (mkTimestamp (Some 10) (Some 1));
                              Some (mkTimestamp (Some 10) (Some 2))]) None)]
    [] 0
    (<[ 3%nat := mkTsoRequest [] 0 0 ]> {[ 4%nat := mkTsoRequest [] 0 0 ]}) ∅.

Definition two_tso_final : state :=
  mkState 7 [] false Serving []
    [mkTrip 1 (mkRequest 7 (CmdTso 2))
       (Reply (mkResponse (Some [Some (mkTimestamp (Some 10) (Some 1));
                                 Some (mkTimestamp (Some 10) (Some 2))]) None))]
    1
    (<[ 3%nat := mkTsoRequest [None] 10 2 ]> {[ 4%nat := mkTsoRequest [None] 10 1 ]}) ∅.

Lemma tso_batch_paired_in_order_witness :
  exists ok1 st1 res st2 o,
    serve_regions [ReqTso 4; ReqTso 3] [] true two_tso_state = Ret ([4; 3]%nat, ok1, st1)
    /\ getTSFromRemote 2 st1 = (res, st2)
    /\ trips st2
       = trips st1 ++ [mkTrip (newMsgID st1) (mkRequest 7 (CmdTso 2)) o]
    /\ trips two_tso_final = trips st2
    /\ (forall timestamps,
          res = inr timestamps <->
          exists rsp, o = Reply rsp /\ Tso rsp = Some timestamps
                      /\ length timestamps = 2%nat)
    /\ (forall timestamps, res = inr timestamps ->
          forall i p, [4; 3]%nat !! i = Some p ->
            exists r t,
              tsoReqs two_tso_state !! p = Some r /\ timestamps !! i = Some t
              /\ tsoReqs two_tso_final !! p
                 = Some (mkTsoRequest (ts_done r ++ [None])
                           (GetPhysical t) (GetLogical t))).
Proof.
  apply (tso_batch_paired_in_order [ReqTso 4; ReqTso 3] two_tso_state two_tso_final true).
  - simpl. lia.
  - simpl. apply NoDup_cons. split; [|apply NoDup_singleton].
    intros H. apply list_elem_of_singleton in H. discriminate.
  - vm_compute. reflexivity.
Defined.

(** *** [stop] *)

#[global] Instance request_eq_dec : EqDecision request.
Proof. solve_decision. Defined.

(** How often a value sits in the queue. *)
Fixpoint occurrences (x : request) (q : list request) : nat :=
  match q with
  | [] => 0
  | y :: q' => ((if decide (x = y) then 1 else 0) + occurrences x q')%nat
  end.

Lemma occurrences_notin (x : request) (q : list request) :
  x ∉ q -> occurrences x q = 0%nat.
Proof.
  induction q as [|y q IH]; [reflexivity|]. intros H.
  apply not_elem_of_cons in H as [Hne Hq]. simpl.
  destruct (decide (x = y)); [contradiction|]. auto.
Qed.

Lemma occurrences_NoDup (x : request) (q : list request) :
  NoDup q -> x ∈ q -> occurrences x q = 1%nat.
Proof.
  induction 1 as [|y q Hy Hnd IH]; intros Hx; [inversion Hx|]. simpl.
  destruct (decide (x = y)) as [->|Hne].
  - rewrite occurrences_notin by assumption. reflexivity.
  - apply elem_of_cons in Hx as [?|Hx]; [contradiction|]. auto.
Qed.

Lemma handleRequests_ctl (reqs : list request) (st st' : state) (ok : bool) :
  handleRequests reqs st = Ret (ok, st') -> ctl_eq st st'.
Proof.
  unfold handleRequests.
  destruct (serve_regions reqs [] true st) as [[[tsos ok1] st1]| |] eqn:Es;
    try discriminate. simpl.
  apply serve_regions_spec in Es as (_ & Hc1 & _).
  destruct (getTSFromRemote (length tsos) st1) as [res st2] eqn:Eg.
  apply getTSFromRemote_spec in Eg as (Hc2 & _).
  destruct (complete_tso tsos res 0 st2) as [st3| |] eqn:Ec; try discriminate.
  simpl. intros [= _ <-]. apply complete_tso_frame in Ec as (Hc3 & _).
  eauto using ctl_eq_trans.
Qed.

(** No step of the worker or of a client reopens the quit channel. *)
Lemma work_step_quit (e : event) (st st' : state) :
  work_step e st = Ret st' -> quit st' = quit st.
Proof.
  destruct e as [peer|qc|qc|r]; simpl.
  - destruct (worker st); try discriminate. intros [= <-]. reflexivity.
  - destruct (worker st); try discriminate. destruct qc; [|congruence].
    destruct (quit st) eqn:Eq; [|discriminate]. intros [= <-]. exact Eq.
  - destruct (worker st); try discriminate. destruct qc.
    + destruct (quit st) eqn:Eq; [|discriminate]. intros [= <-]. exact Eq.
    + destruct (requests st) as [|x q]; [discriminate|].
      destruct (handleRequests (x :: q) (set_requests [] st)) as [[ok st1]| |] eqn:Eh;
        try discriminate. simpl.
      apply handleRequests_ctl in Eh as (_ & _ & Hq & _). simpl in Hq.
      destruct ok; intros [= <-]; assumption.
  - destruct (_ <? _); [|discriminate]. intros [= <-]. reflexivity.
Qed.

Lemma wait_spec (sched : list event) :
  forall st st', wait sched st = Ret st' -> worker st' = Exited /\ quit st' = quit st.
Proof.
  induction sched as [|e sched IH]; intros st st'; simpl.
  - destruct (worker st) eqn:Ew; try discriminate. intros [= <-]. auto.
  - destruct (worker st) eqn:Ew.
    + destruct (work_step e st) as [st1| |] eqn:Es; try discriminate. simpl.
      intros H. apply IH in H as [? ?]. apply work_step_quit in Es. split; congruence.
    + destruct (work_step e st) as [st1| |] eqn:Es; try discriminate. simpl.
      intros H. apply IH in H as [? ?]. apply work_step_quit in Es. split; congruence.
    + intros [= <-]. auto.
Qed.

Lemma tsoRequest_eta (r : tsoRequest) :
  mkTsoRequest (ts_done r ++ []) (physical r) (logical r) = r.
Proof. destruct r. simpl. rewrite app_nil_r. reflexivity. Qed.

Lemma regionRequest_eta (r : regionRequest) :
  mkRegionRequest (key r) (rg_done r ++ []) (region r) = r.
Proof. destruct r. simpl. rewrite app_nil_r. reflexivity. Qed.

(** Receiving as many values as [q] holds completes every entry of [q]
    with [err], once per entry, and leaves what queued up behind [q]. *)
Lemma drain_spec (err : error) (late q : list request) :
  forall st st',
    requests st = q ++ late -> drain (length q) err st = Ret st' ->
    requests st' = late /\ quit st' = quit st /\ worker st' = worker st
    /\ (forall p r, tsoReqs st !! p = Some r ->
          tsoReqs st' !! p
          = Some (mkTsoRequest
                    (ts_done r ++ replicate (occurrences (ReqTso p) q) (Some err))
                    (physical r) (logical r)))
    /\ (forall p r, regionReqs st !! p = Some r ->
          regionReqs st' !! p
          = Some (mkRegionRequest (key r)
                    (rg_done r ++ replicate (occurrences (ReqRegion p) q) (Some err))
                    (region r)))
    /\ (forall p, ReqTso p ∈ q -> is_Some (tsoReqs st !! p))
    /\ (forall p, ReqRegion p ∈ q -> is_Some (regionReqs st !! p)).
Proof.
  induction q as [|x q IH]; intros st st' Hq Hd; simpl in Hd.
  - injection Hd as <-. repeat split; try assumption.
    + intros p r E. simpl. rewrite tsoRequest_eta. assumption.
    + intros p r E. simpl. rewrite regionRequest_eta. assumption.
    + intros p H. inversion H.
    + intros p H. inversion H.
  - rewrite Hq in Hd. simpl in Hd.
    destruct x as [p0|p0|]; simpl in Hd.
    + destruct (tso_done p0 (Some err) (set_requests (q ++ late) st)) as [st2| |] eqn:Ed;
        try discriminate. simpl in Hd.
      apply tso_done_spec in Ed as (r0 & Er0 & Eh & (_ & Hq2 & Hquit & Hw) & Hr & _).
      simpl in *.
      destruct (IH st2 st' Hq2 Hd) as (H1 & H2 & H3 & H4 & H5 & H6 & H7).
      split; [assumption|]. split; [congruence|]. split; [congruence|].
      split; [|split; [|split]].
      * intros p r E. destruct (decide (ReqTso p = ReqTso p0)) as [[= ->]|Hne].
        -- rewrite E in Er0. injection Er0 as <-.
           rewrite (H4 p0 _ ltac:(rewrite Eh; apply lookup_insert_eq)). simpl.
           rewrite <- app_assoc. reflexivity.
        -- apply H4. rewrite Eh, lookup_insert_ne; [assumption|congruence].
      * intros p r E. apply H5. congruence.
      * intros p H. apply elem_of_cons in H as [[= ->]|H]; [eauto|].
        destruct (H6 p H) as [r Er]. rewrite Eh in Er.
        destruct (decide (p0 = p)) as [->|Hne]; [eauto|].
        rewrite lookup_insert_ne in Er by assumption. eauto.
      * intros p H. apply elem_of_cons in H as [?|H]; [discriminate|].
        rewrite <- Hr. auto.
    + destruct (region_done p0 (Some err) None (set_requests (q ++ late) st))
        as [st2| |] eqn:Ed; try discriminate. simpl in Hd.
      apply region_done_spec in Ed as (r0 & Er0 & Eh & (_ & Hq2 & Hquit & Hw) & Ht & _).
      simpl in *.
      destruct (IH st2 st' Hq2 Hd) as (H1 & H2 & H3 & H4 & H5 & H6 & H7).
      split; [assumption|]. split; [congruence|]. split; [congruence|].
      split; [|split; [|split]].
      * intros p r E. apply H4. congruence.
      * intros p r E. destruct (decide (ReqRegion p = ReqRegion p0)) as [[= ->]|Hne].
        -- rewrite E in Er0. injection Er0 as <-.
           rewrite (H5 p0 _ ltac:(rewrite Eh; apply lookup_insert_eq)). simpl.
           rewrite <- app_assoc. reflexivity.
        -- apply H5. rewrite Eh, lookup_insert_ne; [assumption|congruence].
      * intros p H. apply elem_of_cons in H as [?|H]; [discriminate|].
        rewrite <- Ht. auto.
      * intros p H. apply elem_of_cons in H as [[= ->]|H]; [eauto|].
        destruct (H7 p H) as [r Er]. rewrite Eh in Er.
        destruct (decide (p0 = p)) as [->|Hne]; [eauto|].
        rewrite lookup_insert_ne in Er by assumption. eauto.
    + destruct (IH (set_requests (q ++ late) st) st' eq_refl Hd)
        as (H1 & H2 & H3 & H4 & H5 & H6 & H7). simpl in *.
      repeat split; try assumption.
      * intros p H. apply elem_of_cons in H as [?|H]; [discriminate|]. auto.
      * intros p H. apply elem_of_cons in H as [?|H]; [discriminate|]. auto.
Qed.

(** The drain loop does not panic or block when every queued pointer
    refers to a request object. *)
Lemma drain_total (err : error) (late q : list request) :
  forall st,
    requests st = q ++ late ->
    (forall p, ReqTso p ∈ q -> is_Some (tsoReqs st !! p)) ->
    (forall p, ReqRegion p ∈ q -> is_Some (regionReqs st !! p)) ->
    exists st', drain (length q) err st = Ret st'.
Proof.
  induction q as [|x q IH]; intros st Hq Ht Hr; simpl; [eauto|].
  rewrite Hq. simpl. destruct x as [p0|p0|]; simpl.
  - destruct (Ht p0 ltac:(left)) as [r0 Er0]. unfold tso_done. simpl.
    rewrite Er0. simpl. apply IH; simpl; [reflexivity| |].
    + intros p H. destruct (decide (p0 = p)) as [->|Hne].
      * rewrite lookup_insert_eq. eauto.
      * rewrite lookup_insert_ne by assumption. apply Ht. right. assumption.
    + intros p H. apply Hr. right. assumption.
  - destruct (Hr p0 ltac:(left)) as [r0 Er0]. unfold region_done. simpl.
    rewrite Er0. simpl. apply IH; simpl; [reflexivity| |].
    + intros p H. apply Ht. right. assumption.
    + intros p H. destruct (decide (p0 = p)) as [->|Hne].
      * rewrite lookup_insert_eq. eauto.
      * rewrite lookup_insert_ne by assumption. apply Hr. right. assumption.
  - apply IH; simpl; [reflexivity| |].
    + intros p H. apply Ht. right. assumption.
    + intros p H. apply Hr. right. assumption.
Qed.

(** [stop] returns: once quit is closed the select of a serving worker can
    take the quit case, and the drain then runs to its end. *)
Lemma stop_returns (err : error) (late : list request) (st : state) :
  quit st = false -> worker st = Serving ->
  (forall p, ReqTso p ∈ requests st -> is_Some (tsoReqs st !! p)) ->
  (forall p, ReqRegion p ∈ requests st -> is_Some (regionReqs st !! p)) ->
  exists st', stop err [EvSelect true] late st = Ret st'.
Proof.
  intros Hq Hw Ht Hr. unfold stop. rewrite Hq. simpl. rewrite Hw. simpl.
  apply (drain_total err late); simpl; auto.
Qed.

(** A serving worker with one queued timestamp request, at address 4;
    the request at address 5 is submitted while the drain loop of [stop]
    runs. *)
Definition late_example : state :=
  mkState 7 [ReqTso 4] false Serving [] [] 0
    (<[ 5%nat := mkTsoRequest [] 0 0 ]> {[ 4%nat := mkTsoRequest [] 0 0 ]}) ∅.

(** C9, as stated, fails: [stop] evaluates [len(w.requests)] once and
    receives that many values, and the channel is never closed.  A
    request that a client sends after that point is still queued when
    [stop] returns and has no completion: here request 4 got the error
    and request 5 got nothing. *)
Lemma stop_leaves_late_request_queued :
  match stop (ErrCaller 1) [EvSelect true] [ReqTso 5] late_example with
  | Ret st' =>
      Some (quit st', worker st', requests st',
            ts_done <$> tsoReqs st' !! 4%nat, ts_done <$> tsoReqs st' !! 5%nat)
  | _ => None
  end
  = Some (true, Exited, [ReqTso 5], Some [Some (ErrCaller 1)], Some []).
Proof. vm_compute. reflexivity. Qed.

(** C9, amended: when [stop err] returns, the quit channel is closed and
    the worker has exited; every request that was queued when the worker
    exited has received [err] on its completion channel once per entry in
    the queue, hence exactly once when the queue holds it once.  The
    requests [late] that clients sent while the drain loop was running are
    left in the channel, and a request that was not queued when the worker
    exited gets no completion from [stop]; the channel is empty only when
    there were no such sends. *)
Theorem stop_completes_queued_requests
    (err : error) (sched : list event) (late : list request) (st st' : state) :
  stop err sched late st = Ret st' ->
  quit st' = true /\ worker st' = Exited /\ requests st' = late
  /\ exists st1,
       wait sched (set_quit true st) = Ret st1
       /\ (forall p, ReqTso p ∈ requests st1 ->
             exists r, tsoReqs st1 !! p = Some r
               /\ tsoReqs st' !! p
                  = Some (mkTsoRequest
                            (ts_done r ++
                               replicate (occurrences (ReqTso p) (requests st1)) (Some err))
                            (physical r) (logical r)))
       /\ (forall p, ReqRegion p ∈ requests st1 ->
             exists r, regionReqs st1 !! p = Some r
               /\ regionReqs st' !! p
                  = Some (mkRegionRequest (key r)
                            (rg_done r ++
                               replicate (occurrences (ReqRegion p) (requests st1)) (Some err))
                            (region r)))
       /\ (NoDup (requests st1) ->
           forall x, x ∈ requests st1 ->
             replicate (occurrences x (requests st1)) (Some err) = [Some err])
       /\ (forall p r, ReqTso p ∉ requests st1 -> tsoReqs st1 !! p = Some r ->
             tsoReqs st' !! p = Some r)
       /\ (forall p r, ReqRegion p ∉ requests st1 -> regionReqs st1 !! p = Some r ->
             regionReqs st' !! p = Some r).
Proof.
  unfold stop. destruct (quit st) eqn:Eq; [discriminate|].
  destruct (wait sched (set_quit true st)) as [st1| |] eqn:Ew; try discriminate.
  simpl. intros Hd.
  apply wait_spec in Ew as [Hex Hquit]. simpl in Hquit.
  apply (drain_spec err late (requests st1)) in Hd as (H1 & H2 & H3 & H4 & H5 & H6 & H7);
    [|reflexivity]. simpl in *.
  split; [congruence|]. split; [congruence|]. split; [assumption|].
  exists st1. split; [reflexivity|]. split; [|split; [|split; [|split]]].
  - intros p Hp. destruct (H6 p Hp) as [r Er]. eauto.
  - intros p Hp. destruct (H7 p Hp) as [r Er]. eauto.
  - intros Hnd x Hx. rewrite occurrences_NoDup by assumption. reflexivity.
  - intros p r Hp Er. rewrite (H4 p r Er), occurrences_notin by exact Hp.
    simpl. rewrite tsoRequest_eta. reflexivity.
  - intros p r Hp Er. rewrite (H5 p r Er), occurrences_notin by exact Hp.
    simpl. rewrite regionRequest_eta. reflexivity.
Qed.

(** A serving worker with three queued values, two of them timestamp
    requests; it exits on quit and [stop] fails both requests. *)
Definition stop_example : state :=
  mkState 7 [ReqTso 4; ReqOther; ReqTso 3] false Serving [] [] 0
    (<[ 3%nat := mkTsoRequest [] 0 0 ]> {[ 4%nat := mkTsoRequest [] 0 0 ]}) ∅.

Definition stop_example_final : state :=
  mkState 7 [] true Exited [] [] 0
    (<[ 3%nat := mkTsoRequest [Some (ErrCaller 1)] 0 0 ]>
       {[ 4%nat := mkTsoRequest [Some (ErrCaller 1)] 0 0 ]}) ∅.

Lemma stop_completes_queued_requests_witness :
  quit stop_example_final = true /\ worker stop_example_final = Exited
  /\ requests stop_example_final = [].
Proof.
  pose proof (stop_completes_queued_requests (ErrCaller 1) [EvSelect true] []
                stop_example stop_example_final) as H.
  destruct H as (H1 & H2 & H3 & _); [vm_compute; reflexivity|].
  auto.
Defined.

(** *** What each request of a batch is told *)

(** The outcome of the [j]-th exchange made from [st] on; a connection
    with nothing more to say lets the read time out. *)
Definition outcome_at (j : nat) (st : state) : rpc_outcome :=
  default (ReadErr 0) (outcomes st !! j).

(** How [getRegionFromRemote] and [getTSFromRemote] read an outcome. *)
Definition region_reply (o : rpc_outcome) : error + Region :=
  match o with
  | WriteErr c => inl (ErrRpc c)
  | ReadErr c => inl (ErrRpc c)
  | Reply rsp =>
      match GetMeta rsp with
      | None => inl ErrGetMetaNotSet
      | Some None => inl ErrRegionNotSet
      | Some (Some r) => inr r
      end
  end.

Definition tso_reply (n : nat) (o : rpc_outcome) : error + list (option Timestamp) :=
  match o with
  | WriteErr c => inl (ErrRpc c)
  | ReadErr c => inl (ErrRpc c)
  | Reply rsp =>
      match Tso rsp with
      | None => inl ErrTsoNotSet
      | Some timestamps =>
          if Nat.eqb (length timestamps) n then inr timestamps else inl ErrTsoLength
      end
  end.

(** The region requests of a batch, in submission order. *)
Fixpoint region_ptrs (reqs : list request) : list nat :=
  match reqs with
  | [] => []
  | ReqRegion p :: rest => p :: region_ptrs rest
  | _ :: rest => region_ptrs rest
  end.

(** A region request after [handleRequests] is done with it. *)
Definition region_completed (r : regionRequest) (res : error + Region) : regionRequest :=
  match res with
  | inl err => mkRegionRequest (key r) (rg_done r ++ [Some err]) (region r)
  | inr rg => mkRegionRequest (key r) (rg_done r ++ [None]) (Some rg)
  end.

Lemma exchange_outcome (req : Request) (st st' : state) (o : rpc_outcome) :
  exchange req st = (o, st') ->
  o = outcome_at 0 st /\ forall j, outcome_at j st' = outcome_at (S j) st.
Proof.
  unfold exchange, outcome_at. destruct (outcomes st) as [|o1 rest];
    intros [= <- <-]; split; try reflexivity; intros j; simpl; reflexivity.
Qed.

Lemma getRegionFromRemote_reply (k : list Z) (st st' : state) (res : error + Region) :
  getRegionFromRemote k st = (res, st') ->
  res = region_reply (outcome_at 0 st)
  /\ forall j, outcome_at j st' = outcome_at (S j) st.
Proof.
  unfold getRegionFromRemote. destruct (exchange _ st) as [o st1] eqn:Ex.
  apply exchange_outcome in Ex as [<- Hj]. unfold region_reply.
  destruct o as [c|c|rsp]; [| |destruct (GetMeta rsp) as [[r|]|]];
    intros [= <- <-]; auto.
Qed.

Lemma getTSFromRemote_reply (n : nat) (st st' : state)
    (res : error + list (option Timestamp)) :
  getTSFromRemote n st = (res, st') -> res = tso_reply n (outcome_at 0 st).
Proof.
  unfold getTSFromRemote. destruct (exchange _ st) as [o st1] eqn:Ex.
  apply exchange_outcome in Ex as [<- Hj]. unfold tso_reply.
  destruct o as [c|c|rsp]; [| |destruct (Tso rsp) as [ts|];
    [destruct (Nat.eqb (length ts) n)|]]; intros [= <- <-]; auto.
Qed.

Lemma region_done_outcomes (p : nat) (e : option error) (rg : option Region)
    (st st' : state) :
  region_done p e rg st = Ret st' -> forall j, outcome_at j st' = outcome_at j st.
Proof.
  unfold region_done. destruct (regionReqs st !! p); [|discriminate].
  intros [= <-] j. reflexivity.
Qed.

Lemma region_done_completed (p : nat) (res : error + Region) (st st' : state) :
  match res with
  | inl err => region_done p (Some err) None st
  | inr rg => region_done p None (Some rg) st
  end = Ret st' ->
  exists r, regionReqs st !! p = Some r
    /\ regionReqs st' = <[p := region_completed r res]> (regionReqs st)
    /\ forall j, outcome_at j st' = outcome_at j st.
Proof.
  intros H.
  assert (forall j, outcome_at j st' = outcome_at j st) as Ho
    by (destruct res; eapply region_done_outcomes; eassumption).
  destruct res as [err|rg]; apply region_done_spec in H as (r & Er & Eh & _);
    exists r; auto.
Qed.

(** One region request of the first loop. *)
Lemma serve_regions_cons (p : nat) (rest : list request) (tsos : list nat)
    (ok : bool) (st : state) (x : list nat * bool * state) :
  serve_regions (ReqRegion p :: rest) tsos ok st = Ret x ->
  exists r st2,
    regionReqs st !! p = Some r
    /\ regionReqs st2
       = <[p := region_completed r (region_reply (outcome_at 0 st))]> (regionReqs st)
    /\ (forall j, outcome_at j st2 = outcome_at (S j) st)
    /\ serve_regions rest tsos
         (match region_reply (outcome_at 0 st) with inl _ => false | inr _ => ok end)
         st2 = Ret x.
Proof.
  simpl. destruct (regionReqs st !! p) as [r|] eqn:Er; [|discriminate].
  destruct (getRegionFromRemote (key r) st) as [res st1] eqn:Eg.
  pose proof (getRegionFromRemote_spec _ _ _ _ Eg) as (_ & _ & Hr1 & _).
  apply getRegionFromRemote_reply in Eg as [-> Ho1].
  intros H.
  assert (exists st2,
            match region_reply (outcome_at 0 st) with
            | inl err => region_done p (Some err) None st1
            | inr rg => region_done p None (Some rg) st1
            end = Ret st2
            /\ serve_regions rest tsos
                 (match region_reply (outcome_at 0 st) with
                  | inl _ => false | inr _ => ok end) st2 = Ret x) as (st2 & Ed & Es).
  { destruct (region_reply (outcome_at 0 st)) as [err|rg];
      [destruct (region_done p (Some err) None st1) as [st2| |]
      |destruct (region_done p None (Some rg) st1) as [st2| |]];
      try discriminate; exists st2; auto. }
  apply region_done_completed in Ed as (r1 & Er1 & Eh & Ho2).
  rewrite Hr1, Er in Er1. injection Er1 as <-.
  exists r, st2. split; [reflexivity|]. split; [rewrite Eh, Hr1; reflexivity|].
  split; [intros j; rewrite Ho2; apply Ho1|exact Es].
Qed.

Lemma serve_regions_replies (reqs : list request) :
  forall (tsos : list nat) (ok : bool) (st : state)
         (tsos' : list nat) (ok' : bool) (st' : state),
    serve_regions reqs tsos ok st = Ret (tsos', ok', st') ->
    (forall j, outcome_at j st' = outcome_at (length (region_ptrs reqs) + j) st)
    /\ (ok' = true <->
        ok = true
        /\ forall j, (j < length (region_ptrs reqs))%nat ->
                     exists rg, region_reply (outcome_at j st) = inr rg)
    /\ (forall q, q ∉ region_ptrs reqs -> regionReqs st' !! q = regionReqs st !! q)
    /\ (NoDup (region_ptrs reqs) ->
        forall j p, region_ptrs reqs !! j = Some p ->
          exists r, regionReqs st !! p = Some r
            /\ regionReqs st' !! p
               = Some (region_completed r (region_reply (outcome_at j st)))).
Proof.
  induction reqs as [|[p|p|] rest IH]; intros tsos ok st tsos' ok' st' H.
  - simpl in H. injection H as <- <- <-. simpl.
    split; [reflexivity|]. split; [split; [intros ->; split; [reflexivity|lia]|tauto]|].
    split; [reflexivity|]. intros _ j p Hj. discriminate.
  - simpl in H. apply IH in H. exact H.
  - apply serve_regions_cons in H as (r & st2 & Er & Eh & Ho & H).
    apply IH in H as (Ho' & Hok & Hfr & Hdone). cbn [region_ptrs length].
    split; [intros j; rewrite Ho', Ho; f_equal; lia|].
    split; [|split].
    + rewrite Hok. split.
      * intros [Eok Hall]. destruct (region_reply (outcome_at 0 st)) as [err|rg] eqn:E0;
          [discriminate|]. split; [exact Eok|].
        intros [|j] Hj; [eauto|]. rewrite <- Ho. apply Hall. lia.
      * intros [Eok Hall]. destruct (Hall 0%nat ltac:(lia)) as [rg ->].
        split; [exact Eok|]. intros j Hj. rewrite Ho. apply Hall. lia.
    + intros q Hq. apply not_elem_of_cons in Hq as [Hne Hq].
      rewrite Hfr, Eh by assumption. apply lookup_insert_ne. congruence.
    + intros Hnd j q Hj. apply NoDup_cons in Hnd as [Hp Hnd].
      destruct j as [|j]; simpl in Hj.
      * injection Hj as <-. exists r. split; [exact Er|].
        rewrite Hfr, Eh by assumption. apply lookup_insert_eq.
      * destruct (Hdone Hnd j q Hj) as (r1 & Er1 & Efin). exists r1.
        rewrite Eh, lookup_insert_ne in Er1.
        -- split; [exact Er1|]. rewrite Efin, Ho. reflexivity.
        -- intros ->. apply Hp. eapply list_elem_of_lookup_2; eassumption.
  - simpl in H. apply IH in H. exact H.
Qed.

Lemma complete_tso_fails (err : error) (tsos : list nat) :
  forall (i : nat) (st st' : state),
    complete_tso tsos (inl err) i st = Ret st' -> NoDup tsos ->
    forall p, p ∈ tsos ->
      exists r, tsoReqs st !! p = Some r
        /\ tsoReqs st' !! p
           = Some (mkTsoRequest (ts_done r ++ [Some err]) (physical r) (logical r)).
Proof.
  induction tsos as [|p rest IH]; intros i st st' H Hnd q Hq;
    [apply elem_of_nil in Hq; destruct Hq|].
  simpl in H. destruct (tso_done p (Some err) st) as [st1| |] eqn:Ed; try discriminate.
  simpl in H. apply tso_done_spec in Ed as (r & Er & Eh & _).
  apply NoDup_cons in Hnd as [Hp Hnd]. apply elem_of_cons in Hq as [->|Hq].
  - exists r. split; [exact Er|].
    apply complete_tso_frame in H as (_ & _ & _ & Hfr).
    rewrite Hfr, Eh by assumption. apply lookup_insert_eq.
  - destruct (IH (S i) st1 st' H Hnd q Hq) as (r1 & Er1 & Efin). exists r1.
    rewrite Eh, lookup_insert_ne in Er1; [auto|]. intros ->. contradiction.
Qed.

(** [handleRequests], cut at the exchange for the batch's timestamps. *)
Lemma handleRequests_parts (reqs : list request) (st st' : state) (ok : bool) :
  handleRequests reqs st = Ret (ok, st') ->
  exists ok1 st1 st2,
    serve_regions reqs [] true st = Ret (tso_ptrs reqs, ok1, st1)
    /\ getTSFromRemote (length (tso_ptrs reqs)) st1
       = (tso_reply (length (tso_ptrs reqs))
            (outcome_at (length (region_ptrs reqs)) st), st2)
    /\ complete_tso (tso_ptrs reqs)
         (tso_reply (length (tso_ptrs reqs)) (outcome_at (length (region_ptrs reqs)) st))
         0 st2 = Ret st'
    /\ ok = match tso_reply (length (tso_ptrs reqs))
                    (outcome_at (length (region_ptrs reqs)) st) with
            | inl _ => false
            | inr _ => ok1
            end.
Proof.
  unfold handleRequests.
  destruct (serve_regions reqs [] true st) as [[[tsos ok1] st1]| |] eqn:Es;
    try discriminate. simpl.
  pose proof (serve_regions_spec _ _ _ _ _ _ _ Es) as (-> & _). simpl.
  pose proof (serve_regions_replies _ _ _ _ _ _ _ Es) as (Ho & _).
  destruct (getTSFromRemote (length (tso_ptrs reqs)) st1) as [res st2] eqn:Eg.
  pose proof (getTSFromRemote_reply _ _ _ _ Eg) as Er.
  rewrite Ho, Nat.add_0_r in Er. subst res.
  destruct (complete_tso _ _ 0 st2) as [st3| |] eqn:Ec; try discriminate.
  simpl. intros [= <- <-]. exists ok1, st1, st2. auto.
Qed.

(** A batch of two region and two timestamp requests on a connection that
    answers the first exchange, fails the second and then stays silent. *)
Definition mixed_state : state :=
  mkState 7 [] false Serving
    [Reply (mkResponse None (Some (Some 42))); ReadErr 9] [] 0
    (<[ 3%nat := mkTsoRequest [] 0 0 ]> {[ 4%nat := mkTsoRequest [] 0 0 ]})
    (<[ 6%nat := mkRegionRequest [3] [] None ]> {[ 5%nat := mkRegionRequest [1; 2] [] None ]}).

Definition mixed_batch : list request := [ReqRegion 5; ReqTso 4; ReqRegion 6; ReqTso 3].

Definition mixed_final : state :=
  mkState 7 [] false Serving []
    [mkTrip 1 (mkRequest 7 (CmdGetMeta [1; 2])) (Reply (mkResponse None (Some (Some 42))));
     mkTrip 2 (mkRequest 7 (CmdGetMeta [3])) (ReadErr 9);
     mkTrip 3 (mkRequest 7 (CmdTso 2)) (ReadErr 0)]
    3
    (<[ 3%nat := mkTsoRequest [Some (ErrRpc 0)] 0 0 ]>
       {[ 4%nat := mkTsoRequest [Some (ErrRpc 0)] 0 0 ]})
    (<[ 6%nat := mkRegionRequest [3] [Some (ErrRpc 9)] None ]>
       {[ 5%nat := mkRegionRequest [1; 2] [None] (Some 42) ]}).

Lemma mixed_run : handleRequests mixed_batch mixed_state = Ret (false, mixed_final).
Proof. vm_compute. reflexivity. Qed.

(** X7: in a batch whose region requests are pairwise distinct, the
    [j]-th region request is completed exactly once, from the [j]-th
    exchange on the connection: with the region of the reply and a nil
    error, or with the error and its region field untouched.  A failed
    exchange does not keep the later requests from being served. *)
Theorem handleRequests_completes_region_requests
    (reqs : list request) (st st' : state) (ok : bool) (j p : nat) :
  handleRequests reqs st = Ret (ok, st') ->
  NoDup (region_ptrs reqs) ->
  region_ptrs reqs !! j = Some p ->
  exists r, regionReqs st !! p = Some r
    /\ regionReqs st' !! p
       = Some (region_completed r (region_reply (outcome_at j st))).
Proof.
  intros H Hnd Hj.
  apply handleRequests_parts in H as (ok1 & st1 & st2 & Es & Eg & Ec & _).
  apply serve_regions_replies in Es as (_ & _ & _ & Hdone).
  destruct (Hdone Hnd j p Hj) as (r & Er & Efin). exists r. split; [exact Er|].
  apply getTSFromRemote_spec in Eg as (_ & _ & Hr2 & _).
  apply complete_tso_frame in Ec as (_ & Hr3 & _).
  rewrite Hr3, Hr2. exact Efin.
Qed.

Lemma handleRequests_completes_region_requests_witness :
  exists r, regionReqs mixed_state !! 6%nat = Some r
    /\ regionReqs mixed_final !! 6%nat
       = Some (region_completed r (region_reply (outcome_at 1 mixed_state))).
Proof.
  apply (handleRequests_completes_region_requests mixed_batch mixed_state mixed_final
           false 1 6).
  - vm_compute. reflexivity.
  - simpl. apply NoDup_cons. split; [|apply NoDup_singleton].
    intros H. apply list_elem_of_singleton in H. discriminate.
  - reflexivity.
Defined.

(** X8: [handleRequests] reports success exactly when every exchange of
    the batch succeeded: each region request got a region, and the reply to
    the timestamp request carried as many timestamps as were asked for. *)
Theorem handleRequests_ok_iff_all_exchanges_succeed
    (reqs : list request) (st st' : state) (ok : bool) :
  handleRequests reqs st = Ret (ok, st') ->
  ok = true <->
  (forall j, (j < length (region_ptrs reqs))%nat ->
             exists rg, region_reply (outcome_at j st) = inr rg)
  /\ exists ts, tso_reply (length (tso_ptrs reqs))
                  (outcome_at (length (region_ptrs reqs)) st) = inr ts.
Proof.
  intros H.
  apply handleRequests_parts in H as (ok1 & st1 & st2 & Es & _ & _ & ->).
  apply serve_regions_replies in Es as (_ & Hok & _).
  destruct (tso_reply _ _) as [err|ts].
  - split; [discriminate|]. intros (_ & ts & E). discriminate.
  - rewrite Hok. split; [intros [_ Hall]; eauto|]. intros [Hall _]. auto.
Qed.

Lemma handleRequests_ok_iff_all_exchanges_succeed_witness :
  false = true <->
  (forall j, (j < length (region_ptrs mixed_batch))%nat ->
             exists rg, region_reply (outcome_at j mixed_state) = inr rg)
  /\ exists ts, tso_reply (length (tso_ptrs mixed_batch))
                  (outcome_at (length (region_ptrs mixed_batch)) mixed_state) = inr ts.
Proof.
  apply (handleRequests_ok_iff_all_exchanges_succeed mixed_batch mixed_state mixed_final).
  vm_compute. reflexivity.
Defined.

(** X9: when the exchange for the batch's timestamps fails, every
    timestamp request of the batch (pairwise distinct) receives that error
    once; its physical and logical fields are left as they were, and the
    batch is reported as failed. *)
Theorem handleRequests_tso_failure
    (reqs : list request) (st st' : state) (ok : bool) (err : error) (p : nat) :
  handleRequests reqs st = Ret (ok, st') ->
  NoDup (tso_ptrs reqs) ->
  tso_reply (length (tso_ptrs reqs)) (outcome_at (length (region_ptrs reqs)) st)
    = inl err ->
  p ∈ tso_ptrs reqs ->
  ok = false
  /\ exists r, tsoReqs st !! p = Some r
       /\ tsoReqs st' !! p
          = Some (mkTsoRequest (ts_done r ++ [Some err]) (physical r) (logical r)).
Proof.
  intros H Hnd Hf Hp.
  apply handleRequests_parts in H as (ok1 & st1 & st2 & Es & Eg & Ec & ->).
  rewrite Hf in *. split; [reflexivity|].
  destruct (complete_tso_fails _ _ _ _ _ Ec Hnd p Hp) as (r & Er & Efin).
  exists r. split; [|exact Efin].
  apply serve_regions_spec in Es as (_ & _ & Ht1 & _).
  apply getTSFromRemote_spec in Eg as (_ & Ht2 & _).
  rewrite <- Ht1, <- Ht2. exact Er.
Qed.

Lemma handleRequests_tso_failure_witness :
  false = false
  /\ exists r, tsoReqs mixed_state !! 3%nat = Some r
       /\ tsoReqs mixed_final !! 3%nat
          = Some (mkTsoRequest (ts_done r ++ [Some (ErrRpc 0)]) (physical r) (logical r)).
Proof.
  apply (handleRequests_tso_failure mixed_batch mixed_state mixed_final false
           (ErrRpc 0) 3).
  - vm_compute. reflexivity.
  - simpl. apply NoDup_cons. split; [|apply NoDup_singleton].
    intros H. apply list_elem_of_singleton in H. discriminate.
  - reflexivity.
  - simpl. right. left.
Defined.

(** *** Running to completion *)

Lemma serve_regions_total (reqs : list request) :
  forall (tsos : list nat) (ok : bool) (st : state),
    (forall p, p ∈ region_ptrs reqs -> is_Some (regionReqs st !! p)) ->
    exists x, serve_regions reqs tsos ok st = Ret x.
Proof.
  induction reqs as [|[p|p|] rest IH]; intros tsos ok st Hr; simpl.
  - eauto.
  - apply IH. exact Hr.
  - destruct (Hr p ltac:(simpl; left)) as [r Er]. rewrite Er.
    destruct (getRegionFromRemote (key r) st) as [res st1] eqn:Eg.
    apply getRegionFromRemote_spec in Eg as (_ & _ & Hr1 & _).
    assert (forall e rg ok0,
              exists x, (do st2 <- region_done p e rg st1;
                         serve_regions rest tsos ok0 st2) = Ret x) as Hstep.
    { intros e rg ok0. unfold region_done. rewrite Hr1, Er. simpl.
      apply IH. intros q Hq. simpl. destruct (decide (p = q)) as [->|Hne].
      - rewrite lookup_insert_eq. eauto.
      - rewrite lookup_insert_ne by assumption. apply Hr. simpl. right. exact Hq. }
    destruct res; apply Hstep.
  - apply IH. exact Hr.
Qed.

Lemma complete_tso_total (res : error + list (option Timestamp)) (tsos : list nat) :
  forall (i : nat) (st : state),
    (forall p, p ∈ tsos -> is_Some (tsoReqs st !! p)) ->
    (forall ts, res = inr ts -> (i + length tsos <= length ts)%nat) ->
    exists st', complete_tso tsos res i st = Ret st'.
Proof.
  induction tsos as [|p rest IH]; intros i st Ht Hlen; simpl; [eauto|].
  destruct (Ht p ltac:(left)) as [r Er].
  assert (forall r', forall q, q ∈ rest ->
            is_Some (tsoReqs (set_tsoReqs (<[p := r']> (tsoReqs st)) st) !! q)) as Hdom.
  { intros r' q Hq. simpl. destruct (decide (p = q)) as [->|Hne].
    - rewrite lookup_insert_eq. eauto.
    - rewrite lookup_insert_ne by assumption. apply Ht. right. exact Hq. }
  assert (forall ts, res = inr ts -> (S i + length rest <= length ts)%nat) as Hlen'
    by (intros ts E; specialize (Hlen ts E); simpl in Hlen; lia).
  destruct res as [err|ts].
  - unfold tso_done. rewrite Er. simpl. apply IH; auto.
  - specialize (Hlen ts eq_refl). simpl in Hlen.
    destruct (lookup_lt_is_Some_2 ts i ltac:(lia)) as [t Et]. rewrite Et.
    unfold tso_assign. rewrite Er. simpl. apply IH; auto.
Qed.

(** X10: as long as no request of the batch is a nil pointer,
    [handleRequests] runs to completion whatever the peer sends: the length
    check of [getTSFromRemote] keeps [ts[i]] within bounds, and a request
    that sits in the batch twice is simply completed twice. *)
Theorem handleRequests_does_not_panic (reqs : list request) (st : state) :
  (forall p, p ∈ tso_ptrs reqs -> is_Some (tsoReqs st !! p)) ->
  (forall p, p ∈ region_ptrs reqs -> is_Some (regionReqs st !! p)) ->
  exists ok st', handleRequests reqs st = Ret (ok, st').
Proof.
  intros Ht Hr. unfold handleRequests.
  destruct (serve_regions_total reqs [] true st Hr) as [[[tsos ok1] st1] Es].
  rewrite Es. simpl.
  apply serve_regions_spec in Es as (-> & _ & Ht1 & _). simpl.
  destruct (getTSFromRemote (length (tso_ptrs reqs)) st1) as [res st2] eqn:Eg.
  pose proof (getTSFromRemote_spec _ _ _ _ Eg) as (_ & Ht2 & _ & o & _ & Hres).
  destruct (complete_tso_total res (tso_ptrs reqs) 0 st2) as [st3 Ec].
  - intros p Hp. rewrite Ht2, Ht1. apply Ht. exact Hp.
  - intros ts E. apply Hres in E as (rsp & _ & _ & Hl). simpl. lia.
  - rewrite Ec. simpl. eauto.
Qed.

Lemma handleRequests_does_not_panic_witness :
  exists ok st', handleRequests mixed_batch mixed_state = Ret (ok, st').
Proof.
  apply (handleRequests_does_not_panic mixed_batch mixed_state).
  - intros p Hp. simpl in Hp.
    apply elem_of_cons in Hp as [->|Hp]; [vm_compute; eauto|].
    apply list_elem_of_singleton in Hp as ->. vm_compute. eauto.
  - intros p Hp. simpl in Hp.
    apply elem_of_cons in Hp as [->|Hp]; [vm_compute; eauto|].
    apply list_elem_of_singleton in Hp as ->. vm_compute. eauto.
Defined.

(** *** The worker's loop *)

(** X11: one turn of the serving loop takes the whole queue; the worker
    keeps its connection exactly when every exchange of the batch
    succeeded, and otherwise closes it and goes back to dialling. *)
Theorem work_reconnects_iff_exchange_failed (st st' : state) :
  worker st = Serving -> requests st <> [] ->
  work_step (EvSelect false) st = Ret st' ->
  requests st' = []
  /\ (worker st' = Serving \/ (worker st' = Dialing /\ outcomes st' = []))
  /\ (worker st' = Serving <->
      (forall j, (j < length (region_ptrs (requests st)))%nat ->
                 exists rg, region_reply (outcome_at j st) = inr rg)
      /\ exists ts, tso_reply (length (tso_ptrs (requests st)))
                      (outcome_at (length (region_ptrs (requests st))) st) = inr ts).
Proof.
  intros Hw Hq. simpl. rewrite Hw.
  destruct (requests st) as [|x q] eqn:Eq; [contradiction|].
  destruct (handleRequests (x :: q) (set_requests [] st)) as [[ok st1]| |] eqn:Eh;
    try discriminate. simpl.
  pose proof (handleRequests_ctl _ _ _ _ Eh) as (_ & Hq1 & _ & Hw1).
  simpl in Hq1, Hw1. rewrite Hw in Hw1.
  apply handleRequests_parts in Eh as (ok1 & st2 & st3 & Es & _ & _ & Hok).
  apply serve_regions_replies in Es as (_ & Hok1 & _).
  change (outcome_at (length (region_ptrs (x :: q))) (set_requests [] st))
    with (outcome_at (length (region_ptrs (x :: q))) st) in Hok.
  assert (forall j, outcome_at j (set_requests [] st) = outcome_at j st) as Ho
    by reflexivity.
  destruct (tso_reply _ _) as [err|ts]; subst ok.
  - intros [= <-]. simpl. split; [exact Hq1|]. split; [right; auto|].
    split; [discriminate|]. intros (_ & ts & E). discriminate.
  - destruct ok1; intros [= <-]; simpl.
    + split; [exact Hq1|]. split; [left; exact Hw1|].
      split; [|intros _; exact Hw1]. intros _. split; [|eauto].
      intros j Hj. rewrite <- Ho. apply Hok1; [reflexivity|exact Hj].
    + split; [exact Hq1|]. split; [right; auto|].
      split; [discriminate|]. intros [Hall _].
      assert (false = true) as Hf; [|discriminate].
      apply Hok1. split; [reflexivity|]. intros j Hj. rewrite Ho. apply Hall. exact Hj.
Qed.

Lemma work_reconnects_iff_exchange_failed_witness :
  requests (set_worker Dialing [] mixed_final) = []
  /\ (worker (set_worker Dialing [] mixed_final) = Serving
      \/ (worker (set_worker Dialing [] mixed_final) = Dialing
          /\ outcomes (set_worker Dialing [] mixed_final) = []))
  /\ (worker (set_worker Dialing [] mixed_final) = Serving <->
      (forall j,
         (j < length (region_ptrs (requests (set_requests mixed_batch mixed_state))))%nat ->
         exists rg,
           region_reply (outcome_at j (set_requests mixed_batch mixed_state)) = inr rg)
      /\ exists ts,
           tso_reply (length (tso_ptrs (requests (set_requests mixed_batch mixed_state))))
             (outcome_at
                (length (region_ptrs (requests (set_requests mixed_batch mixed_state))))
                (set_requests mixed_batch mixed_state)) = inr ts).
Proof.
  apply (work_reconnects_iff_exchange_failed (set_requests mixed_batch mixed_state)
           (set_worker Dialing [] mixed_final)).
  - reflexivity.
  - discriminate.
  - vm_compute. reflexivity.
Defined.

Lemma work_step_exit (e : event) (st st' : state) :
  work_step e st = Ret st' -> worker st <> Exited -> worker st' = Exited ->
  quit st = true.
Proof.
  destruct e as [peer|qc|qc|r]; simpl.
  - destruct (worker st); try discriminate. intros [= <-]. discriminate.
  - destruct (worker st) eqn:Ew; try discriminate. destruct qc.
    + destruct (quit st); [reflexivity|discriminate].
    + intros [= <-] _ E. congruence.
  - destruct (worker st) eqn:Ew; try discriminate. destruct qc.
    + destruct (quit st); [reflexivity|discriminate].
    + destruct (requests st) as [|x q]; [discriminate|].
      destruct (handleRequests (x :: q) (set_requests [] st)) as [[ok st1]| |] eqn:Eh;
        try discriminate. simpl.
      apply handleRequests_ctl in Eh as (_ & _ & _ & Hw). simpl in Hw.
      destruct ok; intros [= <-] _ E; simpl in E; congruence.
  - destruct (_ <? _); [|discriminate]. intros [= <-] Hne E. contradiction.
Qed.

(** X12: the worker goroutine returns only once the quit channel has been
    closed: whatever the network and the clients do, [w.wg.Wait()] does not
    come back from a worker that was never told to stop. *)
Theorem work_exits_only_after_quit (sched : list event) (st st' : state) :
  wait sched st = Ret st' -> worker st <> Exited ->
  quit st = true /\ quit st' = true /\ worker st' = Exited.
Proof.
  revert st. induction sched as [|e sched IH]; intros st H Hne.
  - simpl in H. destruct (worker st); try discriminate. contradiction.
  - pose proof (wait_spec _ _ _ H) as [Hex Hq].
    assert (quit st = true) as Hquit; [|rewrite Hq; auto].
    simpl in H.
    assert ((do st1 <- work_step e st; wait sched st1) = Ret st') as H'
      by (destruct (worker st); [exact H|exact H|contradiction]).
    destruct (work_step e st) as [st1| |] eqn:Es; try discriminate. simpl in H'.
    assert (worker st1 = Exited \/ worker st1 <> Exited) as [E1|N1]
      by (destruct (worker st1); [right|right|left]; congruence).
    + exact (work_step_exit _ _ _ Es Hne E1).
    + destruct (IH st1 H' N1) as (Hq1 & _). apply work_step_quit in Es. congruence.
Qed.

Lemma work_exits_only_after_quit_witness :
  quit (set_quit true mixed_state) = true
  /\ quit (set_worker Exited [] (set_quit true mixed_state)) = true
  /\ worker (set_worker Exited [] (set_quit true mixed_state)) = Exited.
Proof.
  apply (work_exits_only_after_quit [EvSelect true] (set_quit true mixed_state)
           (set_worker Exited [] (set_quit true mixed_state))).
  - vm_compute. reflexivity.
  - discriminate.
Defined.

End RpcWorker.

(** ** server/cluster_worker.go *)

Module ClusterWorker.

Definition maxSendRetry : nat := 10.

(** *** Messages (kvproto), as far as the worker looks into them

    A field that holds a pointer to a message is an [option]; the generated
    getters are nil-safe and return the zero value. *)

Record Peer : Type := mkPeer { PeerId : Z; NodeId : Z; StoreId : Z }.

Record Store : Type := mkStoreMeta { store_StoreId : Z; store_NodeId : Z }.

Record Region : Type := mkRegion {
  RegionId : Z;
  StartKey : list Z;
  EndKey : list Z;
  MaxPeerId : Z;
  Peers : list Peer
}.

Definition GetPeerId (p : option Peer) : Z :=
  match p with Some p => PeerId p | None => 0 end.

Definition GetNodeId (p : option Peer) : Z :=
  match p with Some p => NodeId p | None => 0 end.

Definition GetRegionId (r : option Region) : Z :=
  match r with Some r => RegionId r | None => 0 end.

Definition GetEndKey (r : option Region) : list Z :=
  match r with Some r => EndKey r | None => [] end.

Definition GetPeers (r : option Region) : list Peer :=
  match r with Some r => Peers r | None => [] end.

Inductive ConfChangeType : Type := AddNode | RemoveNode.

Inductive AdminCommandType : Type := InvalidAdmin | ChangePeer | Split.

Inductive StatusCommandType : Type := InvalidStatus | RegionLeader | RegionDetail.

Record ChangePeerRequest : Type := mkChangePeerRequest {
  cp_ChangeType : ConfChangeType;
  cp_Peer : option Peer;
  cp_Region : option Region
}.

Record SplitRequest : Type := mkSplitRequest {
  sp_NewRegionId : Z;
  sp_NewPeerIds : list Z;
  sp_SplitKey : list Z;
  sp_Region : option Region
}.

Record AdminRequest : Type := mkAdminRequest {
  ar_CmdType : AdminCommandType;
  ar_ChangePeer : option ChangePeerRequest;
  ar_Split : option SplitRequest
}.

(** The header's Uuid is a fresh random value and is not modelled. *)
Record RaftRequestHeader : Type := mkRequestHeader {
  rh_RegionId : Z;
  rh_Peer : option Peer
}.

Record RaftCommandRequest : Type := mkRaftRequest {
  req_Header : option RaftRequestHeader;
  req_AdminRequest : option AdminRequest;
  req_StatusRequest : option StatusCommandType
}.

Record NotLeaderError : Type := mkNotLeader { nl_RegionId : Z; nl_Leader : option Peer }.

Record Error : Type := mkError {
  err_NotLeader : option NotLeaderError;
  err_RegionNotFound : option Z
}.

Record RaftResponseHeader : Type := mkResponseHeader { rsp_Error : option Error }.

(** [ChangePeerResponse.Region]; [SplitResponse.Left] and [.Right]. *)
Record AdminResponse : Type := mkAdminResponse {
  ars_ChangePeer : option (option Region);
  ars_Split : option (option Region * option Region)
}.

(** [RegionLeaderResponse.Leader]; [RegionDetailResponse.Region]. *)
Record StatusResponse : Type := mkStatusResponse {
  sr_RegionLeader : option (option Peer);
  sr_RegionDetail : option (option Region)
}.

Record RaftCommandResponse : Type := mkRaftResponse {
  rsp_Header : option RaftResponseHeader;
  rsp_AdminResponse : option AdminResponse;
  rsp_StatusResponse : option StatusResponse
}.

Inductive JobStatus : Type := Pending | Running.

Record Job : Type := mkJob {
  JobId : Z;
  Status : JobStatus;
  Request : option RaftCommandRequest
}.

Inductive error : Type :=
| ErrAlloc               (* the id allocator failed *)
| ErrGet                 (* a read of the store failed *)
| ErrCommit              (* Txn(...).Commit() failed *)
| ErrPostJob             (* "post job %v fail" *)
| ErrPopJob              (* "pop first job failed" *)
| ErrUpdateJob           (* "pop first job failed", from updateJobStatus *)
| ErrNoStore             (* "find no store to add peer for region %v" *)
| ErrCannotRemove        (* "can not remove peer for region %v" *)
| ErrNoProperPeer        (* "find no proper peer to remove for region %v" *)
| ErrCall (cause : nat)  (* callCommand: node lookup, dial, write or read *)
| ErrInvalidResponse     (* "invalid command response message but %v" *)
| ErrSendFailed          (* "send raft command %v failed" *)
| ErrRegionLeader        (* "get region %d leader failed, got resp %v" *)
| ErrRegionDetail        (* "get region %d detail failed, got resp %v" *)
| ErrUpdateRegion        (* "update change peer region failed" *)
| ErrUpdateSplit         (* "update split region failed" *)
| ErrMarshal.            (* proto.Marshal of a nil message *)

Inductive result (A : Type) : Type :=
| Ok (a : A)
| Err (e : error)
| Panic.
Arguments Ok {A} a.
Arguments Err {A} e.
Arguments Panic {A}.

(** *** Choosing a store for a new peer *)

(** The loop over [region.Peers] for one store; it leaves at the first peer
    on the store.  Returns [(existStore, existNode)]. *)
Fixpoint scan_peers (peers : list Peer) (storeID nodeID : Z) (existNode : bool)
    : bool * bool :=
  match peers with
  | [] => (false, existNode)
  | peer :: rest =>
      if StoreId peer =? storeID then (true, existNode)
      else if NodeId peer =? nodeID then scan_peers rest storeID nodeID true
      else scan_peers rest storeID nodeID existNode
  end.

(** The loop over [mu.stores], a Go map: [stores] lists its values in the
    order in which this iteration happens to visit them. *)
Fixpoint classify_stores (peers : list Peer) (stores bestStores matchStores : list Store)
    : list Store * list Store :=
  match stores with
  | [] => (bestStores, matchStores)
  | store :: rest =>
      let '(existStore, existNode) :=
        scan_peers peers (store_StoreId store) (store_NodeId store) false in
      if existStore then classify_stores peers rest bestStores matchStores
      else if existNode
           then classify_stores peers rest bestStores (matchStores ++ [store])
           else classify_stores peers rest (bestStores ++ [store]) matchStores
  end.

(** [rand.Intn(n)]: [rnd] is the generator's raw draw; [n <= 0] panics. *)
Definition Intn (rnd n : nat) : result nat :=
  if Nat.eqb n 0 then Panic else Ok (rnd mod n)%nat.

Definition chooseStore (rnd : nat) (bestStores matchStores : list Store) : result Store :=
  let from (l : list Store) :=
    match Intn rnd (length l) with
    | Ok i => match l !! i with Some s => Ok s | None => Panic end
    | Err e => Err e
    | Panic => Panic
    end in
  if Nat.ltb 0 (length bestStores) then from bestStores else from matchStores.

(** [alloc] is what [c.s.idAlloc.Alloc()] returns: [None] when it fails.
    [region.Peers] on a nil region panics; it is evaluated once per store. *)
Definition handleAddPeerReq (alloc : option Z) (stores : list Store) (rnd : nat)
    (region : option Region) : result Peer :=
  match alloc with
  | None => Err ErrAlloc
  | Some peerID =>
      match stores, region with
      | [], _ => Err ErrNoStore
      | _ :: _, None => Panic
      | _ :: _, Some r =>
          let '(bestStores, matchStores) := classify_stores (Peers r) stores [] [] in
          if Nat.eqb (length bestStores) 0 && Nat.eqb (length matchStores) 0
          then Err ErrNoStore
          else
            match chooseStore rnd bestStores matchStores with
            | Ok store => Ok (mkPeer peerID (store_NodeId store) (store_StoreId store))
            | Err e => Err e
            | Panic => Panic
            end
      end
  end.

(** [leader] nil: [GetPeerId] is 0.  [region.Peers] on nil panics. *)
Definition handleRemovePeerReq (region : option Region) (leader : option Peer)
    : result Peer :=
  match region with
  | None => Panic
  | Some r =>
      if (length (Peers r) <=? 1)%nat then Err ErrCannotRemove
      else
        match List.find (fun peer => negb (PeerId peer =? GetPeerId leader)) (Peers r) with
        | Some peer => Ok peer
        | None => Err ErrNoProperPeer
        end
  end.

(** *** What the classification computes *)

Definition hosts (peers : list Peer) (s : Store) : bool :=
  existsb (fun p => StoreId p =? store_StoreId s) peers.

Definition on_node (peers : list Peer) (s : Store) : bool :=
  existsb (fun p => NodeId p =? store_NodeId s) peers.

(** Best: no peer on the store and none on its node. *)
Definition is_best (peers : list Peer) (s : Store) : bool :=
  negb (hosts peers s) && negb (on_node peers s).

(** Match: no peer on the store but one on its node. *)
Definition is_match (peers : list Peer) (s : Store) : bool :=
  negb (hosts peers s) && on_node peers s.

Lemma scan_peers_spec (peers : list Peer) (storeID nodeID : Z) (existNode : bool) :
  fst (scan_peers peers storeID nodeID existNode)
    = existsb (fun p => StoreId p =? storeID) peers
  /\ (existsb (fun p => StoreId p =? storeID) peers = false ->
      snd (scan_peers peers storeID nodeID existNode)
        = existNode || existsb (fun p => NodeId p =? nodeID) peers).
Proof.
  revert existNode. induction peers as [|p rest IH]; intros existNode; simpl.
  - split; [reflexivity|]. intros _. rewrite orb_false_r. reflexivity.
  - destruct (StoreId p =? storeID); simpl; [split; [reflexivity|discriminate]|].
    destruct (NodeId p =? nodeID); simpl.
    + destruct (IH true) as [H1 H2]. split; [assumption|]. intros H.
      rewrite H2 by assumption. simpl. rewrite orb_true_r. reflexivity.
    + apply IH.
Qed.

Lemma classify_stores_spec (peers : list Peer) (stores : list Store) :
  forall bestStores matchStores,
    classify_stores peers stores bestStores matchStores
    = (bestStores ++ List.filter (is_best peers) stores,
       matchStores ++ List.filter (is_match peers) stores).
Proof.
  induction stores as [|s rest IH]; intros bestStores matchStores; simpl.
  - rewrite !app_nil_r. reflexivity.
  - destruct (scan_peers peers (store_StoreId s) (store_NodeId s) false)
      as [existStore existNode] eqn:E.
    destruct (scan_peers_spec peers (store_StoreId s) (store_NodeId s) false) as [H1 H2].
    rewrite E in H1, H2. simpl in H1, H2.
    unfold is_best, is_match, hosts, on_node. rewrite <- H1.
    destruct existStore; simpl; [apply IH|].
    rewrite <- H2 by congruence. destruct existNode; simpl; rewrite IH, <- app_assoc;
      reflexivity.
Qed.

Lemma Intn_from (rnd : nat) (l : list Store) :
  l <> [] ->
  exists s, match Intn rnd (length l) with
            | Ok i => match l !! i with Some s => Ok s | None => Panic end
            | Err e => Err e
            | Panic => Panic
            end = Ok s /\ In s l.
Proof.
  intros Hl. unfold Intn.
  destruct (Nat.eqb_spec (length l) 0) as [E|E].
  - destruct l; [contradiction|discriminate].
  - assert (rnd mod length l < length l)%nat as Hlt by (apply Nat.mod_upper_bound; assumption).
    destruct (lookup_lt_is_Some_2 l _ Hlt) as [s Es]. rewrite Es.
    exists s. split; [reflexivity|].
    apply list_elem_of_In. eapply list_elem_of_lookup_2. eassumption.
Qed.

Lemma chooseStore_spec (rnd : nat) (bestStores matchStores : list Store) :
  bestStores <> [] \/ matchStores <> [] ->
  exists s, chooseStore rnd bestStores matchStores = Ok s
            /\ match bestStores with [] => In s matchStores | _ => In s bestStores end.
Proof.
  intros H. unfold chooseStore. destruct bestStores as [|b bs].
  - simpl. destruct H as [H|H]; [contradiction|]. apply Intn_from. assumption.
  - change (Nat.ltb 0 (length (b :: bs))) with true. cbv iota.
    apply Intn_from. discriminate.
Qed.

(** Every store hosts a peer exactly when nothing is best and nothing
    matches. *)
Lemma nothing_to_choose (peers : list Peer) (stores : list Store) :
  List.filter (is_best peers) stores = [] /\ List.filter (is_match peers) stores = []
  <-> Forall (fun s => hosts peers s = true) stores.
Proof.
  induction stores as [|s rest IH]; simpl.
  - split; [constructor|auto].
  - unfold is_best at 1, is_match at 1.
    destruct (hosts peers s) eqn:Eh; simpl.
    + rewrite IH. split; [intros H; constructor; assumption|].
      intros H. inversion H. assumption.
    + destruct (on_node peers s); simpl.
      * split; [intros [_ H]; discriminate|]. intros H. inversion H. congruence.
      * split; [intros [H _]; discriminate|]. intros H. inversion H. congruence.
Qed.

(** A peer on a store that hosts none keeps the store ids distinct. *)
Lemma NoDup_add_peer (peers : list Peer) (s : Store) (peerID : Z) :
  hosts peers s = false ->
  NoDup (map StoreId peers) ->
  NoDup (map StoreId (peers ++ [mkPeer peerID (store_NodeId s) (store_StoreId s)])).
Proof.
  intros Hh Hnd. rewrite map_app. apply NoDup_app. split; [assumption|].
  split; [|apply NoDup_singleton].
  intros x Hx Hx'. apply list_elem_of_singleton in Hx'. subst x. simpl in Hx.
  apply list_elem_of_In, in_map_iff in Hx as (p & Ep & Hp).
  assert (hosts peers s = true) as Hc; [|congruence].
  unfold hosts. apply existsb_exists. exists p. split; [assumption|].
  apply Z.eqb_eq. assumption.
Qed.

(** C8: given the allocated peer id, [handleAddPeerReq] fails with the
    no-placement error exactly when every store already hosts a peer of the
    region; otherwise it returns a peer with that id on a store of the table
    that hosts no peer of the region, a best store (no peer on the store,
    none on its node) whenever the table has one and a match store (no peer
    on the store, one on its node) otherwise; and adding the peer to a
    region whose peers are on distinct stores keeps them so. *)
Theorem handleAddPeerReq_placement
    (peerID : Z) (stores : list Store) (rnd : nat) (region : Region) :
  (Forall (fun s => hosts (Peers region) s = true) stores
   /\ handleAddPeerReq (Some peerID) stores rnd (Some region) = Err ErrNoStore)
  \/ (~ Forall (fun s => hosts (Peers region) s = true) stores
      /\ exists store,
           handleAddPeerReq (Some peerID) stores rnd (Some region)
             = Ok (mkPeer peerID (store_NodeId store) (store_StoreId store))
           /\ In store stores
           /\ hosts (Peers region) store = false
           /\ ((exists s, In s stores /\ is_best (Peers region) s = true) ->
               is_best (Peers region) store = true)
           /\ ((forall s, In s stores -> is_best (Peers region) s = false) ->
               is_match (Peers region) store = true)
           /\ (NoDup (map StoreId (Peers region)) ->
               NoDup (map StoreId
                        (Peers region
                           ++ [mkPeer peerID (store_NodeId store) (store_StoreId store)])))).
Proof.
  unfold handleAddPeerReq. destruct stores as [|s0 rest]; [left; split; [constructor|reflexivity]|].
  rewrite classify_stores_spec. cbn [app].
  set (stores := s0 :: rest).
  pose proof (nothing_to_choose (Peers region) stores) as Hnone.
  destruct (List.filter (is_best (Peers region)) stores) as [|b bs] eqn:Eb;
    destruct (List.filter (is_match (Peers region)) stores) as [|m ms] eqn:Em.
  - left. split; [apply Hnone; auto|reflexivity].
  - right. split; [intros H; apply Hnone in H as [_ H]; discriminate|].
    destruct (chooseStore_spec rnd [] (m :: ms)) as (s & Es & Hin); [right; discriminate|].
    cbn [length Nat.eqb andb]. rewrite Es. exists s. split; [reflexivity|].
    rewrite <- Em in Hin. apply filter_In in Hin as [Hin Hm].
    pose proof Hm as Hm'. unfold is_match in Hm'. apply andb_prop in Hm' as [Hh _].
    apply negb_true_iff in Hh.
    split; [assumption|]. split; [assumption|]. split; [|split; [auto|]].
    + intros (s' & Hs' & Hb').
      assert (In s' (List.filter (is_best (Peers region)) stores)) as Hc
        by (apply filter_In; auto). rewrite Eb in Hc. destruct Hc.
    + apply NoDup_add_peer. assumption.
  - right. split; [intros H; apply Hnone in H as [H _]; discriminate|].
    destruct (chooseStore_spec rnd (b :: bs) []) as (s & Es & Hin); [left; discriminate|].
    cbn [length Nat.eqb andb]. rewrite Es. exists s. split; [reflexivity|].
    rewrite <- Eb in Hin. apply filter_In in Hin as [Hin Hm].
    pose proof Hm as Hm'. unfold is_best in Hm'. apply andb_prop in Hm' as [Hh _].
    apply negb_true_iff in Hh.
    split; [assumption|]. split; [assumption|]. split; [auto|split].
    + intros Hall. rewrite (Hall s Hin) in Hm. discriminate.
    + apply NoDup_add_peer. assumption.
  - right. split; [intros H; apply Hnone in H as [H _]; discriminate|].
    destruct (chooseStore_spec rnd (b :: bs) (m :: ms)) as (s & Es & Hin);
      [left; discriminate|].
    cbn [length Nat.eqb andb]. rewrite Es. exists s. split; [reflexivity|].
    rewrite <- Eb in Hin. apply filter_In in Hin as [Hin Hm].
    pose proof Hm as Hm'. unfold is_best in Hm'. apply andb_prop in Hm' as [Hh _].
    apply negb_true_iff in Hh.
    split; [assumption|]. split; [assumption|]. split; [auto|split].
    + intros Hall. rewrite (Hall s Hin) in Hm. discriminate.
    + apply NoDup_add_peer. assumption.
Qed.

(** The store table of the cluster tests: stores 11 and 12 on node 1, 21 and
    22 on node 2, 31 on node 3.  With one peer on store 11 the best stores
    are 21, 22 and 31, and the draw 4 takes the second of them. *)
Example handleAddPeerReq_five_stores :
  handleAddPeerReq (Some 100)
    [mkStoreMeta 11 1; mkStoreMeta 12 1; mkStoreMeta 21 2; mkStoreMeta 22 2;
     mkStoreMeta 31 3]
    4 (Some (mkRegion 1 [] [] 1 [mkPeer 1 1 11]))
  = Ok (mkPeer 100 2 22).
Proof. reflexivity. Qed.

(** A failing allocation is reported before any store is looked at. *)
Lemma handleAddPeerReq_alloc_fails (stores : list Store) (rnd : nat)
    (region : option Region) :
  handleAddPeerReq None stores rnd region = Err ErrAlloc.
Proof. reflexivity. Qed.

(** *** The cluster's part of the consensus store and its environment *)

(** Keys are kept apart by the map they live in: [jobs] holds
    <root>/jobs/<id>, [region_search] holds region_search/<end key> and
    [region_index] holds region/<id>. *)
Record KV : Type := mkKV {
  leader_create_revision : Z;
  jobs : gmap Z Job;
  region_search : gmap (list Z) Region;
  region_index : gmap Z (list Z)
}.

(** What one [callCommand] meets: a failure to find, reach or hear the
    node, or a message with its [CmdResp]. *)
Inductive call_outcome : Type :=
| CallErr (cause : nat)
| CallMsg (CmdResp : option RaftCommandResponse).

(** [faults] says, operation by operation, whether a call to the store
    itself fails; [calls] is what the storage nodes do, call by call; [sent]
    logs the requests handed to [callCommand]. *)
Record Cluster : Type := mkCluster {
  kv : KV;
  leaderRevision : Z;
  isLeader : bool;
  askJobCh : nat;
  askJobCap : nat;
  stores : list Store;
  faults : list bool;
  calls : list call_outcome;
  sent : list RaftCommandRequest
}.

Definition set_kv (k : KV) (c : Cluster) : Cluster :=
  mkCluster k (leaderRevision c) (isLeader c) (askJobCh c) (askJobCap c)
    (stores c) (faults c) (calls c) (sent c).

Definition set_askJobCh (n : nat) (c : Cluster) : Cluster :=
  mkCluster (kv c) (leaderRevision c) (isLeader c) n (askJobCap c)
    (stores c) (faults c) (calls c) (sent c).

Definition next_fault (c : Cluster) : bool * Cluster :=
  match faults c with
  | [] => (false, c)
  | f :: fs =>
      (f, mkCluster (kv c) (leaderRevision c) (isLeader c) (askJobCh c) (askJobCap c)
            (stores c) fs (calls c) (sent c))
  end.

Definition next_call (request : RaftCommandRequest) (c : Cluster)
    : call_outcome * Cluster :=
  let '(o, rest) := match calls c with
                    | [] => (CallErr 0, [])
                    | o :: rest => (o, rest)
                    end in
  (o, mkCluster (kv c) (leaderRevision c) (isLeader c) (askJobCh c) (askJobCap c)
        (stores c) (faults c) rest (sent c ++ [request])).

(** Send if the channel is not full, drop otherwise. *)
Definition asyncNotify (c : Cluster) : Cluster :=
  if Nat.ltb (askJobCh c) (askJobCap c) then set_askJobCh (S (askJobCh c)) c else c.

(** A transaction guarded by the leader comparison and by [more]. *)
Definition leaderTxn (more : KV -> bool) (ops : KV -> KV) (c : Cluster)
    : Etcd.txn_response * Cluster :=
  let '(f, c1) := next_fault c in
  let '(r, k) :=
    Etcd.Txn f
      (fun k => Etcd.leaderCmp (leader_create_revision k) (leaderRevision c) && more k)
      ops (kv c1) in
  (r, set_kv k c1).

(** *** The job store *)

Definition put_job (id : Z) (job : Job) (k : KV) : KV :=
  mkKV (leader_create_revision k) (<[id := job]> (jobs k)) (region_search k)
    (region_index k).

Definition delete_job (id : Z) (k : KV) : KV :=
  mkKV (leader_create_revision k) (delete id (jobs k)) (region_search k)
    (region_index k).

(** [alloc] is what the id allocator returns.  The assignment to
    [req.Header.Uuid] panics on a nil header. *)
Definition postJob (alloc : option Z) (req : RaftCommandRequest) (c : Cluster)
    : result unit * Cluster :=
  match alloc with
  | None => (Err ErrAlloc, c)
  | Some jobID =>
      match req_Header req with
      | None => (Panic, c)
      | Some _ =>
          let job := mkJob jobID Pending (Some req) in
          match leaderTxn (fun _ => true) (put_job jobID job) c with
          | (Etcd.TxnErr, c1) => (Err ErrCommit, c1)
          | (Etcd.TxnResp false, c1) => (Err ErrPostJob, c1)
          | (Etcd.TxnResp true, c1) => (Ok tt, asyncNotify c1)
          end
      end
  end.

(** Modelled from the spec: [getProtoMsg] and [makeJobKey] (server/util.go
    and the key helpers are not among the sources).  Section 4.4: job keys
    sort like the job ids, and peek is a range scan from jobs/0, ascending,
    limit 1, that returns null if there is none.  As [getJob] calls it, the
    range ends before the key of [math.MaxUint64], and nothing but the
    client, the key, the message and the range options is passed. *)
Definition first_job (js : gmap Z Job) : option Job :=
  snd <$>
    map_fold
      (fun id job (acc : option (Z * Job)) =>
         if (0 <=? id) && (id <? 2 ^ 64 - 1)
         then match acc with
              | Some (id', _) => if id <? id' then Some (id, job) else acc
              | None => Some (id, job)
              end
         else acc)
      None js.

Definition getJob (c : Cluster) : result (option Job) * Cluster :=
  let '(f, c1) := next_fault c in
  if f then (Err ErrGet, c1) else (Ok (first_job (jobs (kv c1))), c1).

Definition GetJobId (job : option Job) : Z :=
  match job with Some j => JobId j | None => 0 end.

(** The zero value of the status is the first value of the enumeration. *)
Definition GetStatus (job : option Job) : JobStatus :=
  match job with Some j => Status j | None => Pending end.

Definition GetRequest (job : option Job) : option RaftCommandRequest :=
  match job with Some j => Request j | None => None end.

Definition popJob (job : option Job) (c : Cluster) : result unit * Cluster :=
  match leaderTxn (fun _ => true) (delete_job (GetJobId job)) c with
  | (Etcd.TxnErr, c1) => (Err ErrCommit, c1)
  | (Etcd.TxnResp false, c1) => (Err ErrPopJob, c1)
  | (Etcd.TxnResp true, c1) => (Ok tt, c1)
  end.

(** [job.Status = status.Enum()] panics on a nil job.  The job object is
    changed before the transaction is tried; it is returned next to the
    result. *)
Definition updateJobStatus (job : option Job) (status : JobStatus) (c : Cluster)
    : result unit * option Job * Cluster :=
  match job with
  | None => (Panic, None, c)
  | Some j =>
      let j' := mkJob (JobId j) status (Request j) in
      match leaderTxn (fun _ => true) (put_job (JobId j) j') c with
      | (Etcd.TxnErr, c1) => (Err ErrCommit, Some j', c1)
      | (Etcd.TxnResp false, c1) => (Err ErrUpdateJob, Some j', c1)
      | (Etcd.TxnResp true, c1) => (Ok tt, Some j', c1)
      end
  end.

(** *** Commands to the storage nodes *)

(** [request.Header.Peer] panics on a nil header. *)
Definition callCommand (request : RaftCommandRequest) (c : Cluster)
    : result RaftCommandResponse * Cluster :=
  match req_Header request with
  | None => (Panic, c)
  | Some _ =>
      let '(o, c1) := next_call request c in
      match o with
      | CallErr cause => (Err (ErrCall cause), c1)
      | CallMsg None => (Err ErrInvalidResponse, c1)
      | CallMsg (Some resp) => (Ok resp, c1)
      end
  end.

Definition status_request (regionID : Z) (peer : option Peer) (cmd : StatusCommandType)
    : RaftCommandRequest :=
  mkRaftRequest (Some (mkRequestHeader regionID peer)) None (Some cmd).

Definition getRegionLeader (regionID : Z) (peer : option Peer) (c : Cluster)
    : result (option Peer) * Cluster :=
  let '(r, c1) := callCommand (status_request regionID peer RegionLeader) c in
  match r with
  | Ok resp =>
      match rsp_StatusResponse resp with
      | Some (mkStatusResponse (Some leader) _) => (Ok leader, c1)
      | _ => (Err ErrRegionLeader, c1)
      end
  | Err e => (Err e, c1)
  | Panic => (Panic, c1)
  end.

(** Returns [RegionDetailResponse.Region]. *)
Definition getRegionDetail (regionID : Z) (peer : option Peer) (c : Cluster)
    : result (option Region) * Cluster :=
  let '(r, c1) := callCommand (status_request regionID peer RegionDetail) c in
  match r with
  | Ok resp =>
      match rsp_StatusResponse resp with
      | Some (mkStatusResponse _ (Some detail)) => (Ok detail, c1)
      | _ => (Err ErrRegionDetail, c1)
      end
  | Err e => (Err e, c1)
  | Panic => (Panic, c1)
  end.

(** [request.Header.Peer = leader], on a request whose header is not nil. *)
Definition set_peer (leader : option Peer) (request : RaftCommandRequest)
    : RaftCommandRequest :=
  match req_Header request with
  | Some h =>
      mkRaftRequest (Some (mkRequestHeader (rh_RegionId h) leader))
        (req_AdminRequest request) (req_StatusRequest request)
  | None => request
  end.

(** The loop over [region.Peers] that asks the other peers for the leader:
    the first leader found, or [None] when the loop runs to its end. *)
Fixpoint probe_peers (regionID : Z) (originPeer : option Peer) (peers : list Peer)
    (c : Cluster) : result (option Peer) * Cluster :=
  match peers with
  | [] => (Ok None, c)
  | peer :: rest =>
      if PeerId peer =? GetPeerId originPeer
      then probe_peers regionID originPeer rest c
      else
        let '(r, c1) := getRegionLeader regionID (Some peer) c in
        match r with
        | Err _ => probe_peers regionID originPeer rest c1
        | Ok None => probe_peers regionID originPeer rest c1
        | Ok (Some leader) => (Ok (Some leader), c1)
        | Panic => (Panic, c1)
        end
  end.

Definition not_leader (resp : RaftCommandResponse) : result (option NotLeaderError) :=
  match rsp_Header resp with
  | None => Panic
  | Some h =>
      match rsp_Error h with
      | Some e => Ok (err_NotLeader e)
      | None => Ok None
      end
  end.

(** The RETRY loop with [attempts] iterations left.  The request is changed
    in place; it is returned next to the result. *)
Fixpoint sendRaftCommand_loop (attempts : nat) (originPeer : option Peer)
    (request : RaftCommandRequest) (region : option Region) (c : Cluster)
    : result RaftCommandResponse * RaftCommandRequest * Cluster :=
  match attempts with
  | O => (Err ErrSendFailed, request, c)
  | S attempts' =>
      let '(r, c1) := callCommand request c in
      match r with
      | Err e => (Err e, request, c1)
      | Panic => (Panic, request, c1)
      | Ok resp =>
          match not_leader resp with
          | Panic => (Panic, request, c1)
          | Err e => (Err e, request, c1)
          | Ok None => (Ok resp, request, c1)
          | Ok (Some nl) =>
              match nl_Leader nl with
              | Some leader =>
                  sendRaftCommand_loop attempts' originPeer
                    (set_peer (Some leader) request) region c1
              | None =>
                  match region with
                  | None => (Panic, request, c1)
                  | Some rg =>
                      let '(found, c2) :=
                        probe_peers (RegionId rg) originPeer (Peers rg) c1 in
                      match found with
                      | Ok (Some leader) =>
                          sendRaftCommand_loop attempts' originPeer
                            (set_peer (Some leader) request) region c2
                      | Ok None => (Ok resp, request, c2)
                      | Err e => (Err e, request, c2)
                      | Panic => (Panic, request, c2)
                      end
                  end
              end
          end
      end
  end.

Definition sendRaftCommand (request : RaftCommandRequest) (region : option Region)
    (c : Cluster) : result RaftCommandResponse * RaftCommandRequest * Cluster :=
  match req_Header request with
  | None => (Panic, request, c)
  | Some h => sendRaftCommand_loop maxSendRetry (rh_Peer h) request region c
  end.

(** [response.Header != nil && response.Header.Error != nil] *)
Definition has_error (resp : RaftCommandResponse) : bool :=
  match rsp_Header resp with
  | Some (mkResponseHeader (Some _)) => true
  | _ => false
  end.

(** *** Change of peers *)

Definition put_region_search (r : Region) (k : KV) : KV :=
  mkKV (leader_create_revision k) (jobs k) (<[EndKey r := r]> (region_search k))
    (region_index k).

(** Returns the [Region] field of the [ChangePeerResponse] it builds, or
    [None] for the nil response. *)
Definition checkChangePeerOK (request : RaftCommandRequest) (c : Cluster)
    : result (option (option Region)) * Cluster :=
  match req_Header request with
  | None => (Panic, c)
  | Some h =>
      let '(r, c1) := getRegionDetail (rh_RegionId h) (rh_Peer h) c in
      match r with
      | Err e => (Err e, c1)
      | Panic => (Panic, c1)
      | Ok detail =>
          match req_AdminRequest request, detail with
          | None, _ => (Panic, c1)
          | _, None => (Panic, c1)
          | Some ar, Some rg =>
              match ar_ChangePeer ar, Peers rg with
              | None, _ :: _ => (Panic, c1)
              | None, [] => (Ok None, c1)
              | Some cp, peers =>
                  let found :=
                    existsb (fun peer => PeerId peer =? GetPeerId (cp_Peer cp)) peers in
                  match cp_ChangeType cp, found with
                  | AddNode, true => (Ok (Some detail), c1)
                  | RemoveNode, false => (Ok (Some detail), c1)
                  | _, _ => (Ok None, c1)
                  end
              end
          end
      end
  end.

(** From [region := changePeer.Region] to the end of [handleChangePeer]. *)
Definition update_region (changePeer : option (option Region)) (c : Cluster)
    : result unit * Cluster :=
  match changePeer with
  | None => (Panic, c)
  | Some None => (Err ErrMarshal, c)
  | Some (Some region) =>
      match leaderTxn (fun _ => true) (put_region_search region) c with
      | (Etcd.TxnErr, c1) => (Err ErrCommit, c1)
      | (Etcd.TxnResp false, c1) => (Err ErrUpdateRegion, c1)
      | (Etcd.TxnResp true, c1) => (Ok tt, c1)
      end
  end.

(** The part of [handleChangePeer] after [sendRaftCommand] has returned
    [response] without an error. *)
Definition reconcile_change_peer (request : RaftCommandRequest)
    (response : RaftCommandResponse) (c : Cluster) : result unit * Cluster :=
  if has_error response then
    let '(r, c1) := checkChangePeerOK request c in
    match r with
    | Err e => (Err e, c1)
    | Panic => (Panic, c1)
    | Ok None => (Ok tt, c1)             (* not executed: cancel the job *)
    | Ok (Some changePeer) => update_region (Some changePeer) c1
    end
  else
    match rsp_AdminResponse response with
    | None => (Panic, c)
    | Some ar => update_region (ars_ChangePeer ar) c
    end.

Definition handleChangePeer (job : Job) (c : Cluster) : result unit * Cluster :=
  match Request job with
  | None => (Panic, c)
  | Some request =>
      match req_AdminRequest request with
      | None => (Panic, c)
      | Some ar =>
          match ar_ChangePeer ar with
          | None => (Panic, c)
          | Some cp =>
              let '(r, request', c1) := sendRaftCommand request (cp_Region cp) c in
              match r with
              | Err e => (Err e, c1)
              | Panic => (Panic, c1)
              | Ok response => reconcile_change_peer request' response c1
              end
          end
      end
  end.

(** *** Split *)

Definition put_split (left right : Region) (k : KV) : KV :=
  mkKV (leader_create_revision k) (jobs k)
    (<[EndKey right := right]> (<[EndKey left := left]> (region_search k)))
    (<[RegionId right := EndKey right]> (<[RegionId left := EndKey left]> (region_index k))).

(** The guards of the split transaction besides the leader comparison: the
    new left search key must not exist, the right search key must exist and
    the key of the new region id must not exist. *)
Definition split_guards (left right : Region) (k : KV) : bool :=
  match region_search k !! EndKey left, region_search k !! EndKey right,
        region_index k !! RegionId right with
  | None, Some _, None => true
  | _, _, _ => false
  end.

(** Returns [(Left, Right)] of the [SplitResponse] it builds, or [None] for
    the nil response. *)
Definition checkSplitOK (request : RaftCommandRequest) (c : Cluster)
    : result (option (option Region * option Region)) * Cluster :=
  match req_AdminRequest request with
  | None => (Panic, c)
  | Some ar =>
      match ar_Split ar, req_Header request with
      | None, _ => (Panic, c)
      | _, None => (Panic, c)
      | Some split, Some h =>
          let '(r, c1) := getRegionDetail (GetRegionId (sp_Region split)) (rh_Peer h) c in
          match r with
          | Err e => (Err e, c1)
          | Panic => (Panic, c1)
          | Ok leftDetail =>
              if bool_decide (GetEndKey leftDetail = sp_SplitKey split) then
                let '(r2, c2) := getRegionDetail (sp_NewRegionId split) (rh_Peer h) c1 in
                match r2 with
                | Err e => (Err e, c2)
                | Panic => (Panic, c2)
                | Ok rightDetail => (Ok (Some (leftDetail, rightDetail)), c2)
                end
              else (Ok None, c1)
          end
      end
  end.

(** From [left := split.Left] to the end of [handleSplit]. *)
Definition update_split (split : option (option Region * option Region)) (c : Cluster)
    : result unit * Cluster :=
  match split with
  | None => (Panic, c)
  | Some (None, _) => (Err ErrMarshal, c)
  | Some (Some _, None) => (Err ErrMarshal, c)
  | Some (Some lt, Some rt) =>
      match leaderTxn (split_guards lt rt) (put_split lt rt) c with
      | (Etcd.TxnErr, c1) => (Err ErrCommit, c1)
      | (Etcd.TxnResp false, c1) => (Err ErrUpdateSplit, c1)
      | (Etcd.TxnResp true, c1) => (Ok tt, c1)
      end
  end.

Definition handleSplit (job : Job) (c : Cluster) : result unit * Cluster :=
  match Request job with
  | None => (Panic, c)
  | Some request =>
      match req_AdminRequest request with
      | None => (Panic, c)
      | Some ar =>
          match ar_Split ar with
          | None => (Panic, c)
          | Some sp =>
              let '(r, request', c1) := sendRaftCommand request (sp_Region sp) c in
              match r with
              | Err e => (Err e, c1)
              | Panic => (Panic, c1)
              | Ok response =>
                  if has_error response then
                    let '(r2, c2) := checkSplitOK request' c1 in
                    match r2 with
                    | Err e => (Err e, c2)
                    | Panic => (Panic, c2)
                    | Ok None => (Ok tt, c2)
                    | Ok (Some split) => update_split (Some split) c2
                    end
                  else
                    match rsp_AdminResponse response with
                    | None => (Panic, c1)
                    | Some ars => update_split (ars_Split ars) c1
                    end
              end
          end
      end
  end.

(** *** The job worker *)

(** [req.AdminRequest] panics on a nil request; [GetCmdType] on a nil
    [AdminRequest] is the zero value. *)
Definition handleJob (job : option Job) (c : Cluster) : result unit * Cluster :=
  let '(r, job1, c1) :=
    match GetStatus job with
    | Pending => updateJobStatus job Running c
    | Running => (Ok tt, job, c)
    end in
  match r with
  | Err e => (Err e, c1)
  | Panic => (Panic, c1)
  | Ok _ =>
      match GetRequest job1, job1 with
      | Some req, Some j =>
          match req_AdminRequest req with
          | Some (mkAdminRequest ChangePeer _ _) => handleChangePeer j c1
          | Some (mkAdminRequest Split _ _) => handleSplit j c1
          | _ => (Ok tt, c1)                    (* "invalid job command" *)
          end
      | _, _ => (Panic, c1)
      end
  end.

(** One turn of the loop of [onJobWorker] on a pulse of [askJobCh].
    [Panic] ends the goroutine and with it the process. *)
Definition onJobWorker_pulse (c : Cluster) : result unit * Cluster :=
  let c := set_askJobCh (pred (askJobCh c)) c in
  if negb (isLeader c) then (Ok tt, c)
  else
    let '(got, c1) := getJob c in
    let proceed (job : option Job) :=
      let '(r, c2) := handleJob job c1 in
      match r with
      | Panic => (Panic, c2)
      | Err _ => (Ok tt, asyncNotify c2)        (* sleep, notify, continue *)
      | Ok _ =>
          let '(_, c3) := popJob job c2 in      (* an error is only logged *)
          (Ok tt, asyncNotify c3)
      end in
    match got with
    | Panic => (Panic, c1)
    | Err _ => proceed None                     (* logged; control falls through *)
    | Ok None => (Ok tt, c1)                    (* no job now, wait *)
    | Ok (Some job) => proceed (Some job)
    end.

(** *** Theorems about the job store and the job worker *)

Lemma set_kv_id (c : Cluster) : set_kv (kv c) c = c.
Proof. destruct c. reflexivity. Qed.

(** A transaction whose leader comparison fails reports so and changes
    nothing but the environment's position. *)
Lemma leaderTxn_lost (more : KV -> bool) (ops : KV -> KV) (c : Cluster) :
  fst (next_fault c) = false ->
  Etcd.leaderCmp (leader_create_revision (kv c)) (leaderRevision c) = false ->
  leaderTxn more ops c = (Etcd.TxnResp false, snd (next_fault c)).
Proof.
  unfold leaderTxn, Etcd.Txn.
  destruct (next_fault c) as [f c1] eqn:E. simpl. intros -> Hcmp.
  assert (kv c1 = kv c) as Ekv.
  { unfold next_fault in E. destruct (faults c); inversion E; reflexivity. }
  rewrite Ekv, Hcmp. simpl. rewrite <- Ekv, set_kv_id. reflexivity.
Qed.

(** The oldest job comes first. *)
Example first_job_least_id :
  first_job {[ 5 := mkJob 5 Pending None; 3 := mkJob 3 Running None;
               9 := mkJob 9 Pending None ]}
  = Some (mkJob 3 Running None).
Proof. vm_compute. reflexivity. Qed.

(** A cluster whose leader key has been re-created by another server
    (revision 2, ours was 1) and which still holds job 5. *)
Definition lost_lease_job : Job :=
  mkJob 5 Pending
    (Some (mkRaftRequest (Some (mkRequestHeader 1 None))
             (Some (mkAdminRequest ChangePeer None None)) None)).

Definition lost_lease_cluster : Cluster :=
  mkCluster (mkKV 2 {[ 5 := lost_lease_job ]} ∅ ∅) 1 true 0 1 [] [] [] [].

(** C6, as stated, fails for peek: with the leader comparison failing,
    [getJob] still returns the first job and no error, whereas [popJob] on
    the same store fails. *)
Lemma getJob_ignores_lost_lease :
  Etcd.leaderCmp (leader_create_revision (kv lost_lease_cluster))
    (leaderRevision lost_lease_cluster) = false
  /\ getJob lost_lease_cluster = (Ok (Some lost_lease_job), lost_lease_cluster)
  /\ popJob (Some lost_lease_job) lost_lease_cluster
     = (Err ErrPopJob, lost_lease_cluster).
Proof. repeat split; vm_compute; reflexivity. Qed.

(** C6, amended: post, setStatus ([updateJobStatus]) and pop execute under
    the leader comparison and, when it fails, return an error and leave the
    store as it was; peek ([getJob]) is a plain range read that is not
    conditional on the leader lease: it returns the first job whatever the
    comparison says. *)
Theorem job_store_leader_gate
    (c : Cluster) (id : Z) (req : RaftCommandRequest) (h : RaftRequestHeader)
    (job : Job) (status : JobStatus) :
  fst (next_fault c) = false ->
  Etcd.leaderCmp (leader_create_revision (kv c)) (leaderRevision c) = false ->
  req_Header req = Some h ->
  postJob (Some id) req c = (Err ErrPostJob, snd (next_fault c))
  /\ updateJobStatus (Some job) status c
     = (Err ErrUpdateJob, Some (mkJob (JobId job) status (Request job)),
        snd (next_fault c))
  /\ popJob (Some job) c = (Err ErrPopJob, snd (next_fault c))
  /\ getJob c = (Ok (first_job (jobs (kv c))), snd (next_fault c))
  /\ kv (snd (next_fault c)) = kv c.
Proof.
  intros Hf Hcmp Hh.
  unfold postJob, updateJobStatus, popJob, getJob. rewrite Hh.
  rewrite !leaderTxn_lost by assumption.
  assert (kv (snd (next_fault c)) = kv c) as Ekv.
  { unfold next_fault. destruct (faults c); reflexivity. }
  destruct (next_fault c) as [f c1]. simpl in *. subst f. rewrite Ekv.
  repeat split.
Qed.

Lemma job_store_leader_gate_witness :
  postJob (Some 9) (mkRaftRequest (Some (mkRequestHeader 1 None)) None None)
    lost_lease_cluster = (Err ErrPostJob, lost_lease_cluster)
  /\ updateJobStatus (Some lost_lease_job) Running lost_lease_cluster
     = (Err ErrUpdateJob,
        Some (mkJob (JobId lost_lease_job) Running (Request lost_lease_job)),
        lost_lease_cluster)
  /\ popJob (Some lost_lease_job) lost_lease_cluster = (Err ErrPopJob, lost_lease_cluster)
  /\ getJob lost_lease_cluster
     = (Ok (first_job (jobs (kv lost_lease_cluster))), lost_lease_cluster)
  /\ kv lost_lease_cluster = kv lost_lease_cluster.
Proof.
  apply (job_store_leader_gate lost_lease_cluster 9
           (mkRaftRequest (Some (mkRequestHeader 1 None)) None None)
           (mkRequestHeader 1 None) lost_lease_job Running); reflexivity.
Defined.

(** C7 fails on the code: when reading the first job fails while this
    server is the leader, the turn does not stop.  The error is logged,
    control falls through to [handleJob] with a nil job, and
    [updateJobStatus] assigns to a field of the nil job: the goroutine
    panics. *)
Theorem onJobWorker_panics_when_getJob_fails (c : Cluster) (fs : list bool) :
  isLeader c = true -> faults c = true :: fs ->
  fst (onJobWorker_pulse c) = Panic.
Proof.
  intros Hl Hf. unfold onJobWorker_pulse. simpl. rewrite Hl. simpl.
  unfold getJob, next_fault. simpl. rewrite Hf. reflexivity.
Qed.

(** The leader is pulsed while the store cannot be read. *)
Lemma onJobWorker_panics_when_getJob_fails_witness :
  fst (onJobWorker_pulse
         (mkCluster (mkKV 1 {[ 5 := lost_lease_job ]} ∅ ∅) 1 true 1 1 [] [true] [] []))
  = Panic.
Proof.
  apply (onJobWorker_panics_when_getJob_fails _ []); reflexivity.
Defined.

(** When the read succeeds and finds no job, the turn ends without calling
    [handleJob], as the claim has it. *)
Lemma onJobWorker_no_job (c : Cluster) :
  isLeader c = true -> fst (next_fault c) = false ->
  first_job (jobs (kv c)) = None ->
  fst (onJobWorker_pulse c) = Ok tt.
Proof.
  intros Hl Hf Hj. unfold onJobWorker_pulse. simpl. rewrite Hl. simpl.
  unfold getJob.
  assert (fst (next_fault (set_askJobCh (pred (askJobCh c)) c)) = false
          /\ kv (snd (next_fault (set_askJobCh (pred (askJobCh c)) c))) = kv c) as [E1 E2].
  { unfold next_fault in *. simpl. destruct (faults c); auto. }
  destruct (next_fault (set_askJobCh (pred (askJobCh c)) c)) as [f c1].
  simpl in *. subst f. rewrite E2, Hj. reflexivity.
Qed.

(** *** Theorems about [sendRaftCommand] *)

(** The cluster after some calls: [rest] is what the nodes still have to
    say and [reqs] are the requests made meanwhile. *)
Definition after_calls (rest : list call_outcome) (reqs : list RaftCommandRequest)
    (c : Cluster) : Cluster :=
  mkCluster (kv c) (leaderRevision c) (isLeader c) (askJobCh c) (askJobCap c)
    (stores c) (faults c) rest (sent c ++ reqs).

(** The peers that are asked for the leader: all but the origin peer. *)
Definition others (originPeer : option Peer) (peers : list Peer) : list Peer :=
  List.filter (fun p => negb (PeerId p =? GetPeerId originPeer)) peers.

(** A call from which [getRegionLeader] learns no leader: the call fails,
    the answer has no [RegionLeader] status, or its leader is nil. *)
Definition no_leader (o : call_outcome) : Prop :=
  match o with
  | CallMsg (Some (mkRaftResponse _ _ (Some (mkStatusResponse (Some (Some _)) _)))) => False
  | _ => True
  end.

Lemma callCommand_next (request : RaftCommandRequest) (h : RaftRequestHeader)
    (c : Cluster) (o : call_outcome) (rest : list call_outcome) :
  req_Header request = Some h -> calls c = o :: rest ->
  callCommand request c
  = (match o with
     | CallErr cause => Err (ErrCall cause)
     | CallMsg None => Err ErrInvalidResponse
     | CallMsg (Some resp) => Ok resp
     end, after_calls rest [request] c).
Proof.
  intros Hh Hc. unfold callCommand, next_call. rewrite Hh, Hc.
  destruct o as [cause|[resp|]]; reflexivity.
Qed.

Lemma after_calls_after_calls (r1 r2 : list call_outcome)
    (q1 q2 : list RaftCommandRequest) (c : Cluster) :
  after_calls r2 q2 (after_calls r1 q1 c) = after_calls r2 (q1 ++ q2) c.
Proof. unfold after_calls. simpl. rewrite app_assoc. reflexivity. Qed.

(** When none of the calls yields a leader, the probing loop asks every
    other peer once, in order, and ends without a leader. *)
Lemma probe_peers_no_leader (regionID : Z) (originPeer : option Peer)
    (peers : list Peer) :
  forall (c : Cluster) (probes rest : list call_outcome),
    calls c = probes ++ rest ->
    length probes = length (others originPeer peers) ->
    Forall no_leader probes ->
    probe_peers regionID originPeer peers c
    = (Ok None,
       after_calls rest
         (map (fun p => status_request regionID (Some p) RegionLeader)
            (others originPeer peers)) c).
Proof.
  induction peers as [|peer peers IH]; intros c probes rest Hc Hlen Hno; simpl in *.
  - destruct probes; [|discriminate]. simpl in Hc.
    unfold after_calls. rewrite app_nil_r, <- Hc. destruct c. reflexivity.
  - destruct (PeerId peer =? GetPeerId originPeer); simpl in *; [eauto|].
    destruct probes as [|o probes]; [discriminate|]. simpl in Hc.
    injection Hlen as Hlen. inversion Hno as [|? ? Ho Hno']; subst.
    unfold getRegionLeader.
    rewrite (callCommand_next (status_request regionID (Some peer) RegionLeader)
               (mkRequestHeader regionID (Some peer)) c o (probes ++ rest) eq_refl Hc).
    assert (forall c', probe_peers regionID originPeer peers
                         (after_calls (probes ++ rest)
                            [status_request regionID (Some peer) RegionLeader] c) = c' ->
                       c' = (Ok None,
                             after_calls rest
                               (status_request regionID (Some peer) RegionLeader
                                  :: map (fun p => status_request regionID (Some p) RegionLeader)
                                       (others originPeer peers)) c)) as Hnext.
    { intros c' <-.
      rewrite (IH (after_calls (probes ++ rest)
                     [status_request regionID (Some peer) RegionLeader] c)
                 probes rest eq_refl Hlen Hno').
      rewrite after_calls_after_calls. reflexivity. }
    destruct o as [cause|[[hd ad [[[[ld|]|] dt]|]]|]]; simpl in Ho;
      try contradiction; apply Hnext; reflexivity.
Qed.

(** The leader a reply names when it redirects: the reply carries a
    NotLeader error with a leader. *)
Definition hint (o : call_outcome) : option Peer :=
  match o with
  | CallMsg (Some resp) =>
      match not_leader resp with
      | Ok (Some nl) => nl_Leader nl
      | _ => None
      end
  | _ => None
  end.

(** The requests that were answered by the redirects to [leaders], one
    after the other, and the request in hand after the last of them. *)
Fixpoint resent (request : RaftCommandRequest) (leaders : list Peer)
    : list RaftCommandRequest :=
  match leaders with
  | [] => []
  | l :: ls => request :: resent (set_peer (Some l) request) ls
  end.

Fixpoint retarget (request : RaftCommandRequest) (leaders : list Peer)
    : RaftCommandRequest :=
  match leaders with
  | [] => request
  | l :: ls => retarget (set_peer (Some l) request) ls
  end.

Lemma after_calls_nil (c : Cluster) : after_calls (calls c) [] c = c.
Proof. unfold after_calls. rewrite app_nil_r. destruct c. reflexivity. Qed.

Lemma set_peer_header (leader : option Peer) (request : RaftCommandRequest)
    (h : RaftRequestHeader) :
  req_Header request = Some h ->
  req_Header (set_peer leader request) = Some (mkRequestHeader (rh_RegionId h) leader).
Proof. intros Hh. unfold set_peer. rewrite Hh. reflexivity. Qed.

Lemma retarget_header (leaders : list Peer) :
  forall (request : RaftCommandRequest) (h : RaftRequestHeader),
    req_Header request = Some h ->
    exists h', req_Header (retarget request leaders) = Some h'.
Proof.
  induction leaders as [|l ls IH]; intros request h Hh; simpl; [eauto|].
  eapply IH, set_peer_header, Hh.
Qed.

(** Each redirect costs one attempt and one call: the request goes to the
    leader the reply names. *)
Lemma sendRaftCommand_loop_redirects (originPeer : option Peer) (region : option Region)
    (attempts : nat) (leaders : list Peer) :
  forall (request : RaftCommandRequest) (h : RaftRequestHeader) (c : Cluster)
         (redirects tail : list call_outcome),
    req_Header request = Some h ->
    calls c = redirects ++ tail ->
    map hint redirects = map Some leaders ->
    sendRaftCommand_loop (length leaders + attempts) originPeer request region c
    = sendRaftCommand_loop attempts originPeer (retarget request leaders) region
        (after_calls tail (resent request leaders) c).
Proof.
  induction leaders as [|l ls IH]; intros request h c redirects tail Hh Hc Hm.
  - destruct redirects; [|discriminate]. simpl in Hc. simpl.
    rewrite <- Hc, after_calls_nil. reflexivity.
  - destruct redirects as [|o os]; [discriminate|]. simpl in Hc, Hm.
    injection Hm as Ho Hm. cbn [length Nat.add sendRaftCommand_loop].
    rewrite (callCommand_next request h c o (os ++ tail) Hh Hc).
    unfold hint in Ho. destruct o as [cause|[r|]]; try discriminate.
    destruct (not_leader r) as [[nl|]|e|]; try discriminate. rewrite Ho.
    rewrite (IH (set_peer (Some l) request) _
               (after_calls (os ++ tail) [request] c) os tail
               (set_peer_header _ _ _ Hh) eq_refl Hm).
    cbn [retarget resent]. rewrite after_calls_after_calls. reflexivity.
Qed.

(** C10: if [callCommand] yields a response whose header carries a
    NotLeader error without a leader, and none of the calls to the other
    peers of the region yields a leader, then [sendRaftCommand] returns
    that response and no error, at the first attempt as well as after the
    redirects to [leaders], whatever number of attempts is left and
    whoever the origin peer is; it has then asked each peer other than the
    origin peer once and left the request as the last redirect set it.
    [handleChangePeer], on such a response, goes on to reconcile with
    [checkChangePeerOK]. *)
Theorem sendRaftCommand_returns_NotLeader_response
    (request : RaftCommandRequest) (h : RaftRequestHeader) (rg : Region)
    (c : Cluster) (resp : RaftCommandResponse) (nl : NotLeaderError)
    (originPeer : option Peer) (leaders : list Peer)
    (redirects probes rest : list call_outcome) :
  req_Header request = Some h ->
  calls c = redirects ++ CallMsg (Some resp) :: probes ++ rest ->
  map hint redirects = map Some leaders ->
  not_leader resp = Ok (Some nl) -> nl_Leader nl = None ->
  length probes = length (others originPeer (Peers rg)) ->
  Forall no_leader probes ->
  (forall attempts,
     sendRaftCommand_loop (length leaders + S attempts) originPeer request (Some rg) c
     = (Ok resp, retarget request leaders,
        after_calls rest
          (resent request leaders ++ retarget request leaders
           :: map (fun p => status_request (RegionId rg) (Some p) RegionLeader)
                (others originPeer (Peers rg))) c))
  /\ (rh_Peer h = originPeer -> (length leaders < maxSendRetry)%nat ->
      sendRaftCommand request (Some rg) c
      = (Ok resp, retarget request leaders,
         after_calls rest
           (resent request leaders ++ retarget request leaders
            :: map (fun p => status_request (RegionId rg) (Some p) RegionLeader)
                 (others originPeer (Peers rg))) c))
  /\ has_error resp = true
  /\ (rh_Peer h = originPeer -> (length leaders < maxSendRetry)%nat ->
      forall job ar cp,
        Request job = Some request -> req_AdminRequest request = Some ar ->
        ar_ChangePeer ar = Some cp -> cp_Region cp = Some rg ->
        handleChangePeer job c
        = let '(r, c1) :=
            checkChangePeerOK (retarget request leaders)
              (after_calls rest
                 (resent request leaders ++ retarget request leaders
                  :: map (fun p => status_request (RegionId rg) (Some p) RegionLeader)
                       (others originPeer (Peers rg))) c) in
          match r with
          | Err e => (Err e, c1)
          | Panic => (Panic, c1)
          | Ok None => (Ok tt, c1)
          | Ok (Some changePeer) => update_region (Some changePeer) c1
          end).
Proof.
  intros Hh Hc Hm Hnl Hleader Hlen Hno.
  assert (forall attempts,
            sendRaftCommand_loop (length leaders + S attempts) originPeer request
              (Some rg) c
            = (Ok resp, retarget request leaders,
               after_calls rest
                 (resent request leaders ++ retarget request leaders
                  :: map (fun p => status_request (RegionId rg) (Some p) RegionLeader)
                       (others originPeer (Peers rg))) c)) as Hloop.
  { intros attempts.
    rewrite (sendRaftCommand_loop_redirects originPeer (Some rg) (S attempts) leaders
               request h c redirects _ Hh Hc Hm).
    destruct (retarget_header leaders request h Hh) as [h' Hh'].
    cbn [sendRaftCommand_loop].
    rewrite (callCommand_next (retarget request leaders) h'
               (after_calls (CallMsg (Some resp) :: probes ++ rest)
                  (resent request leaders) c)
               (CallMsg (Some resp)) (probes ++ rest) Hh' eq_refl),
      Hnl, Hleader.
    rewrite (probe_peers_no_leader (RegionId rg) originPeer (Peers rg)
               (after_calls (probes ++ rest) [retarget request leaders]
                  (after_calls (CallMsg (Some resp) :: probes ++ rest)
                     (resent request leaders) c))
               probes rest eq_refl Hlen Hno).
    rewrite !after_calls_after_calls. reflexivity. }
  assert (has_error resp = true) as Herr.
  { unfold not_leader in Hnl. unfold has_error.
    destruct (rsp_Header resp) as [[[e|]]|]; try discriminate. reflexivity. }
  assert (rh_Peer h = originPeer -> (length leaders < maxSendRetry)%nat ->
          sendRaftCommand request (Some rg) c
          = (Ok resp, retarget request leaders,
             after_calls rest
               (resent request leaders ++ retarget request leaders
                :: map (fun p => status_request (RegionId rg) (Some p) RegionLeader)
                     (others originPeer (Peers rg))) c)) as Hsend.
  { intros Ho Hk. unfold sendRaftCommand. rewrite Hh, Ho.
    replace maxSendRetry
      with (length leaders + S (maxSendRetry - S (length leaders)))%nat by lia.
    apply Hloop. }
  split; [exact Hloop|]. split; [exact Hsend|]. split; [exact Herr|].
  intros Ho Hk job ar cp Hjob Har Hcp Hrg. unfold handleChangePeer.
  rewrite Hjob, Har, Hcp, Hrg, (Hsend Ho Hk).
  unfold reconcile_change_peer. rewrite Herr. reflexivity.
Qed.

(** Peer 1, the origin, names peer 2 as the leader; peer 2 answers
    NotLeader without a leader; asked for the leader, peer 2 cannot be
    reached and peer 3 knows none. *)
Definition hinting_response : RaftCommandResponse :=
  mkRaftResponse
    (Some (mkResponseHeader
             (Some (mkError (Some (mkNotLeader 7 (Some (mkPeer 2 2 2)))) None))))
    None None.

Definition not_leader_response : RaftCommandResponse :=
  mkRaftResponse
    (Some (mkResponseHeader (Some (mkError (Some (mkNotLeader 7 None)) None))))
    None None.

Definition three_peer_region : Region :=
  mkRegion 7 [] [] 3 [mkPeer 1 1 1; mkPeer 2 2 2; mkPeer 3 3 3].

Definition change_peer_request : RaftCommandRequest :=
  mkRaftRequest (Some (mkRequestHeader 7 (Some (mkPeer 1 1 1))))
    (Some (mkAdminRequest ChangePeer
             (Some (mkChangePeerRequest AddNode (Some (mkPeer 4 4 4))
                      (Some three_peer_region))) None))
    None.

Definition not_leader_cluster : Cluster :=
  mkCluster (mkKV 1 ∅ ∅ ∅) 1 true 0 1 [] []
    [CallMsg (Some hinting_response); CallMsg (Some not_leader_response); CallErr 1;
     CallMsg (Some (mkRaftResponse None None
                      (Some (mkStatusResponse (Some None) None))))]
    [].

Lemma sendRaftCommand_returns_NotLeader_response_witness :
  sendRaftCommand change_peer_request (Some three_peer_region) not_leader_cluster
  = (Ok not_leader_response, set_peer (Some (mkPeer 2 2 2)) change_peer_request,
     after_calls []
       [change_peer_request;
        set_peer (Some (mkPeer 2 2 2)) change_peer_request;
        status_request 7 (Some (mkPeer 2 2 2)) RegionLeader;
        status_request 7 (Some (mkPeer 3 3 3)) RegionLeader]
       not_leader_cluster).
Proof.
  refine (proj1 (proj2
    (sendRaftCommand_returns_NotLeader_response change_peer_request
       (mkRequestHeader 7 (Some (mkPeer 1 1 1))) three_peer_region
       not_leader_cluster not_leader_response (mkNotLeader 7 None)
       (Some (mkPeer 1 1 1)) [mkPeer 2 2 2]
       [CallMsg (Some hinting_response)]
       [CallErr 1;
        CallMsg (Some (mkRaftResponse None None
                         (Some (mkStatusResponse (Some None) None))))]
       [] _ _ _ _ _ _ _)) _ _).
  - reflexivity.
  - reflexivity.
  - reflexivity.
  - reflexivity.
  - reflexivity.
  - reflexivity.
  - repeat constructor.
  - reflexivity.
  - unfold maxSendRetry. simpl. lia.
Defined.

(** *** Removing a peer *)

(** X13: the peer [handleRemovePeerReq] picks for removal is a peer of
    the region, the first one whose id differs from the leader's, and the
    region has at least two peers: the leader is never removed, nor is the
    last peer. *)
Theorem handleRemovePeerReq_spares_leader
    (r : Region) (leader : option Peer) (peer : Peer) :
  handleRemovePeerReq (Some r) leader = Ok peer ->
  (2 <= length (Peers r))%nat
  /\ PeerId peer <> GetPeerId leader
  /\ exists before after,
       Peers r = before ++ peer :: after
       /\ Forall (fun p => PeerId p = GetPeerId leader) before.
Proof.
  unfold handleRemovePeerReq.
  destruct (Nat.leb_spec (length (Peers r)) 1) as [|Hlen]; [discriminate|].
  split; [lia|]. clear Hlen. revert H.
  induction (Peers r) as [|p rest IH]; simpl; [discriminate|].
  destruct (Z.eqb_spec (PeerId p) (GetPeerId leader)) as [E|N]; simpl.
  - intros H. destruct (IH H) as (Hne & before & after & -> & HF).
    split; [exact Hne|]. exists (p :: before), after.
    split; [reflexivity|]. constructor; assumption.
  - intros [= <-]. split; [exact N|]. exists [], rest. split; [reflexivity|constructor].
Qed.

(** A region of three peers; the leader is the first of them. *)
Definition removal_region : Region :=
  mkRegion 1 [] [9] 3 [mkPeer 1 1 1; mkPeer 2 2 2; mkPeer 3 3 3].

Lemma handleRemovePeerReq_spares_leader_witness :
  (2 <= length (Peers removal_region))%nat
  /\ PeerId (mkPeer 2 2 2) <> GetPeerId (Some (mkPeer 1 1 1))
  /\ exists before after,
       Peers removal_region = before ++ mkPeer 2 2 2 :: after
       /\ Forall (fun p => PeerId p = GetPeerId (Some (mkPeer 1 1 1))) before.
Proof.
  apply (handleRemovePeerReq_spares_leader removal_region
           (Some (mkPeer 1 1 1)) (mkPeer 2 2 2)).
  reflexivity.
Defined.

(** X14: [handleRemovePeerReq] fails in two cases only: the region has
    at most one peer, or it has several and every one of them carries the
    leader's id (0 for a nil leader). *)
Theorem handleRemovePeerReq_fails_iff (r : Region) (leader : option Peer) (e : error) :
  handleRemovePeerReq (Some r) leader = Err e <->
  (e = ErrCannotRemove /\ (length (Peers r) <= 1)%nat)
  \/ (e = ErrNoProperPeer /\ (2 <= length (Peers r))%nat
      /\ Forall (fun p => PeerId p = GetPeerId leader) (Peers r)).
Proof.
  unfold handleRemovePeerReq.
  destruct (Nat.leb_spec (length (Peers r)) 1) as [Hlen|Hlen].
  - split.
    + intros [= <-]. left. auto.
    + intros [[-> _]|(_ & H & _)]; [reflexivity|lia].
  - destruct (List.find _ (Peers r)) as [peer|] eqn:Ef.
    + split; [discriminate|]. intros [[_ H]|(_ & _ & HF)]; [lia|].
      apply find_some in Ef as [Hin Hne]. rewrite Forall_forall in HF.
      apply list_elem_of_In, HF in Hin. apply negb_true_iff, Z.eqb_neq in Hne.
      contradiction.
    + split.
      * intros [= <-]. right. split; [reflexivity|]. split; [lia|].
        apply Forall_forall. intros p Hp. apply list_elem_of_In in Hp.
        pose proof (find_none _ _ Ef p Hp) as Hn. simpl in Hn.
        apply negb_false_iff, Z.eqb_eq in Hn. exact Hn.
      * intros [[_ H]|(-> & _)]; [lia|reflexivity].
Qed.

(** *** How often a command is sent *)

(** The requests of a log that are not status queries. *)
Definition admin_sends (l : list RaftCommandRequest) : nat :=
  length (List.filter (fun r => match req_StatusRequest r with
                                | None => true
                                | Some _ => false
                                end) l).

Lemma admin_sends_app (l l' : list RaftCommandRequest) :
  admin_sends (l ++ l') = (admin_sends l + admin_sends l')%nat.
Proof. unfold admin_sends. rewrite List.filter_app, length_app. reflexivity. Qed.

(** What the calls to the storage nodes leave alone. *)
Definition steady (c c1 : Cluster) : Prop :=
  kv c1 = kv c /\ leaderRevision c1 = leaderRevision c /\ isLeader c1 = isLeader c
  /\ askJobCh c1 = askJobCh c /\ askJobCap c1 = askJobCap c.

Lemma steady_refl (c : Cluster) : steady c c.
Proof. repeat split. Qed.

Lemma steady_trans (a b c : Cluster) : steady a b -> steady b c -> steady a c.
Proof.
  unfold steady. intros (?&?&?&?&?) (?&?&?&?&?). repeat split; congruence.
Qed.

Lemma callCommand_sent (request : RaftCommandRequest) (c c1 : Cluster)
    (r : result RaftCommandResponse) :
  callCommand request c = (r, c1) ->
  steady c c1
  /\ (r = Panic /\ c1 = c \/ r <> Panic /\ sent c1 = sent c ++ [request])
  /\ r <> Err ErrSendFailed.
Proof.
  unfold callCommand, next_call. destruct (req_Header request).
  - destruct (calls c) as [|[cause|[resp|]] rest]; intros [= <- <-]; simpl;
      (split; [repeat split|]); (split; [right; split; [discriminate|reflexivity]|]);
      discriminate.
  - intros [= <- <-]. split; [apply steady_refl|]. split; [left; auto|discriminate].
Qed.

Lemma getRegionLeader_sent (regionID : Z) (peer : option Peer) (c c1 : Cluster)
    (r : result (option Peer)) :
  getRegionLeader regionID peer c = (r, c1) ->
  steady c c1 /\ admin_sends (sent c1) = admin_sends (sent c).
Proof.
  unfold getRegionLeader.
  destruct (callCommand _ c) as [r0 c0] eqn:Ec.
  apply callCommand_sent in Ec as (Hkv & Hs & _).
  assert (admin_sends (sent c0) = admin_sends (sent c)) as Ha.
  { destruct Hs as [[_ ->]|[_ ->]]; [reflexivity|].
    rewrite admin_sends_app. unfold admin_sends at 2. simpl. lia. }
  destruct r0 as [resp|e|]; [|intros [= <- <-]; auto..].
  destruct (rsp_StatusResponse resp) as [[[leader|] detail]|]; intros [= <- <-]; auto.
Qed.

Lemma probe_peers_sent (regionID : Z) (originPeer : option Peer) (peers : list Peer) :
  forall (c c1 : Cluster) (r : result (option Peer)),
    probe_peers regionID originPeer peers c = (r, c1) ->
    steady c c1 /\ admin_sends (sent c1) = admin_sends (sent c)
    /\ forall e, r <> Err e.
Proof.
  induction peers as [|peer rest IH]; intros c c1 r; simpl.
  - intros [= <- <-]. split; [apply steady_refl|]. split; [reflexivity|discriminate].
  - destruct (PeerId peer =? GetPeerId originPeer); [apply IH|].
    destruct (getRegionLeader regionID (Some peer) c) as [r0 c0] eqn:Eg.
    apply getRegionLeader_sent in Eg as [Hkv Ha].
    assert (probe_peers regionID originPeer rest c0 = (r, c1) ->
            steady c c1 /\ admin_sends (sent c1) = admin_sends (sent c)
            /\ forall e, r <> Err e) as Hrest.
    { intros H. apply IH in H as (? & ? & ?).
      split; [eauto using steady_trans|]. split; [congruence|assumption]. }
    destruct r0 as [[leader|]|e|]; try exact Hrest;
      intros [= <- <-]; (split; [assumption|]); (split; [assumption|]); discriminate.
Qed.

Lemma set_peer_fields (leader : option Peer) (request : RaftCommandRequest) :
  req_AdminRequest (set_peer leader request) = req_AdminRequest request
  /\ req_StatusRequest (set_peer leader request) = req_StatusRequest request.
Proof. unfold set_peer. destruct (req_Header request); auto. Qed.

Lemma sendRaftCommand_loop_sent (attempts : nat) (originPeer : option Peer)
    (region : option Region) :
  forall (request request' : RaftCommandRequest) (c c' : Cluster)
         (r : result RaftCommandResponse),
    sendRaftCommand_loop attempts originPeer request region c = (r, request', c') ->
    req_StatusRequest request = None ->
    steady c c'
    /\ (admin_sends (sent c') <= admin_sends (sent c) + attempts)%nat
    /\ (r = Err ErrSendFailed ->
        admin_sends (sent c') = (admin_sends (sent c) + attempts)%nat)
    /\ req_AdminRequest request' = req_AdminRequest request.
Proof.
  induction attempts as [|n IH]; intros request request' c c' r; simpl.
  - intros [= <- <- <-] _. split; [apply steady_refl|]. repeat split; lia.
  - destruct (callCommand request c) as [r0 c1] eqn:Ec. intros H Hst.
    apply callCommand_sent in Ec as (Hkv1 & Hs1 & Hne1).
    assert (admin_sends (sent c1) <= admin_sends (sent c) + 1)%nat as Hle1.
    { destruct Hs1 as [[_ ->]|[_ ->]]; [lia|]. rewrite admin_sends_app.
      unfold admin_sends at 2. simpl. rewrite Hst. simpl. lia. }
    assert (forall leader c2,
              steady c1 c2 -> admin_sends (sent c2) = admin_sends (sent c1) ->
              r0 <> Panic ->
              sendRaftCommand_loop n originPeer (set_peer leader request) region c2
              = (r, request', c') ->
              steady c c'
              /\ (admin_sends (sent c') <= admin_sends (sent c) + S n)%nat
              /\ (r = Err ErrSendFailed ->
                  admin_sends (sent c') = (admin_sends (sent c) + S n)%nat)
              /\ req_AdminRequest request' = req_AdminRequest request) as Hretry.
    { intros leader c2 Hkv2 Ha2 Hnp Hl.
      destruct (set_peer_fields leader request) as [Hadm Hst'].
      apply IH in Hl as (Hkv & Hle & Hex & Hreq); [|congruence].
      assert (admin_sends (sent c1) = admin_sends (sent c) + 1)%nat as Heq1.
      { destruct Hs1 as [[-> _]|[_ ->]]; [contradiction|]. rewrite admin_sends_app.
        unfold admin_sends at 2. simpl. rewrite Hst. simpl. lia. }
      split; [eauto using steady_trans|]. split; [lia|]. split; [|congruence].
      intros E. specialize (Hex E). lia. }
    assert (forall c2 r1,
              steady c1 c2 -> admin_sends (sent c2) = admin_sends (sent c1) ->
              r1 <> Err ErrSendFailed ->
              (r1, request, c2) = (r, request', c') ->
              steady c c'
              /\ (admin_sends (sent c') <= admin_sends (sent c) + S n)%nat
              /\ (r = Err ErrSendFailed ->
                  admin_sends (sent c') = (admin_sends (sent c) + S n)%nat)
              /\ req_AdminRequest request' = req_AdminRequest request) as Hdone.
    { intros c2 r1 Hkv2 Ha2 Hne [= <- <- <-].
      split; [eauto using steady_trans|]. split; [lia|]. split; [contradiction|reflexivity]. }
    destruct r0 as [resp|e|];
      [|apply (Hdone c1 (Err e)); auto using steady_refl|apply (Hdone c1 Panic);
        auto using steady_refl; try discriminate].
    destruct (not_leader resp) as [[nl|]|e|] eqn:En;
      [|apply (Hdone c1 (Ok resp));
        auto using steady_refl; try discriminate
       |apply (Hdone c1 (Err e));
        auto using steady_refl;
          unfold not_leader in En; destruct (rsp_Header resp) as [h|];
          [destruct (rsp_Error h)|]; discriminate
       |apply (Hdone c1 Panic);
        auto using steady_refl; try discriminate].
    destruct (nl_Leader nl) as [leader|].
    + apply (Hretry (Some leader) c1);
        auto using steady_refl; try discriminate.
    + destruct region as [rg|]; [|apply (Hdone c1 Panic);
        auto using steady_refl; try discriminate].
      destruct (probe_peers (RegionId rg) originPeer (Peers rg) c1) as [found c2] eqn:Ep.
      apply probe_peers_sent in Ep as (Hkv2 & Ha2 & Hne2).
      destruct found as [[leader|]|e|].
      * apply (Hretry (Some leader) c2);
        auto using steady_refl; try discriminate.
      * apply (Hdone c2 (Ok resp));
        auto using steady_refl; try discriminate.
      * destruct (Hne2 e eq_refl).
      * apply (Hdone c2 Panic);
        auto using steady_refl; try discriminate.
Qed.

(** X15: [sendRaftCommand] hands the command to a storage node at most
    [maxSendRetry] times, whatever the nodes answer, and gives up with the
    send-failed error only after exactly that many attempts; on the way it
    touches neither the store nor the command's admin request. *)
Theorem sendRaftCommand_bounded_retries
    (request request' : RaftCommandRequest) (region : option Region)
    (c c' : Cluster) (r : result RaftCommandResponse) :
  sendRaftCommand request region c = (r, request', c') ->
  req_StatusRequest request = None ->
  kv c' = kv c
  /\ (admin_sends (sent c') <= admin_sends (sent c) + maxSendRetry)%nat
  /\ (r = Err ErrSendFailed ->
      admin_sends (sent c') = (admin_sends (sent c) + maxSendRetry)%nat)
  /\ req_AdminRequest request' = req_AdminRequest request.
Proof.
  unfold sendRaftCommand. destruct (req_Header request) as [h|].
  - intros H Hst.
    apply sendRaftCommand_loop_sent in H as ((Hkv & _) & Hle & Hex & Hreq); auto.
  - intros [= <- <- <-] _. repeat split; try lia. discriminate.
Qed.

(** Every node answers that it is not the leader and names another one. *)
Definition redirect_response : RaftCommandResponse :=
  mkRaftResponse
    (Some (mkResponseHeader
             (Some (mkError (Some (mkNotLeader 7 (Some (mkPeer 2 2 2)))) None))))
    None None.

Definition redirect_request : RaftCommandRequest :=
  mkRaftRequest (Some (mkRequestHeader 7 (Some (mkPeer 1 1 1))))
    (Some (mkAdminRequest ChangePeer
             (Some (mkChangePeerRequest AddNode (Some (mkPeer 4 4 4)) None)) None))
    None.

Definition redirect_cluster : Cluster :=
  mkCluster (mkKV 1 ∅ ∅ ∅) 1 true 0 1 [] []
    (repeat (CallMsg (Some redirect_response)) 12) [].

(** Ten sends, the last nine to the peer the answers name; two answers
    are left unread. *)
Definition redirect_outcome
    : result RaftCommandResponse * RaftCommandRequest * Cluster :=
  (Err ErrSendFailed, set_peer (Some (mkPeer 2 2 2)) redirect_request,
   after_calls (repeat (CallMsg (Some redirect_response)) 2)
     (redirect_request :: repeat (set_peer (Some (mkPeer 2 2 2)) redirect_request) 9)
     redirect_cluster).

Lemma sendRaftCommand_bounded_retries_witness :
  kv (snd redirect_outcome) = kv redirect_cluster
  /\ (admin_sends (sent (snd redirect_outcome))
      <= admin_sends (sent redirect_cluster) + maxSendRetry)%nat
  /\ (fst (fst redirect_outcome) = Err ErrSendFailed ->
      admin_sends (sent (snd redirect_outcome))
      = (admin_sends (sent redirect_cluster) + maxSendRetry)%nat)
  /\ req_AdminRequest (snd (fst redirect_outcome)) = req_AdminRequest redirect_request.
Proof.
  apply (sendRaftCommand_bounded_retries redirect_request _ None redirect_cluster).
  - vm_compute. reflexivity.
  - reflexivity.
Defined.

(** *** What the handlers do to the store *)

(** The fields no handler changes. *)
Definition wiring (c c1 : Cluster) : Prop :=
  leaderRevision c1 = leaderRevision c /\ isLeader c1 = isLeader c
  /\ askJobCh c1 = askJobCh c /\ askJobCap c1 = askJobCap c.

Lemma wiring_refl (c : Cluster) : wiring c c.
Proof. repeat split. Qed.

Lemma wiring_trans (a b c : Cluster) : wiring a b -> wiring b c -> wiring a c.
Proof. unfold wiring. intros (?&?&?&?) (?&?&?&?). repeat split; congruence. Qed.

Lemma steady_wiring (c c1 : Cluster) : steady c c1 -> wiring c c1.
Proof. intros (_ & H). exact H. Qed.

Lemma steady_kv (c c1 : Cluster) : steady c c1 -> kv c1 = kv c.
Proof. intros (H & _). exact H. Qed.

Lemma next_fault_steady (c : Cluster) : steady c (snd (next_fault c)).
Proof. unfold next_fault. destruct (faults c); repeat split. Qed.

(** A guarded transaction either applies its operations, the leader
    comparison and the other guards holding, or leaves the store alone. *)
Lemma leaderTxn_cases (more : KV -> bool) (ops : KV -> KV) (c c' : Cluster)
    (r : Etcd.txn_response) :
  leaderTxn more ops c = (r, c') ->
  wiring c c'
  /\ ((r = Etcd.TxnResp true /\ kv c' = ops (kv c)
       /\ Etcd.leaderCmp (leader_create_revision (kv c)) (leaderRevision c) = true
       /\ more (kv c) = true)
      \/ (r <> Etcd.TxnResp true /\ kv c' = kv c)).
Proof.
  unfold leaderTxn, Etcd.Txn. pose proof (next_fault_steady c) as (Hkv & Hw).
  destruct (next_fault c) as [f c1]. simpl in Hkv, Hw. rewrite Hkv.
  destruct f.
  - intros [= <- <-]. split; [exact Hw|]. right. split; [discriminate|reflexivity].
  - destruct (Etcd.leaderCmp _ _) eqn:Ecmp; simpl.
    + destruct (more (kv c)) eqn:Em; intros [= <- <-]; (split; [exact Hw|]).
      * left. auto.
      * right. split; [discriminate|reflexivity].
    + intros [= <- <-]. split; [exact Hw|]. right. split; [discriminate|reflexivity].
Qed.

Lemma getRegionDetail_steady (regionID : Z) (peer : option Peer) (c c1 : Cluster)
    (r : result (option Region)) :
  getRegionDetail regionID peer c = (r, c1) -> steady c c1.
Proof.
  unfold getRegionDetail. destruct (callCommand _ c) as [r0 c0] eqn:Ec.
  apply callCommand_sent in Ec as (Hs & _).
  destruct r0 as [resp|e|]; [|intros [= <- <-]; exact Hs..].
  destruct (rsp_StatusResponse resp) as [[leader [detail|]]|]; intros [= <- <-];
    exact Hs.
Qed.

Lemma checkChangePeerOK_steady (request : RaftCommandRequest) (c c1 : Cluster)
    (r : result (option (option Region))) :
  checkChangePeerOK request c = (r, c1) -> steady c c1.
Proof.
  unfold checkChangePeerOK. destruct (req_Header request) as [h|];
    [|intros [= <- <-]; apply steady_refl].
  destruct (getRegionDetail _ _ c) as [r0 c0] eqn:Eg.
  apply getRegionDetail_steady in Eg.
  destruct r0 as [detail|e|]; [|intros [= <- <-]; exact Eg..].
  destruct (req_AdminRequest request) as [ar|]; [|intros [= <- <-]; exact Eg].
  destruct detail as [rg|]; [|intros [= <- <-]; exact Eg].
  destruct (ar_ChangePeer ar) as [cp|].
  - destruct (cp_ChangeType cp), (existsb _ _); intros [= <- <-]; exact Eg.
  - destruct (Peers rg); intros [= <- <-]; exact Eg.
Qed.

Lemma checkSplitOK_steady (request : RaftCommandRequest) (c c1 : Cluster)
    (r : result (option (option Region * option Region))) :
  checkSplitOK request c = (r, c1) -> steady c c1.
Proof.
  unfold checkSplitOK. destruct (req_AdminRequest request) as [ar|];
    [|intros [= <- <-]; apply steady_refl].
  destruct (ar_Split ar) as [split|]; [|intros [= <- <-]; apply steady_refl].
  destruct (req_Header request) as [h|]; [|intros [= <- <-]; apply steady_refl].
  destruct (getRegionDetail _ _ c) as [r0 c0] eqn:Eg.
  apply getRegionDetail_steady in Eg.
  destruct r0 as [leftDetail|e|]; [|intros [= <- <-]; exact Eg..].
  destruct (bool_decide _); [|intros [= <- <-]; exact Eg].
  destruct (getRegionDetail _ _ c0) as [r1 c2] eqn:Eg2.
  apply getRegionDetail_steady in Eg2.
  destruct r1; intros [= <- <-]; eauto using steady_trans.
Qed.

Lemma sendRaftCommand_steady (request request' : RaftCommandRequest)
    (region : option Region) (c c' : Cluster) (r : result RaftCommandResponse) :
  sendRaftCommand request region c = (r, request', c') -> steady c c'.
Proof.
  unfold sendRaftCommand. destruct (req_Header request) as [h|];
    [|intros [= <- <- <-]; apply steady_refl].
  generalize maxSendRetry (rh_Peer h). intros n origin. revert request c.
  induction n as [|n IH]; intros request c; simpl.
  - intros [= <- <- <-]. apply steady_refl.
  - destruct (callCommand request c) as [r0 c1] eqn:Ec.
    apply callCommand_sent in Ec as (Hs & _).
    destruct r0 as [resp|e|]; [|intros [= <- <- <-]; exact Hs..].
    destruct (not_leader resp) as [[nl|]|e|]; [|intros [= <- <- <-]; exact Hs..].
    destruct (nl_Leader nl) as [leader|].
    + intros H. apply IH in H. eauto using steady_trans.
    + destruct region as [rg|]; [|intros [= <- <- <-]; exact Hs].
      destruct (probe_peers _ _ _ c1) as [found c2] eqn:Ep.
      apply probe_peers_sent in Ep as (Hs2 & _).
      destruct found as [[leader|]|e|];
        [intros H; apply IH in H|intros [= <- <- <-]..]; eauto using steady_trans.
Qed.

(** The store after a handler: as before, or after one guarded write. *)
Definition wrote (ops : KV -> KV) (guard : KV -> bool) (r : result unit)
    (c c' : Cluster) : Prop :=
  wiring c c'
  /\ (kv c' = kv c
      \/ (r = Ok tt /\ kv c' = ops (kv c) /\ guard (kv c) = true
          /\ Etcd.leaderCmp (leader_create_revision (kv c)) (leaderRevision c) = true)).

Lemma wrote_nothing (ops : KV -> KV) (guard : KV -> bool) (r : result unit)
    (c c' : Cluster) :
  steady c c' -> wrote ops guard r c c'.
Proof. intros (Hkv & Hw). split; [exact Hw|]. left. exact Hkv. Qed.

Lemma wrote_after (ops : KV -> KV) (guard : KV -> bool) (r : result unit)
    (c c1 c' : Cluster) :
  steady c c1 -> wrote ops guard r c1 c' -> wrote ops guard r c c'.
Proof.
  intros (Hkv & Hw) (Hw' & H). split; [eauto using wiring_trans|].
  destruct Hw as (Hrev & _). rewrite <- Hkv, <- Hrev. exact H.
Qed.

Lemma update_region_wrote (changePeer : option (option Region)) (c c' : Cluster)
    (r : result unit) :
  update_region changePeer c = (r, c') ->
  steady c c'
  \/ exists region, changePeer = Some (Some region)
       /\ wrote (put_region_search region) (fun _ => true) r c c'.
Proof.
  unfold update_region. destruct changePeer as [[region|]|];
    [|intros [= <- <-]; left; apply steady_refl..].
  destruct (leaderTxn _ _ c) as [t c1] eqn:Et. intros H. right. exists region.
  split; [reflexivity|].
  apply leaderTxn_cases in Et as (Hw & [(-> & Hkv & Hcmp & _)|(Hne & Hkv)]).
  - injection H as <- <-. split; [exact Hw|]. right. auto.
  - split; [|left].
    + destruct t as [|[|]]; injection H as <- <-; exact Hw.
    + destruct t as [|[|]]; injection H as <- <-; exact Hkv.
Qed.

Lemma update_split_wrote (split : option (option Region * option Region))
    (c c' : Cluster) (r : result unit) :
  update_split split c = (r, c') ->
  steady c c'
  \/ exists lt rt, split = Some (Some lt, Some rt)
       /\ wrote (put_split lt rt) (split_guards lt rt) r c c'.
Proof.
  unfold update_split. destruct split as [[[lt|] [rt|]]|];
    [|intros [= <- <-]; left; apply steady_refl..].
  destruct (leaderTxn _ _ c) as [t c1] eqn:Et. intros H. right. exists lt, rt.
  split; [reflexivity|].
  apply leaderTxn_cases in Et as (Hw & [(-> & Hkv & Hcmp & Hg)|(Hne & Hkv)]).
  - injection H as <- <-. split; [exact Hw|]. right. auto.
  - split; [|left].
    + destruct t as [|[|]]; injection H as <- <-; exact Hw.
    + destruct t as [|[|]]; injection H as <- <-; exact Hkv.
Qed.

Lemma handleChangePeer_wrote (job : Job) (c c' : Cluster) (r : result unit) :
  handleChangePeer job c = (r, c') ->
  steady c c'
  \/ exists region, wrote (put_region_search region) (fun _ => true) r c c'.
Proof.
  unfold handleChangePeer.
  destruct (Request job) as [request|]; [|intros [= <- <-]; left; apply steady_refl].
  destruct (req_AdminRequest request) as [ar|];
    [|intros [= <- <-]; left; apply steady_refl].
  destruct (ar_ChangePeer ar) as [cp|]; [|intros [= <- <-]; left; apply steady_refl].
  destruct (sendRaftCommand request (cp_Region cp) c) as [[r0 request'] c1] eqn:Es.
  apply sendRaftCommand_steady in Es.
  destruct r0 as [response|e|]; [|intros [= <- <-]; left; exact Es..].
  assert (forall cp1 c2, steady c c2 -> update_region cp1 c2 = (r, c') ->
            steady c c'
            \/ exists region, wrote (put_region_search region) (fun _ => true) r c c')
    as Hup.
  { intros cp1 c2 Hs H. apply update_region_wrote in H as [H|(region & _ & H)].
    - left. eauto using steady_trans.
    - right. exists region. eauto using wrote_after. }
  unfold reconcile_change_peer. destruct (has_error response).
  - destruct (checkChangePeerOK request' c1) as [r1 c2] eqn:Ec.
    apply checkChangePeerOK_steady in Ec.
    destruct r1 as [[changePeer|]|e|];
      [apply Hup|intros [= <- <-]; left..]; eauto using steady_trans.
  - destruct (rsp_AdminResponse response) as [ars|];
      [apply Hup; exact Es|intros [= <- <-]; left; exact Es].
Qed.

Lemma handleSplit_wrote (job : Job) (c c' : Cluster) (r : result unit) :
  handleSplit job c = (r, c') ->
  steady c c'
  \/ exists lt rt, wrote (put_split lt rt) (split_guards lt rt) r c c'.
Proof.
  unfold handleSplit.
  destruct (Request job) as [request|]; [|intros [= <- <-]; left; apply steady_refl].
  destruct (req_AdminRequest request) as [ar|];
    [|intros [= <- <-]; left; apply steady_refl].
  destruct (ar_Split ar) as [sp|]; [|intros [= <- <-]; left; apply steady_refl].
  destruct (sendRaftCommand request (sp_Region sp) c) as [[r0 request'] c1] eqn:Es.
  apply sendRaftCommand_steady in Es.
  destruct r0 as [response|e|]; [|intros [= <- <-]; left; exact Es..].
  assert (forall sp1 c2, steady c c2 -> update_split sp1 c2 = (r, c') ->
            steady c c'
            \/ exists lt rt, wrote (put_split lt rt) (split_guards lt rt) r c c')
    as Hup.
  { intros sp1 c2 Hs H. apply update_split_wrote in H as [H|(lt & rt & _ & H)].
    - left. eauto using steady_trans.
    - right. exists lt, rt. eauto using wrote_after. }
  destruct (has_error response).
  - destruct (checkSplitOK request' c1) as [r1 c2] eqn:Ec.
    apply checkSplitOK_steady in Ec.
    destruct r1 as [[split|]|e|];
      [apply Hup|intros [= <- <-]; left..]; eauto using steady_trans.
  - destruct (rsp_AdminResponse response) as [ars|];
      [apply Hup; exact Es|intros [= <- <-]; left; exact Es].
Qed.

(** X16: [handleChangePeer] leaves the store as it was unless it returns
    without error after its leader-guarded transaction went through, and
    then the only change is one region written under its end key; in
    particular an error return means that nothing was written, and the
    jobs and the region index are never touched. *)
Theorem handleChangePeer_store (job : Job) (c c' : Cluster) (r : result unit) :
  handleChangePeer job c = (r, c') ->
  (kv c' = kv c
   \/ (r = Ok tt
       /\ Etcd.leaderCmp (leader_create_revision (kv c)) (leaderRevision c) = true
       /\ exists region,
            kv c' = put_region_search region (kv c)
            /\ region_search (kv c') !! EndKey region = Some region))
  /\ jobs (kv c') = jobs (kv c) /\ region_index (kv c') = region_index (kv c).
Proof.
  intros H. apply handleChangePeer_wrote in H
    as [(Hkv & _)|(region & _ & [Hkv|(-> & Hkv & _ & Hcmp)])].
  - rewrite Hkv. auto.
  - rewrite Hkv. auto.
  - rewrite Hkv. split; [|split; reflexivity]. right. split; [reflexivity|].
    split; [exact Hcmp|]. exists region. split; [reflexivity|].
    simpl. apply lookup_insert_eq.
Qed.

(** A node applies the change and answers with the region as it is now. *)
Definition grown_region : Region :=
  mkRegion 7 [] [9] 4 [mkPeer 1 1 1; mkPeer 4 4 4].

Definition change_applied_cluster : Cluster :=
  mkCluster (mkKV 1 ∅ ∅ ∅) 1 true 0 1 [] []
    [CallMsg (Some (mkRaftResponse (Some (mkResponseHeader None))
                      (Some (mkAdminResponse (Some (Some grown_region)) None)) None))]
    [].

Definition change_applied_final : Cluster :=
  set_kv (put_region_search grown_region (kv change_applied_cluster))
    (after_calls [] [redirect_request] change_applied_cluster).

Lemma handleChangePeer_store_witness :
  (kv change_applied_final = kv change_applied_cluster
   \/ (Ok tt = Ok tt
       /\ Etcd.leaderCmp (leader_create_revision (kv change_applied_cluster))
            (leaderRevision change_applied_cluster) = true
       /\ exists region,
            kv change_applied_final = put_region_search region (kv change_applied_cluster)
            /\ region_search (kv change_applied_final) !! EndKey region = Some region))
  /\ jobs (kv change_applied_final) = jobs (kv change_applied_cluster)
  /\ region_index (kv change_applied_final) = region_index (kv change_applied_cluster).
Proof.
  apply (handleChangePeer_store (mkJob 5 Running (Some redirect_request))
           change_applied_cluster change_applied_final (Ok tt)).
  vm_compute. reflexivity.
Defined.

(** X17: [handleSplit] changes the store only by the split transaction,
    all of it or nothing: when it went through, the leader comparison
    held, the left region's search key was new, the right one's existed
    and the new region id was unused, and afterwards both regions can be
    looked up under their end keys and the new region id leads to the
    right one.  An error return means that nothing was written. *)
Theorem handleSplit_store (job : Job) (c c' : Cluster) (r : result unit) :
  handleSplit job c = (r, c') ->
  (kv c' = kv c
   \/ (r = Ok tt
       /\ Etcd.leaderCmp (leader_create_revision (kv c)) (leaderRevision c) = true
       /\ exists lt rt,
            kv c' = put_split lt rt (kv c)
            /\ region_search (kv c) !! EndKey lt = None
            /\ is_Some (region_search (kv c) !! EndKey rt)
            /\ region_index (kv c) !! RegionId rt = None
            /\ region_search (kv c') !! EndKey lt = Some lt
            /\ region_search (kv c') !! EndKey rt = Some rt
            /\ region_index (kv c') !! RegionId rt = Some (EndKey rt)))
  /\ jobs (kv c') = jobs (kv c).
Proof.
  intros H. apply handleSplit_wrote in H
    as [(Hkv & _)|(lt & rt & _ & [Hkv|(-> & Hkv & Hg & Hcmp)])].
  - rewrite Hkv. auto.
  - rewrite Hkv. auto.
  - rewrite Hkv. split; [|reflexivity]. right. split; [reflexivity|].
    split; [exact Hcmp|]. exists lt, rt. split; [reflexivity|].
    unfold split_guards in Hg.
    destruct (region_search (kv c) !! EndKey lt) eqn:El; [discriminate|].
    destruct (region_search (kv c) !! EndKey rt) as [whole|] eqn:Er; [|discriminate].
    destruct (region_index (kv c) !! RegionId rt) eqn:Ei; [discriminate|].
    assert (EndKey rt <> EndKey lt) as Hne by congruence.
    split; [reflexivity|]. split; [eauto|]. split; [reflexivity|]. simpl.
    split; [|split; apply lookup_insert_eq].
    rewrite lookup_insert_ne by exact Hne. apply lookup_insert_eq.
Qed.

(** The region ending at [9] is split at [5]; region 8 is the new right
    half. *)
Definition whole_region : Region := mkRegion 1 [] [9] 3 [mkPeer 1 1 1].
Definition left_region : Region := mkRegion 1 [] [5] 3 [mkPeer 1 1 1].
Definition right_region : Region := mkRegion 8 [5] [9] 3 [mkPeer 2 1 1].

Definition split_request : RaftCommandRequest :=
  mkRaftRequest (Some (mkRequestHeader 1 (Some (mkPeer 1 1 1))))
    (Some (mkAdminRequest Split None
             (Some (mkSplitRequest 8 [2] [5] (Some whole_region)))))
    None.

Definition split_cluster : Cluster :=
  mkCluster (mkKV 1 ∅ {[ [9] := whole_region ]} {[ 1 := [9] ]}) 1 true 0 1 [] []
    [CallMsg (Some (mkRaftResponse (Some (mkResponseHeader None))
                      (Some (mkAdminResponse None
                               (Some (Some left_region, Some right_region)))) None))]
    [].

Definition split_final : Cluster :=
  set_kv (put_split left_region right_region (kv split_cluster))
    (after_calls [] [split_request] split_cluster).

Lemma split_run :
  handleSplit (mkJob 6 Running (Some split_request)) split_cluster = (Ok tt, split_final).
Proof. vm_compute. reflexivity. Qed.

Lemma handleSplit_store_witness :
  (kv split_final = kv split_cluster
   \/ (Ok tt = Ok tt
       /\ Etcd.leaderCmp (leader_create_revision (kv split_cluster))
            (leaderRevision split_cluster) = true
       /\ exists lt rt,
            kv split_final = put_split lt rt (kv split_cluster)
            /\ region_search (kv split_cluster) !! EndKey lt = None
            /\ is_Some (region_search (kv split_cluster) !! EndKey rt)
            /\ region_index (kv split_cluster) !! RegionId rt = None
            /\ region_search (kv split_final) !! EndKey lt = Some lt
            /\ region_search (kv split_final) !! EndKey rt = Some rt
            /\ region_index (kv split_final) !! RegionId rt = Some (EndKey rt)))
  /\ jobs (kv split_final) = jobs (kv split_cluster).
Proof.
  apply (handleSplit_store (mkJob 6 Running (Some split_request))
           split_cluster split_final (Ok tt)).
  vm_compute. reflexivity.
Defined.

Lemma split_guards_after (lt rt : Region) (k : KV) :
  split_guards lt rt (put_split lt rt k) = false.
Proof.
  unfold split_guards, put_split. simpl.
  destruct (decide (EndKey rt = EndKey lt)) as [E|N].
  - rewrite E, lookup_insert_eq. reflexivity.
  - rewrite lookup_insert_ne, lookup_insert_eq by exact N. reflexivity.
Qed.

(** X18: the split transaction cannot be applied twice: once it went
    through, running the tail of [handleSplit] again with the same two
    regions, on a store that still holds what it wrote, fails and changes
    nothing, because the left region's search key now exists. *)
Theorem update_split_not_replayed
    (lt rt : Region) (c c1 c2 c3 : Cluster) (r : result unit) :
  update_split (Some (Some lt, Some rt)) c = (Ok tt, c1) ->
  kv c2 = kv c1 ->
  update_split (Some (Some lt, Some rt)) c2 = (r, c3) ->
  (r = Err ErrUpdateSplit \/ r = Err ErrCommit) /\ kv c3 = kv c2.
Proof.
  intros H1 Hkv H2. unfold update_split in H1, H2.
  destruct (leaderTxn _ _ c) as [t c1'] eqn:Et.
  destruct t as [|[|]]; try discriminate. injection H1 as <-.
  apply leaderTxn_cases in Et as (_ & [(_ & Hk1 & _)|(Hne & _)]); [|congruence].
  destruct (leaderTxn _ _ c2) as [t2 c3'] eqn:Et2.
  apply leaderTxn_cases in Et2 as (_ & [(_ & _ & _ & Hg)|(Hne & Hk3)]).
  - rewrite Hkv, Hk1, split_guards_after in Hg. discriminate.
  - destruct t2 as [|[|]]; injection H2 as <- <-; auto. congruence.
Qed.

Lemma update_split_not_replayed_witness :
  (@Err unit ErrUpdateSplit = Err ErrUpdateSplit
   \/ @Err unit ErrUpdateSplit = Err ErrCommit)
  /\ kv split_final = kv split_final.
Proof.
  apply (update_split_not_replayed left_region right_region
           (after_calls [] [split_request] split_cluster) split_final
           split_final split_final (@Err unit ErrUpdateSplit)).
  - vm_compute. reflexivity.
  - reflexivity.
  - vm_compute. reflexivity.
Defined.

(** *** Jobs *)

Lemma asyncNotify_steady (c : Cluster) :
  kv (asyncNotify c) = kv c /\ leaderRevision (asyncNotify c) = leaderRevision c.
Proof. unfold asyncNotify. destruct (Nat.ltb _ _); auto. Qed.

(** X19: a job that was posted under a fresh id is stored under that id,
    pending and with its request; popping it again gives back the store
    as it was before the post. *)
Theorem postJob_then_popJob
    (id : Z) (req : RaftCommandRequest) (c c1 c2 : Cluster) :
  postJob (Some id) req c = (Ok tt, c1) ->
  jobs (kv c) !! id = None ->
  popJob (Some (mkJob id Pending (Some req))) c1 = (Ok tt, c2) ->
  jobs (kv c1) !! id = Some (mkJob id Pending (Some req))
  /\ kv c2 = kv c.
Proof.
  unfold postJob, popJob. intros H1 Hfresh H2.
  destruct (req_Header req); [|discriminate].
  destruct (leaderTxn _ _ c) as [t c0] eqn:Et.
  destruct t as [|[|]]; try discriminate. injection H1 as <-.
  apply leaderTxn_cases in Et as (_ & [(_ & Hk1 & _)|(Hne & _)]); [|congruence].
  destruct (asyncNotify_steady c0) as [Hka _].
  destruct (leaderTxn _ _ (asyncNotify c0)) as [t2 c3] eqn:Et2.
  destruct t2 as [|[|]]; try discriminate. injection H2 as <-.
  apply leaderTxn_cases in Et2 as (_ & [(_ & Hk2 & _)|(Hne & _)]); [|congruence].
  rewrite Hka, Hk1 in *. split.
  - simpl. apply lookup_insert_eq.
  - rewrite Hk2. unfold delete_job, put_job. simpl.
    rewrite delete_insert_id by exact Hfresh. destruct (kv c). reflexivity.
Qed.

Definition post_cluster : Cluster := mkCluster (mkKV 1 ∅ ∅ ∅) 1 true 0 1 [] [] [] [].

Definition posted_cluster : Cluster :=
  mkCluster (mkKV 1 {[ 5 := mkJob 5 Pending (Some redirect_request) ]} ∅ ∅)
    1 true 1 1 [] [] [] [].

Definition popped_cluster : Cluster := mkCluster (mkKV 1 ∅ ∅ ∅) 1 true 1 1 [] [] [] [].

Lemma postJob_then_popJob_witness :
  jobs (kv posted_cluster) !! 5 = Some (mkJob 5 Pending (Some redirect_request))
  /\ kv popped_cluster = kv post_cluster.
Proof.
  apply (postJob_then_popJob 5 redirect_request post_cluster posted_cluster
           popped_cluster).
  - vm_compute. reflexivity.
  - reflexivity.
  - vm_compute. reflexivity.
Defined.

Lemma wrote_jobs (ops : KV -> KV) (guard : KV -> bool) (r : result unit)
    (c c' : Cluster) :
  (forall k, jobs (ops k) = jobs k) -> wrote ops guard r c c' ->
  jobs (kv c') = jobs (kv c).
Proof.
  intros Hops (_ & [Hkv|(_ & Hkv & _)]); rewrite Hkv; [reflexivity|apply Hops].
Qed.

Lemma handlers_keep_jobs (j : Job) (c c' : Cluster) (r : result unit) :
  handleChangePeer j c = (r, c') \/ handleSplit j c = (r, c') ->
  jobs (kv c') = jobs (kv c).
Proof.
  intros [H|H].
  - apply handleChangePeer_wrote in H as [(Hkv & _)|(region & H)].
    + rewrite Hkv. reflexivity.
    + eapply wrote_jobs; [|exact H]. reflexivity.
  - apply handleSplit_wrote in H as [(Hkv & _)|(lt & rt & H)].
    + rewrite Hkv. reflexivity.
    + eapply wrote_jobs; [|exact H]. reflexivity.
Qed.

(** X20: [handleJob] never removes a job: the job it handles stays in the
    store with its id and request, at most its status has become Running,
    and no other job is touched, whether the handling succeeds or fails. *)
Theorem handleJob_keeps_jobs (job : Job) (c c' : Cluster) (r : result unit) :
  handleJob (Some job) c = (r, c') ->
  jobs (kv c) !! JobId job = Some job ->
  (exists st, jobs (kv c') !! JobId job = Some (mkJob (JobId job) st (Request job))
              /\ (st = Status job \/ st = Running))
  /\ forall id, id <> JobId job -> jobs (kv c') !! id = jobs (kv c) !! id.
Proof.
  intros H Hjob. unfold handleJob in H.
  assert (exists r1 job1 c1,
            match GetStatus (Some job) with
            | Pending => updateJobStatus (Some job) Running c
            | Running => (Ok tt, Some job, c)
            end = (r1, job1, c1)
            /\ (job1 = Some job \/ job1 = Some (mkJob (JobId job) Running (Request job)))
            /\ (jobs (kv c1) = jobs (kv c)
                \/ jobs (kv c1)
                   = <[JobId job := mkJob (JobId job) Running (Request job)]>
                       (jobs (kv c)))) as (r1 & job1 & c1 & E & Hj1 & Hk1).
  { simpl. destruct (Status job).
    - unfold updateJobStatus. destruct (leaderTxn _ _ c) as [t c1] eqn:Et.
      apply leaderTxn_cases in Et as (_ & [(-> & Hk & _)|(Hne & Hk)]).
      + eexists _, _, _. split; [reflexivity|]. split; [right; reflexivity|].
        right. rewrite Hk. reflexivity.
      + destruct t as [|[|]]; eexists _, _, _;
          (split; [reflexivity|]); (split; [right; reflexivity|]);
          left; rewrite Hk; reflexivity.
    - eexists _, _, _. split; [reflexivity|]. auto. }
  rewrite E in H.
  assert (jobs (kv c') = jobs (kv c1)) as Hk'.
  { destruct r1 as [[]|e|]; [|injection H as _ <-; reflexivity..].
    destruct (GetRequest job1) as [req|]; [|injection H as _ <-; reflexivity].
    destruct job1 as [j|]; [|injection H as _ <-; reflexivity].
    destruct (req_AdminRequest req) as [[[| |] cp sp]|];
      try (injection H as _ <-; reflexivity);
      eapply handlers_keep_jobs; eauto. }
  rewrite Hk'. destruct Hk1 as [->| ->].
  - split; [|reflexivity]. exists (Status job). split; [|left; reflexivity].
    rewrite Hjob. destruct job. reflexivity.
  - split.
    + exists Running. rewrite lookup_insert_eq. auto.
    + intros id Hne. apply lookup_insert_ne. congruence.
Qed.

Lemma handleJob_keeps_jobs_witness :
  (exists st,
     jobs (kv lost_lease_cluster) !! JobId lost_lease_job
       = Some (mkJob (JobId lost_lease_job) st (Request lost_lease_job))
     /\ (st = Status lost_lease_job \/ st = Running))
  /\ forall id, id <> JobId lost_lease_job ->
       jobs (kv lost_lease_cluster) !! id = jobs (kv lost_lease_cluster) !! id.
Proof.
  apply (handleJob_keeps_jobs lost_lease_job lost_lease_cluster lost_lease_cluster
           (Err ErrUpdateJob)).
  - vm_compute. reflexivity.
  - reflexivity.
Defined.

(** *** Requests from the storage nodes *)

Record AskChangePeerRequest : Type := mkAskChangePeer {
  acp_Region : option Region;
  acp_Leader : option Peer
}.

Record AskSplitRequest : Type := mkAskSplit {
  asp_Region : option Region;
  asp_Leader : option Peer;
  asp_SplitKey : list Z
}.

(** [meta] is what [c.GetMeta()] yields: [None] when it fails, else the
    cluster's MaxPeerNumber.  [peerAlloc] and [jobAlloc] are the results of
    the calls to the id allocator, [rnd] the draw of [chooseStore]; the
    store table is [stores c].  The request itself is not nil. *)
Definition HandleAskChangePeer (meta : option nat) (peerAlloc jobAlloc : option Z)
    (rnd : nat) (request : AskChangePeerRequest) (c : Cluster)
    : result unit * Cluster :=
  match meta with
  | None => (Err ErrGet, c)
  | Some maxPeerNumber =>
      let region := acp_Region request in
      let regionID := GetRegionId region in
      let peerNumber := length (GetPeers region) in
      let post (changeType : ConfChangeType) (peer : Peer) :=
        postJob jobAlloc
          (mkRaftRequest (Some (mkRequestHeader regionID (acp_Leader request)))
             (Some (mkAdminRequest ChangePeer
                      (Some (mkChangePeerRequest changeType (Some peer) region)) None))
             None) c in
      if Nat.eqb peerNumber maxPeerNumber then (Ok tt, c)
      else if Nat.ltb peerNumber maxPeerNumber then
        match handleAddPeerReq peerAlloc (stores c) rnd region with
        | Ok peer => post AddNode peer
        | Err e => (Err e, c)
        | Panic => (Panic, c)
        end
      else
        match handleRemovePeerReq region (acp_Leader request) with
        | Ok peer => post RemoveNode peer
        | Err e => (Err e, c)
        | Panic => (Panic, c)
        end
  end.

(** [c.s.idAlloc.Alloc()]: [allocs] lists what the coming calls return. *)
Definition Alloc (allocs : list (option Z)) : option Z * list (option Z) :=
  match allocs with
  | [] => (None, [])
  | a :: rest => (a, rest)
  end.

(** The loop that fills [peerIDs]; it stops at the first failure. *)
Fixpoint alloc_peer_ids (n : nat) (allocs : list (option Z))
    : option (list Z) * list (option Z) :=
  match n with
  | O => (Some [], allocs)
  | S n' =>
      match Alloc allocs with
      | (None, rest) => (None, rest)
      | (Some id, rest) =>
          match alloc_peer_ids n' rest with
          | (Some ids, rest') => (Some (id :: ids), rest')
          | (None, rest') => (None, rest')
          end
      end
  end.

(** [request.Region.Peers] panics on a nil region, after the first id has
    been allocated. *)
Definition HandleAskSplit (allocs : list (option Z)) (request : AskSplitRequest)
    (c : Cluster) : result unit * Cluster :=
  match Alloc allocs with
  | (None, _) => (Err ErrAlloc, c)
  | (Some newRegionID, rest) =>
      match asp_Region request with
      | None => (Panic, c)
      | Some rg =>
          match alloc_peer_ids (length (Peers rg)) rest with
          | (None, _) => (Err ErrAlloc, c)
          | (Some peerIDs, rest') =>
              postJob (fst (Alloc rest'))
                (mkRaftRequest (Some (mkRequestHeader (RegionId rg) (asp_Leader request)))
                   (Some (mkAdminRequest Split None
                            (Some (mkSplitRequest newRegionID peerIDs
                                     (asp_SplitKey request) (Some rg)))))
                   None) c
          end
      end
  end.

Lemma handleAddPeerReq_Ok (alloc : option Z) (stores : list Store) (rnd : nat)
    (rg : Region) (peer : Peer) :
  handleAddPeerReq alloc stores rnd (Some rg) = Ok peer ->
  exists peerID store,
    alloc = Some peerID /\ In store stores /\ hosts (Peers rg) store = false
    /\ peer = mkPeer peerID (store_NodeId store) (store_StoreId store).
Proof.
  unfold handleAddPeerReq. destruct alloc as [peerID|]; [|discriminate].
  destruct stores as [|s0 rest]; [discriminate|].
  rewrite classify_stores_spec. cbn [app]. set (stores := s0 :: rest).
  destruct (Nat.eqb _ 0 && Nat.eqb _ 0) eqn:Eempty; [discriminate|].
  destruct (chooseStore_spec rnd (List.filter (is_best (Peers rg)) stores)
              (List.filter (is_match (Peers rg)) stores)) as (s & Es & Hin).
  { destruct (List.filter (is_best (Peers rg)) stores); [|left; discriminate].
    destruct (List.filter (is_match (Peers rg)) stores); [discriminate|].
    right. discriminate. }
  rewrite Es. intros [= <-]. exists peerID, s. split; [reflexivity|].
  assert (In s stores /\ hosts (Peers rg) s = false) as [Hs Hh].
  { destruct (List.filter (is_best (Peers rg)) stores) eqn:Eb.
    - apply filter_In in Hin as [Hs Hm]. split; [exact Hs|].
      unfold is_match in Hm. apply andb_prop in Hm as [Hm _].
      apply negb_true_iff in Hm. exact Hm.
    - rewrite <- Eb in Hin. apply filter_In in Hin as [Hs Hm]. split; [exact Hs|].
      unfold is_best in Hm. apply andb_prop in Hm as [Hm _].
      apply negb_true_iff in Hm. exact Hm. }
  auto.
Qed.

Lemma postJob_Ok (alloc : option Z) (req : RaftCommandRequest) (c c' : Cluster) :
  postJob alloc req c = (Ok tt, c') ->
  exists id, alloc = Some id
    /\ kv c' = put_job id (mkJob id Pending (Some req)) (kv c)
    /\ Etcd.leaderCmp (leader_create_revision (kv c)) (leaderRevision c) = true.
Proof.
  unfold postJob. destruct alloc as [id|]; [|discriminate].
  destruct (req_Header req); [|discriminate].
  destruct (leaderTxn _ _ c) as [t c0] eqn:Et.
  destruct t as [|[|]]; try discriminate. intros [= <-].
  apply leaderTxn_cases in Et as (_ & [(_ & Hk & Hcmp & _)|(Hne & _)]); [|congruence].
  exists id. destruct (asyncNotify_steady c0) as [-> _]. auto.
Qed.

Lemma postJob_failed (alloc : option Z) (req : RaftCommandRequest) (c c' : Cluster)
    (r : result unit) :
  postJob alloc req c = (r, c') -> r <> Ok tt -> kv c' = kv c.
Proof.
  unfold postJob. destruct alloc as [id|]; [|intros [= <- <-]; reflexivity].
  destruct (req_Header req); [|intros [= <- <-]; reflexivity].
  destruct (leaderTxn _ _ c) as [t c0] eqn:Et.
  apply leaderTxn_cases in Et as (_ & [(-> & _)|(_ & Hk)]).
  - intros [= <- <-] Hne. contradiction.
  - destruct t as [|[|]]; intros [= <- <-] Hne; try exact Hk. contradiction.
Qed.

(** The job [HandleAskChangePeer] posts for [request]. *)
Definition change_peer_job (jobID : Z) (request : AskChangePeerRequest)
    (changeType : ConfChangeType) (peer : Peer) : Job :=
  mkJob jobID Pending
    (Some (mkRaftRequest
             (Some (mkRequestHeader (GetRegionId (acp_Region request))
                      (acp_Leader request)))
             (Some (mkAdminRequest ChangePeer
                      (Some (mkChangePeerRequest changeType (Some peer)
                               (acp_Region request))) None))
             None)).

(** X21: [HandleAskChangePeer] does nothing when the region has exactly
    MaxPeerNumber peers.  Otherwise the store changes only if it returns
    without error, by one pending ChangePeer job: with fewer peers the job
    adds a peer on a store of the table that hosts no peer of the region,
    with more peers it removes a peer of the region that is not the
    leader. *)
Theorem HandleAskChangePeer_posts
    (maxPeerNumber : nat) (peerAlloc jobAlloc : option Z) (rnd : nat)
    (request : AskChangePeerRequest) (rg : Region) (c c' : Cluster)
    (r : result unit) :
  HandleAskChangePeer (Some maxPeerNumber) peerAlloc jobAlloc rnd request c = (r, c') ->
  acp_Region request = Some rg ->
  (length (Peers rg) = maxPeerNumber -> r = Ok tt /\ c' = c)
  /\ (kv c' = kv c
      \/ (r = Ok tt
          /\ exists jobID peer changeType,
               jobAlloc = Some jobID
               /\ kv c' = put_job jobID (change_peer_job jobID request changeType peer)
                            (kv c)
               /\ (((length (Peers rg) < maxPeerNumber)%nat /\ changeType = AddNode
                    /\ exists peerID store,
                         peerAlloc = Some peerID /\ In store (stores c)
                         /\ hosts (Peers rg) store = false
                         /\ peer = mkPeer peerID (store_NodeId store)
                                     (store_StoreId store))
                   \/ ((maxPeerNumber < length (Peers rg))%nat
                       /\ changeType = RemoveNode
                       /\ In peer (Peers rg)
                       /\ PeerId peer <> GetPeerId (acp_Leader request))))).
Proof.
  unfold HandleAskChangePeer. intros H Hrg. rewrite Hrg in H. cbn [GetPeers] in H.
  assert (forall changeType peer,
            postJob jobAlloc
              (mkRaftRequest
                 (Some (mkRequestHeader (GetRegionId (Some rg)) (acp_Leader request)))
                 (Some (mkAdminRequest ChangePeer
                          (Some (mkChangePeerRequest changeType (Some peer) (Some rg)))
                          None)) None) c = (r, c') ->
            kv c' = kv c
            \/ (r = Ok tt
                /\ exists jobID, jobAlloc = Some jobID
                     /\ kv c' = put_job jobID
                                  (change_peer_job jobID request changeType peer) (kv c)))
    as Hpost.
  { intros changeType peer Hp. destruct r as [[]|e|].
    - right. split; [reflexivity|]. apply postJob_Ok in Hp as (id & -> & Hk & _).
      exists id. split; [reflexivity|]. unfold change_peer_job. rewrite Hrg. exact Hk.
    - left. apply postJob_failed in Hp; [exact Hp|discriminate].
    - left. apply postJob_failed in Hp; [exact Hp|discriminate]. }
  destruct (Nat.eqb_spec (length (Peers rg)) maxPeerNumber) as [Heq|Hne].
  - injection H as <- <-. auto.
  - split; [intros E; contradiction|].
    destruct (Nat.ltb_spec (length (Peers rg)) maxPeerNumber) as [Hlt|Hge].
    + destruct (handleAddPeerReq peerAlloc (stores c) rnd (Some rg)) as [peer|e|] eqn:Ea;
        [|injection H as <- <-; left; reflexivity..].
      apply handleAddPeerReq_Ok in Ea as (peerID & store & Hpa & Hin & Hh & Hpeer).
      apply Hpost in H as [H|(-> & jobID & Hja & Hk)]; [left; exact H|].
      right. split; [reflexivity|]. exists jobID, peer, AddNode.
      split; [exact Hja|]. split; [exact Hk|]. left. split; [exact Hlt|].
      split; [reflexivity|]. exists peerID, store. auto.
    + destruct (handleRemovePeerReq (Some rg) (acp_Leader request)) as [peer|e|] eqn:Er;
        [|injection H as <- <-; left; reflexivity..].
      apply Hpost in H as [H|(-> & jobID & Hja & Hk)]; [left; exact H|].
      right. split; [reflexivity|]. exists jobID, peer, RemoveNode.
      split; [exact Hja|]. split; [exact Hk|]. right. split; [lia|].
      split; [reflexivity|]. unfold handleRemovePeerReq in Er.
      destruct (length (Peers rg) <=? 1)%nat; [discriminate|].
      destruct (List.find _ (Peers rg)) as [p|] eqn:Ef; [|discriminate].
      injection Er as <-. apply find_some in Ef as [Hin Hp].
      split; [exact Hin|]. apply negb_true_iff, Z.eqb_neq in Hp. exact Hp.
Qed.

(** A region of three peers in a cluster that wants five: the only store
    without a peer of the region is store 4. *)
Definition ask_request : AskChangePeerRequest :=
  mkAskChangePeer (Some removal_region) (Some (mkPeer 1 1 1)).

Definition ask_cluster : Cluster :=
  mkCluster (mkKV 1 ∅ ∅ ∅) 1 true 0 1 [mkStoreMeta 1 1; mkStoreMeta 4 4] [] [] [].

Definition ask_final : Cluster :=
  asyncNotify
    (set_kv (put_job 41 (change_peer_job 41 ask_request AddNode (mkPeer 40 4 4))
               (kv ask_cluster)) ask_cluster).

Lemma HandleAskChangePeer_posts_witness :
  (length (Peers removal_region) = 5%nat -> Ok tt = Ok tt /\ ask_final = ask_cluster)
  /\ (kv ask_final = kv ask_cluster
      \/ (Ok tt = Ok tt
          /\ exists jobID peer changeType,
               Some 41 = Some jobID
               /\ kv ask_final
                  = put_job jobID (change_peer_job jobID ask_request changeType peer)
                      (kv ask_cluster)
               /\ (((length (Peers removal_region) < 5)%nat /\ changeType = AddNode
                    /\ exists peerID store,
                         Some 40 = Some peerID /\ In store (stores ask_cluster)
                         /\ hosts (Peers removal_region) store = false
                         /\ peer = mkPeer peerID (store_NodeId store)
                                     (store_StoreId store))
                   \/ ((5 < length (Peers removal_region))%nat
                       /\ changeType = RemoveNode
                       /\ In peer (Peers removal_region)
                       /\ PeerId peer <> GetPeerId (acp_Leader ask_request))))).
Proof.
  apply (HandleAskChangePeer_posts 5 (Some 40) (Some 41) 0 ask_request removal_region
           ask_cluster ask_final (Ok tt)).
  - vm_compute. reflexivity.
  - reflexivity.
Defined.

Lemma alloc_peer_ids_Some (n : nat) :
  forall (allocs rest : list (option Z)) (ids : list Z),
    alloc_peer_ids n allocs = (Some ids, rest) ->
    allocs = map Some ids ++ rest /\ length ids = n.
Proof.
  induction n as [|n IH]; intros allocs rest ids; simpl.
  - intros [= <- <-]. auto.
  - destruct allocs as [|[id|] allocs']; simpl; try discriminate.
    destruct (alloc_peer_ids n allocs') as [[ids'|] rest'] eqn:E; [|discriminate].
    intros [= <- <-]. apply IH in E as [-> <-]. auto.
Qed.

(** The job [HandleAskSplit] posts for [request]. *)
Definition split_job (jobID newRegionID : Z) (peerIDs : list Z)
    (request : AskSplitRequest) : Job :=
  mkJob jobID Pending
    (Some (mkRaftRequest
             (Some (mkRequestHeader (GetRegionId (asp_Region request))
                      (asp_Leader request)))
             (Some (mkAdminRequest Split None
                      (Some (mkSplitRequest newRegionID peerIDs (asp_SplitKey request)
                               (asp_Region request)))))
             None)).

(** X22: [HandleAskSplit] changes the store only if it returns without
    error, and then by one pending Split job carrying the split key and
    the region of the request, a new region id and one new peer id per
    peer of the region; the ids are the allocator's next values, in the
    order region, peers, job.  If an allocation fails nothing is posted. *)
Theorem HandleAskSplit_posts
    (allocs : list (option Z)) (request : AskSplitRequest) (c c' : Cluster)
    (r : result unit) :
  HandleAskSplit allocs request c = (r, c') ->
  kv c' = kv c
  \/ (r = Ok tt
      /\ exists rg newRegionID peerIDs jobID rest,
           asp_Region request = Some rg
           /\ allocs = map Some (newRegionID :: peerIDs ++ [jobID]) ++ rest
           /\ length peerIDs = length (Peers rg)
           /\ kv c' = put_job jobID (split_job jobID newRegionID peerIDs request) (kv c)).
Proof.
  unfold HandleAskSplit. destruct allocs as [|[newRegionID|] rest0]; simpl;
    try (intros [= <- <-]; left; reflexivity).
  destruct (asp_Region request) as [rg|] eqn:Hrg; [|intros [= <- <-]; left; reflexivity].
  destruct (alloc_peer_ids (length (Peers rg)) rest0) as [[peerIDs|] rest'] eqn:Ea;
    [|intros [= <- <-]; left; reflexivity].
  apply alloc_peer_ids_Some in Ea as [-> Hlen]. intros H.
  destruct r as [[]|e|];
    [|left; apply postJob_failed in H; [exact H|discriminate]..].
  right. split; [reflexivity|]. apply postJob_Ok in H as (jobID & Hj & Hk & _).
  destruct rest' as [|a rest]; [discriminate|]. simpl in Hj. subst a.
  exists rg, newRegionID, peerIDs, jobID, rest. split; [reflexivity|].
  split; [|split; [exact Hlen|]].
  - rewrite map_app, <- app_assoc. reflexivity.
  - unfold split_job. rewrite Hrg. exact Hk.
Qed.

Definition ask_split_request : AskSplitRequest :=
  mkAskSplit (Some whole_region) (Some (mkPeer 1 1 1)) [5].

Definition ask_split_final : Cluster :=
  asyncNotify
    (set_kv (put_job 6 (split_job 6 8 [2] ask_split_request) (kv post_cluster))
       post_cluster).

Lemma HandleAskSplit_posts_witness :
  kv ask_split_final = kv post_cluster
  \/ (Ok tt = Ok tt
      /\ exists rg newRegionID peerIDs jobID rest,
           asp_Region ask_split_request = Some rg
           /\ [Some 8; Some 2; Some 6]
              = map Some (newRegionID :: peerIDs ++ [jobID]) ++ rest
           /\ length peerIDs = length (Peers rg)
           /\ kv ask_split_final
              = put_job jobID (split_job jobID newRegionID peerIDs ask_split_request)
                  (kv post_cluster)).
Proof.
  apply (HandleAskSplit_posts [Some 8; Some 2; Some 6] ask_split_request post_cluster
           ask_split_final (Ok tt)).
  vm_compute. reflexivity.
Defined.

End ClusterWorker.

(** ** The cache of connections to the storage nodes *)

Module NodeConns.

(** A [net.Conn] is the number of the connection; [touchedTime] is a
    wall-clock reading. *)
Record nodeConn : Type := mkNodeConn { conn : nat; touchedTime : Z }.

(** [conns] maps an address to the connection object cached for it; the
    pointer [GetConn] returns is the one the map holds.  [idleTimeout] is a
    [time.Duration], in nanoseconds. *)
Record nodeConns : Type := mkNodeConns {
  conns : gmap string nodeConn;
  idleTimeout : Z
}.

Inductive error : Type :=
| ErrDial     (* net.DialTimeout failed *)
| ErrClose.   (* conn.Close() failed *)

Definition newNodeConns : nodeConns := mkNodeConns ∅ 0.

(** [dial] is what [net.DialTimeout] yields, [None] for an error; [now] is
    the reading of [time.Now()]. *)
Definition newNodeConn (dial : option nat) (now : Z) : error + nodeConn :=
  match dial with
  | None => inl ErrDial
  | Some cn => inr (mkNodeConn cn now)
  end.

Definition createNewConn (addr : string) (dial : option nat) (now : Z)
    (ncs : nodeConns) : (error + nodeConn) * nodeConns :=
  match newNodeConn dial now with
  | inl e => (inl e, ncs)
  | inr nc => (inr nc, mkNodeConns (<[addr := nc]> (conns ncs)) (idleTimeout ncs))
  end.

Definition SetIdleTimeout (d : Z) (ncs : nodeConns) : nodeConns :=
  mkNodeConns (conns ncs) d.

(** [timeout > 0 && conn.touchedTime.Add(timeout).Sub(time.Now()) < 0] *)
Definition expired (timeout touched now : Z) : bool :=
  (0 <? timeout) && (Go.Sub (touched + timeout) now <? 0).

(** [now_check] is the clock reading of the idle test, [now_touch] the one
    stored as [touchedTime]; [close_err] says whether closing the cached
    connection fails.  The third component lists the connections on which
    [Close] was called. *)
Definition GetConn (addr : string) (dial : option nat) (close_err : bool)
    (now_check now_touch : Z) (ncs : nodeConns)
    : (error + nodeConn) * nodeConns * list nat :=
  match conns ncs !! addr with
  | None => (createNewConn addr dial now_touch ncs, [])
  | Some nc =>
      if expired (idleTimeout ncs) (touchedTime nc) now_check then
        if close_err then (inl ErrClose, ncs, [conn nc])
        else (createNewConn addr dial now_touch ncs, [conn nc])
      else
        let nc' := mkNodeConn (conn nc) now_touch in
        (inr nc', mkNodeConns (<[addr := nc']> (conns ncs)) (idleTimeout ncs), [])
  end.

(** [Close]: every cached connection is closed, in the order in which the
    iteration over the map visits them; a failure is only logged. *)
Definition Close (ncs : nodeConns) : nodeConns * list nat :=
  (mkNodeConns ∅ (idleTimeout ncs), map (fun p => conn (snd p)) (map_to_list (conns ncs))).

(** *** Properties of the cache *)

Lemma expired_spec (timeout touched now : Z) :
  expired timeout touched now = true <-> 0 < timeout /\ touched + timeout < now.
Proof.
  unfold expired, Go.Sub, Int64.saturate, Int64.min_int, Int64.max_int.
  rewrite andb_true_iff, Z.ltb_lt, Z.ltb_lt.
  destruct (Z.ltb_spec (touched + timeout - now) (- 2 ^ 63));
    [|destruct (Z.ltb_spec (2 ^ 63 - 1) (touched + timeout - now))]; lia.
Qed.

Lemma createNewConn_spec (addr : string) (dial : option nat) (now : Z)
    (ncs ncs' : nodeConns) (res : error + nodeConn) :
  createNewConn addr dial now ncs = (res, ncs') ->
  (dial = None /\ res = inl ErrDial /\ ncs' = ncs)
  \/ exists cn, dial = Some cn /\ res = inr (mkNodeConn cn now)
       /\ ncs' = mkNodeConns (<[addr := mkNodeConn cn now]> (conns ncs)) (idleTimeout ncs).
Proof.
  unfold createNewConn, newNodeConn. destruct dial as [cn|]; intros [= <- <-]; eauto.
Qed.

(** X23: the connection [GetConn] returns is the one the cache now holds
    for the address, it has just been touched, and no other address of the
    cache and not the idle timeout have changed. *)
Theorem GetConn_caches_what_it_returns
    (addr : string) (dial : option nat) (close_err : bool) (now_check now_touch : Z)
    (ncs ncs' : nodeConns) (c : nodeConn) (closes : list nat) :
  GetConn addr dial close_err now_check now_touch ncs = (inr c, ncs', closes) ->
  conns ncs' !! addr = Some c
  /\ touchedTime c = now_touch
  /\ idleTimeout ncs' = idleTimeout ncs
  /\ forall a, a <> addr -> conns ncs' !! a = conns ncs !! a.
Proof.
  unfold GetConn.
  assert (forall res ncs1,
            createNewConn addr dial now_touch ncs = (res, ncs1) ->
            res = inr c -> ncs1 = ncs' ->
            conns ncs' !! addr = Some c /\ touchedTime c = now_touch
            /\ idleTimeout ncs' = idleTimeout ncs
            /\ forall a, a <> addr -> conns ncs' !! a = conns ncs !! a) as Hnew.
  { intros res ncs1 H -> <-.
    apply createNewConn_spec in H as [(_ & H & _)|(cn & _ & [= ->] & ->)];
      [discriminate|]. simpl. split; [apply lookup_insert_eq|].
    split; [reflexivity|]. split; [reflexivity|].
    intros a Ha. apply lookup_insert_ne. congruence. }
  destruct (conns ncs !! addr) as [nc|].
  - destruct (expired _ _ _).
    + destruct close_err; [discriminate|].
      destruct (createNewConn addr dial now_touch ncs) as [res ncs1] eqn:E.
      intros [= -> -> _]. eapply Hnew; eauto.
    + intros [= <- <- _]. simpl. split; [apply lookup_insert_eq|].
      split; [reflexivity|]. split; [reflexivity|].
      intros a Ha. apply lookup_insert_ne. congruence.
  - destruct (createNewConn addr dial now_touch ncs) as [res ncs1] eqn:E.
    intros [= -> -> _]. eapply Hnew; eauto.
Qed.

Definition one_conn : nodeConns :=
  mkNodeConns {[ "n1:20160"%string := mkNodeConn 3 1000 ]} 500.

Lemma GetConn_caches_what_it_returns_witness :
  conns (mkNodeConns {[ "n1:20160"%string := mkNodeConn 3 1300 ]} 500)
    !! "n1:20160"%string = Some (mkNodeConn 3 1300)
  /\ touchedTime (mkNodeConn 3 1300) = 1300
  /\ idleTimeout (mkNodeConns {[ "n1:20160"%string := mkNodeConn 3 1300 ]} 500)
     = idleTimeout one_conn
  /\ forall a, a <> "n1:20160"%string ->
       conns (mkNodeConns {[ "n1:20160"%string := mkNodeConn 3 1300 ]} 500) !! a
       = conns one_conn !! a.
Proof.
  apply (GetConn_caches_what_it_returns "n1:20160" None false 1200 1300 one_conn
           _ _ []).
  vm_compute. reflexivity.
Defined.

(** X24: a cached connection is reused, without dialling or closing
    anything, unless a positive idle timeout has run out on it; once it has,
    [GetConn] calls [Close] on it and hands out a newly dialled connection
    instead. *)
Theorem GetConn_replaces_idle_connection
    (addr : string) (dial : option nat) (close_err : bool) (now_check now_touch : Z)
    (ncs ncs' : nodeConns) (old c : nodeConn) (closes : list nat) :
  conns ncs !! addr = Some old ->
  GetConn addr dial close_err now_check now_touch ncs = (inr c, ncs', closes) ->
  (0 < idleTimeout ncs /\ touchedTime old + idleTimeout ncs < now_check ->
   closes = [conn old] /\ dial = Some (conn c) /\ close_err = false)
  /\ (~ (0 < idleTimeout ncs /\ touchedTime old + idleTimeout ncs < now_check) ->
      closes = [] /\ conn c = conn old).
Proof.
  intros Hold. unfold GetConn. rewrite Hold.
  destruct (expired _ _ _) eqn:Ee.
  - apply expired_spec in Ee. destruct close_err; [discriminate|].
    destruct (createNewConn addr dial now_touch ncs) as [res ncs1] eqn:E.
    intros [= -> -> <-].
    apply createNewConn_spec in E as [(_ & H & _)|(cn & -> & [= ->] & _)];
      [discriminate|].
    split; [intros _; repeat split|]. intros Hn. destruct (Hn Ee).
  - intros [= <- <- <-]. split.
    + intros Hi. apply expired_spec in Hi. congruence.
    + auto.
Qed.

Lemma GetConn_replaces_idle_connection_witness :
  (0 < idleTimeout one_conn /\ touchedTime (mkNodeConn 3 1000) + idleTimeout one_conn < 1600 ->
   [3%nat] = [conn (mkNodeConn 3 1000)] /\ Some 4%nat = Some (conn (mkNodeConn 4 1700))
   /\ false = false)
  /\ (~ (0 < idleTimeout one_conn
         /\ touchedTime (mkNodeConn 3 1000) + idleTimeout one_conn < 1600) ->
      [3%nat] = [] /\ conn (mkNodeConn 4 1700) = conn (mkNodeConn 3 1000)).
Proof.
  apply (GetConn_replaces_idle_connection "n1:20160" (Some 4%nat) false 1600 1700
           one_conn (mkNodeConns {[ "n1:20160"%string := mkNodeConn 4 1700 ]} 500)).
  - reflexivity.
  - vm_compute. reflexivity.
Defined.

Lemma createNewConn_inl (addr : string) (dial : option nat) (now : Z)
    (ncs ncs' : nodeConns) (e : error) :
  createNewConn addr dial now ncs = (inl e, ncs') ->
  ncs' = ncs /\ e = ErrDial /\ dial = None.
Proof.
  intros H. apply createNewConn_spec in H as [(-> & [= ->] & ->)|(cn & _ & H & _)];
    [auto|discriminate].
Qed.

(** X25: when [GetConn] fails the cache is exactly as it was.  If the
    address had a cached connection, the failure came after [Close] was
    called on that connection, and the cache goes on holding it: this is so
    when closing fails, and also when closing succeeds and dialling anew
    fails. *)
Theorem GetConn_failure_keeps_cache
    (addr : string) (dial : option nat) (close_err : bool) (now_check now_touch : Z)
    (ncs ncs' : nodeConns) (e : error) (closes : list nat) :
  GetConn addr dial close_err now_check now_touch ncs = (inl e, ncs', closes) ->
  ncs' = ncs
  /\ ((e = ErrClose /\ close_err = true) \/ (e = ErrDial /\ dial = None))
  /\ match conns ncs !! addr with
     | Some old => closes = [conn old]
     | None => closes = []
     end.
Proof.
  unfold GetConn.
  destruct (conns ncs !! addr) as [nc|].
  - destruct (expired _ _ _).
    + destruct close_err.
      * intros [= <- <- <-]. auto.
      * destruct (createNewConn addr dial now_touch ncs) as [res ncs1] eqn:E.
        intros [= -> <- <-]. apply createNewConn_inl in E as (-> & -> & ->). auto.
    + discriminate.
  - destruct (createNewConn addr dial now_touch ncs) as [res ncs1] eqn:E.
    intros [= -> <- <-]. apply createNewConn_inl in E as (-> & -> & ->). auto.
Qed.

(** The cached connection has been idle for too long, it is closed, and
    the node cannot be reached. *)
Lemma GetConn_failure_keeps_cache_witness :
  one_conn = one_conn
  /\ ((ErrDial = ErrClose /\ false = true) \/ (ErrDial = ErrDial /\ @None nat = None))
  /\ match conns one_conn !! "n1:20160"%string with
     | Some old => [3%nat] = [conn old]
     | None => [3%nat] = []
     end.
Proof.
  apply (GetConn_failure_keeps_cache "n1:20160" None false 1600 1700 one_conn one_conn
           ErrDial [3%nat]).
  vm_compute. reflexivity.
Defined.

(** X26: [Close] calls [Close] on every cached connection, once per
    entry of the cache, and leaves an empty cache with the same idle
    timeout; the next [GetConn], for whatever address, dials. *)
Theorem Close_closes_every_connection (ncs : nodeConns) :
  conns (fst (Close ncs)) = ∅
  /\ idleTimeout (fst (Close ncs)) = idleTimeout ncs
  /\ length (snd (Close ncs)) = size (conns ncs)
  /\ (forall cn, In cn (snd (Close ncs)) <->
                 exists a nc, conns ncs !! a = Some nc /\ conn nc = cn)
  /\ forall addr dial close_err now_check now_touch,
       GetConn addr dial close_err now_check now_touch (fst (Close ncs))
       = (createNewConn addr dial now_touch (fst (Close ncs)), []).
Proof.
  unfold Close. simpl. split; [reflexivity|]. split; [reflexivity|].
  split; [rewrite length_map; apply length_map_to_list|]. split.
  - intros cn. rewrite in_map_iff. split.
    + intros ([a nc] & E & Hin). exists a, nc. split; [|exact E].
      apply elem_of_map_to_list, list_elem_of_In. exact Hin.
    + intros (a & nc & Hl & E). exists (a, nc). split; [exact E|].
      apply list_elem_of_In, elem_of_map_to_list. exact Hl.
  - intros addr dial close_err now_check now_touch. unfold GetConn. simpl.
    rewrite lookup_empty. reflexivity.
Qed.

End NodeConns.

(** ** The message frame, as the server's tests write and read it *)

Module Framing.

(** [binary.BigEndian.PutUintN] into [n] bytes and [binary.BigEndian.UintN]
    of [n] bytes. *)
Definition PutUint (n : nat) (v : Z) : list Z := reverse (Z_to_little_endian (Z.of_nat n) 8 v).
Definition Uint (data : list Z) : Z := little_endian_to_Z 8 (reverse data).

Lemma length_PutUint (n : nat) (v : Z) : length (PutUint n v) = n.
Proof.
  unfold PutUint. rewrite length_reverse.
  pose proof (length_Z_to_little_endian (Z.of_nat n) 8 v). lia.
Qed.

Lemma Uint_PutUint (n : nat) (v : Z) : Uint (PutUint n v) = v mod 2 ^ (Z.of_nat n * 8).
Proof.
  unfold Uint, PutUint. rewrite reverse_involutive.
  apply little_endian_to_Z_to_little_endian; lia.
Qed.

Section Frame.

(** The constants of the wire format are declared outside the sources. *)
Variables (msgMagic msgVersion : Z).

(** Modelled from the spec: [msgHeaderSize] (the message utilities are not
    among the sources).  Section 3: every message has a 16-byte header. *)
Definition msgHeaderSize : nat := 16.

(** [sendRequest], from the marshalled [body] on: what it writes on the
    connection.  The four fields fill the 16 bytes of the header. *)
Definition sendRequest (msgID : Z) (body : list Z) : list Z :=
  let header :=
    PutUint 2 msgMagic ++ PutUint 2 msgVersion
    ++ PutUint 4 (Z.of_nat (length body) mod 2 ^ 32) ++ PutUint 8 msgID in
  header ++ body.

(** [recvResponse], up to the unmarshalling of the body: the message id,
    the body and what is left on the connection; [None] when one of the
    assertions fails. *)
Definition recvResponse (stream : list Z) : option (Z * list Z * list Z) :=
  let header := take msgHeaderSize stream in
  if negb (Nat.eqb (length header) msgHeaderSize) then None
  else if negb (Uint (take 2 header) =? msgMagic) then None
  else
    let msgLen := Z.to_nat (Uint (take 4 (drop 4 header))) in
    let msgID := Uint (take 8 (drop 8 header)) in
    let rest := drop msgHeaderSize stream in
    let body := take msgLen rest in
    if negb (Nat.eqb (length body) msgLen) then None
    else Some (msgID, body, drop msgLen rest).

(** X27: what [sendRequest] writes, [recvResponse] reads back: the same
    message id and body, leaving on the connection what followed the
    message, provided the magic number and the message id fit their fields
    and the body is shorter than 2^32 bytes.  The version is not checked. *)
Theorem recvResponse_sendRequest (msgID : Z) (body rest : list Z) :
  0 <= msgMagic < 2 ^ 16 -> 0 <= msgID < 2 ^ 64 ->
  Z.of_nat (length body) < 2 ^ 32 ->
  recvResponse (sendRequest msgID body ++ rest) = Some (msgID, body, rest).
Proof.
  intros Hmagic Hid Hlen. unfold recvResponse, sendRequest, msgHeaderSize.
  set (m := PutUint 2 msgMagic). set (v := PutUint 2 msgVersion).
  set (l := PutUint 4 (Z.of_nat (length body) mod 2 ^ 32)). set (i := PutUint 8 msgID).
  assert (length m = 2%nat) as Lm by apply length_PutUint.
  assert (length v = 2%nat) as Lv by apply length_PutUint.
  assert (length l = 4%nat) as Ll by apply length_PutUint.
  assert (length i = 8%nat) as Li by apply length_PutUint.
  assert (length (m ++ v ++ l ++ i) = 16%nat) as Lh
    by (rewrite !length_app; lia).
  rewrite <- (app_assoc (m ++ v ++ l ++ i) body rest).
  rewrite (take_app_length' (m ++ v ++ l ++ i)) by exact Lh.
  rewrite (drop_app_length' (m ++ v ++ l ++ i)) by exact Lh.
  rewrite Lh. cbn [Nat.eqb negb].
  rewrite (take_app_length' m) by exact Lm.
  replace (drop 4 (m ++ v ++ l ++ i)) with (l ++ i)
    by (rewrite (app_assoc m v), (drop_app_length' (m ++ v)); [reflexivity|];
        rewrite length_app; lia).
  replace (drop 8 (m ++ v ++ l ++ i)) with i
    by (rewrite (app_assoc m v), (app_assoc (m ++ v) l),
          (drop_app_length' ((m ++ v) ++ l)); [reflexivity|];
        rewrite !length_app; lia).
  rewrite (take_app_length' l) by exact Ll.
  rewrite (take_ge i) by lia.
  unfold m, l, i. rewrite !Uint_PutUint.
  change (Z.of_nat 2 * 8) with 16. change (Z.of_nat 4 * 8) with 32.
  change (Z.of_nat 8 * 8) with 64.
  rewrite (Z.mod_small msgMagic), (Z.mod_small msgID) by lia.
  rewrite Z.eqb_refl. cbn [negb].
  rewrite Z.mod_mod by lia. rewrite Z.mod_small by lia. rewrite Nat2Z.id.
  rewrite take_app_length, drop_app_length, Nat.eqb_refl. reflexivity.
Qed.

End Frame.

Lemma recvResponse_sendRequest_witness :
  recvResponse 43981 (sendRequest 43981 1 7 [10; 20; 30] ++ [1; 2])
  = Some (7, [10; 20; 30], [1; 2]).
Proof.
  apply (recvResponse_sendRequest 43981 1 7 [10; 20; 30] [1; 2]).
  - lia.
  - lia.
  - simpl. lia.
Defined.

End Framing.
